(** * WagerVS: ledger, wagers, settlement and withdrawals

    A shallow embedding of the betting backend's services

      - [BalanceService.getUserBalances/deductChips/canClaimFreeChips/
         claimFreeChips]                        (balance.service.ts)
      - [BetService.placeBet/getEventStats]     (bet.service.ts)
      - [EventService.createEvent/updateEvent/cancelEvent]
                                                (event.service.ts)
      - [PayoutService.calculatePayouts/resolveEvent/distributePayouts/
         refundEvent]                           (payout.service.ts)
      - [WalletService.depositUSDC/depositSOL/requestWithdrawal/
         processWithdrawal]                     (wallet.service.ts)
      - [uuidToBuffer/bufferToUuid]             (utils/uuid.ts)
      - [getSOLPrice/solToUSD/usdToSOL/getSOLPriceCached]
                                                (utils/priceOracle.ts)

    over an explicit model of the relational store they talk to.

    Modelling conventions.
      - Tables with a primary key ([events], [event_bets], [event_payouts],
        [cash_out_requests]) are finite maps from the key to the row; the
        ledger is a list in creation order, and rows are only ever appended.
      - Chip amounts are [DECIMAL(18,8)] columns that the services read into
        JavaScript numbers.  They are modelled as exact rationals [Q]: the
        arithmetic is the one written in the source, without the rounding of
        binary64 or of the column type.  Numeric results are therefore
        stated with [==], and an identity between sums or products is a
        statement about exact arithmetic: in binary64 it holds up to
        rounding only.  The rake arithmetic, the balance scan and the chip
        deduction are written once, over an arbitrary number type, and are
        instantiated at [Q] and at binary64; where a claim depends on the
        difference, the binary64 instance is evaluated.
      - A service call is a function from the store to an outcome and the
        store it leaves behind.  [Throw] carries the [AppError] of the
        source (message and HTTP status code).
      - External collaborators (price oracle, Solana transfers) are fields
        of an environment record; [None] stands for a thrown exception.
      - Columns that no modelled code reads (names, images) are left out
        of the rows.  The [description] and [created_at] columns of the
        ledger are read by two queries only (the replay check of the
        deposits and the cooldown of the free chips); they are kept, for
        the rows those queries select from, beside the store. *)

From Stdlib Require Import QArith Qminmax Qabs Qround Lqa ZArith.
From Stdlib Require Import Floats.
From Stdlib Require Strings.Byte.
From Stdlib Require Import Strings.Ascii Strings.String.
From stdpp Require Import gmap list strings.

Local Open Scope Q_scope.

(** ** Enumerations of the schema *)

Abbreviation Id := positive.

Module EventStatus.
Inductive t := draft | pending | active | locked | completed | paid_out | cancelled.
#[global] Instance eq_dec : EqDecision t.
Proof. solve_decision. Defined.
End EventStatus.

Module BetStatus.
Inductive t := active | won | lost | refunded.
#[global] Instance eq_dec : EqDecision t.
Proof. solve_decision. Defined.
End BetStatus.

Module PayoutStatus.
Inductive t := pending | completed | rejected.
#[global] Instance eq_dec : EqDecision t.
Proof. solve_decision. Defined.
End PayoutStatus.

Module CashOutStatus.
Inductive t := pending | completed | rejected.
#[global] Instance eq_dec : EqDecision t.
Proof. solve_decision. Defined.
End CashOutStatus.

Module Currency.
Inductive t := chips | usd | usdc | sol | eth.
#[global] Instance eq_dec : EqDecision t.
Proof. solve_decision. Defined.
End Currency.

Module TxType.
Inductive t :=
| deposit | chips_buy | event_create | event_create_ai | private_event
| bet_placed | bet_won | ai_insight_buy | referral_reward | prize_won | cashout.
#[global] Instance eq_dec : EqDecision t.
Proof. solve_decision. Defined.
End TxType.

(** [VALID_CHOICE_LETTERS] of types/index.ts. *)
Module Letter.
Inductive t := A | B | C | D | E | F | G | H.
#[global] Instance eq_dec : EqDecision t.
Proof. solve_decision. Defined.
End Letter.

(** ** Rows *)

Module Choice.
Record t := mk { choiceLetter : Letter.t; totalPool : Q }.
End Choice.

Module Event.
Record t := mk {
  status : EventStatus.t;
  lockTime : option Z;
  winningSide : option Letter.t;
  creatorCommission : Q;
  choices : list Choice.t
}.
Definition with_status (st : EventStatus.t) (e : t) : t :=
  mk st (lockTime e) (winningSide e) (creatorCommission e) (choices e).
Definition with_lockTime (lt : option Z) (e : t) : t :=
  mk (status e) lt (winningSide e) (creatorCommission e) (choices e).
Definition with_winningSide (w : option Letter.t) (e : t) : t :=
  mk (status e) (lockTime e) w (creatorCommission e) (choices e).
Definition with_choices (cs : list Choice.t) (e : t) : t :=
  mk (status e) (lockTime e) (winningSide e) (creatorCommission e) cs.
End Event.

Module Bet.
Record t := mk {
  eventId : Id;
  userId : Id;
  choiceLetter : Letter.t;
  amount : Q;
  status : BetStatus.t
}.
Definition with_status (st : BetStatus.t) (b : t) : t :=
  mk (eventId b) (userId b) (choiceLetter b) (amount b) st.
End Bet.

Module Payout.
Record t := mk {
  eventId : Id;
  userId : Id;
  payoutAmount : Q;
  status : PayoutStatus.t;
  adminId : option Id
}.
Definition complete (admin : Id) (p : t) : t :=
  mk (eventId p) (userId p) (payoutAmount p) PayoutStatus.completed (Some admin).
End Payout.

Module CashOut.
Record t := mk {
  userId : Id;
  amount : Q;
  currency : Currency.t;
  walletAddress : string;   (* the part of [method] after " to " *)
  status : CashOutStatus.t
}.
Definition with_status (st : CashOutStatus.t) (r : t) : t :=
  mk (userId r) (amount r) (currency r) (walletAddress r) st.
End CashOut.

Module Ledger.
Record t := mk {
  userId : Id;
  currency : Currency.t;
  amount : Q;
  balanceBefore : Q;
  balanceAfter : Q;
  transactionType : TxType.t;
  referenceType : option string;
  referenceId : option Id
}.
End Ledger.

(** ** The store *)

Record Store := mkStore {
  users : gset Id;
  events : gmap Id Event.t;
  eventBets : gmap Id Bet.t;
  eventPayouts : gmap Id Payout.t;
  cashOutRequests : gmap Id CashOut.t;
  ledger : list Ledger.t
}.

Definition set_events (f : gmap Id Event.t → gmap Id Event.t) (s : Store) : Store :=
  mkStore (users s) (f (events s)) (eventBets s) (eventPayouts s) (cashOutRequests s) (ledger s).
Definition set_eventBets (f : gmap Id Bet.t → gmap Id Bet.t) (s : Store) : Store :=
  mkStore (users s) (events s) (f (eventBets s)) (eventPayouts s) (cashOutRequests s) (ledger s).
Definition set_eventPayouts (f : gmap Id Payout.t → gmap Id Payout.t) (s : Store) : Store :=
  mkStore (users s) (events s) (eventBets s) (f (eventPayouts s)) (cashOutRequests s) (ledger s).
Definition set_cashOutRequests (f : gmap Id CashOut.t → gmap Id CashOut.t) (s : Store) : Store :=
  mkStore (users s) (events s) (eventBets s) (eventPayouts s) (f (cashOutRequests s)) (ledger s).
(** [prisma.ledger.create]: the only write the ledger ever sees. *)
Definition ledger_create (e : Ledger.t) (s : Store) : Store :=
  mkStore (users s) (events s) (eventBets s) (eventPayouts s) (cashOutRequests s) (ledger s ++ [e]).

(** ** Errors (middleware/errorHandler.ts) *)

Inductive Message :=
| EventNotFound
| EventNotAcceptingBets
| BettingLocked
| InvalidChoice
| InsufficientBalance (available : Q)
| InvalidWinningSide
| EventAlreadyResolved
| EventMustBeLockedOrActive
| NoPendingPayouts
| EventMustBeCancelled
| CannotUpdateCompleted
| CannotCancel
| InsufficientWonChips (wonChips : Q)
| WithdrawalNotFound
| WithdrawalAlreadyProcessed
| WithdrawalFailedRefunded
| UncaughtException.

Record AppError := mkAppError { message : Message; statusCode : Z }.

Inductive Result (T : Type) :=
| Ok (v : T)
| Throw (e : AppError).
Arguments Ok {T} v.
Arguments Throw {T} e.

Definition isOk {T} (r : Result T) : bool :=
  match r with Ok _ => true | Throw _ => false end.

(** ** Numbers *)

Definition Qltb (x y : Q) : bool := negb (Qle_bool y x).

(** [xs.reduce((sum, x) => sum + x, 0)] *)
Definition Qsum (xs : list Q) : Q := foldl Qplus 0 xs.

(** [COMPANY_PRIZE_POOL_RAKE = 0.025] (types/index.ts) *)
Definition COMPANY_PRIZE_POOL_RAKE : Q := 25 # 1000.

(** ** BalanceService (balance.service.ts) *)

Record UserBalances := mkBalances {
  purchasedChips : Q;
  wonChips : Q;
  freeChips : Q;
  lockedChips : Q;
  totalChips : Q
}.

(** The four running totals of the ledger scan. *)
Record Buckets := mkBuckets { b_purchased : Q; b_won : Q; b_free : Q; b_locked : Q }.

(** One iteration of the [switch (tx.transactionType)] loop. *)
Definition classify (acc : Buckets) (tx : Ledger.t) : Buckets :=
  let amount := Ledger.amount tx in
  match Ledger.transactionType tx with
  | TxType.deposit | TxType.chips_buy =>
      mkBuckets (b_purchased acc + amount) (b_won acc) (b_free acc) (b_locked acc)
  | TxType.bet_won | TxType.prize_won =>
      mkBuckets (b_purchased acc) (b_won acc + amount) (b_free acc) (b_locked acc)
  | TxType.referral_reward =>
      mkBuckets (b_purchased acc) (b_won acc) (b_free acc + amount) (b_locked acc)
  | TxType.bet_placed =>
      if Qltb amount 0
      then mkBuckets (b_purchased acc) (b_won acc) (b_free acc) (b_locked acc + Qabs amount)
      else acc
  | TxType.event_create | TxType.event_create_ai | TxType.private_event => acc
  | TxType.cashout =>
      if Qltb amount 0
      then mkBuckets (b_purchased acc) (b_won acc + amount) (b_free acc) (b_locked acc)
      else acc
  | TxType.ai_insight_buy => acc
  end.

(** [prisma.ledger.findMany({ where: { userId, currency: 'chips' },
    orderBy: { createdAt: 'asc' } })] *)
Definition chipTransactions (s : Store) (userId : Id) : list Ledger.t :=
  filter (λ tx, Ledger.userId tx = userId ∧ Ledger.currency tx = Currency.chips) (ledger s).

(** [prisma.eventBet.aggregate({ where: { userId, status: 'active' },
    _sum: { amount: true } })], with [|| new Decimal(0)] for no rows. *)
Definition activeBetsSum (s : Store) (userId : Id) : Q :=
  Qsum (Bet.amount <$>
        filter (λ b, Bet.userId b = userId ∧ Bet.status b = BetStatus.active)
               (map_to_list (eventBets s)).*2).

Definition getUserBalances (s : Store) (userId : Id) : UserBalances :=
  let acc := foldl classify (mkBuckets 0 0 0 0) (chipTransactions s userId) in
  (* the ledger-derived [lockedChips] is overwritten by the live aggregate *)
  let lockedChips := activeBetsSum s userId in
  let purchasedChips := Qmax 0 (b_purchased acc) in
  let wonChips := Qmax 0 (b_won acc) in
  let freeChips := Qmax 0 (b_free acc) in
  let lockedChips := Qmax 0 lockedChips in
  let totalChips := purchasedChips + wonChips + freeChips in
  mkBalances purchasedChips wonChips freeChips lockedChips totalChips.

(** The won bucket of the ledger scan, before the clamp at zero. *)
Definition wonScan (s : Store) (u : Id) : Q :=
  b_won (foldl classify (mkBuckets 0 0 0 0) (chipTransactions s u)).

(** The body of [getUserBalances] has no [throw]: whatever the user id, the
    promise resolves. *)
Definition getUserBalances_outcome (s : Store) (userId : Id) : Result UserBalances :=
  Ok (getUserBalances s userId).

(** ** BetService.placeBet (bet.service.ts) *)

Record PlaceBetInput := mkPlaceBet {
  pb_eventId : Id;
  pb_choiceLetter : Letter.t;
  pb_amount : Q
}.

Record PlaceBetResult := mkPlaceBetResult {
  pbr_betId : Id;
  pbr_balances : UserBalances
}.

Definition findChoice (l : Letter.t) (cs : list Choice.t) : option Choice.t :=
  List.find (λ c, bool_decide (Choice.choiceLetter c = l)) cs.

(** [tx.eventChoice.update({ where: { eventId_choiceLetter }, data:
    { totalPool: { increment } } })] *)
Definition incrementPool (l : Letter.t) (amount : Q) (e : Event.t) : Event.t :=
  Event.with_choices
    (List.map (λ c, if decide (Choice.choiceLetter c = l)
                    then Choice.mk (Choice.choiceLetter c) (Choice.totalPool c + amount)
                    else c)
              (Event.choices e))
    e.

(** Lines 19-57: every read and every check that precedes the transaction.
    The value handed on is [currentBalance.totalChips]. *)
Definition placeBet_check (now : Z) (userId : Id) (input : PlaceBetInput) (s : Store)
  : Result Q :=
  match events s !! pb_eventId input with
  | None => Throw (mkAppError EventNotFound 404)
  | Some event =>
      if negb (bool_decide (Event.status event = EventStatus.active))
      then Throw (mkAppError EventNotAcceptingBets 400)
      else if match Event.lockTime event with
              | Some t => bool_decide (t ≤ now)%Z
              | None => false
              end
      then Throw (mkAppError BettingLocked 400)
      else match findChoice (pb_choiceLetter input) (Event.choices event) with
           | None => Throw (mkAppError InvalidChoice 400)
           | Some choice =>
               let balances := getUserBalances s userId in
               if Qltb (totalChips balances) (pb_amount input)
               then Throw (mkAppError (InsufficientBalance (totalChips balances)) 400)
               else
                 let currentBalance := getUserBalances s userId in
                 Ok (totalChips currentBalance)
           end
  end.

(** Lines 60-107: the [prisma.$transaction] that writes the bet, the pool
    increment and the ledger debit. *)
Definition placeBet_commit (userId : Id) (input : PlaceBetInput) (currentTotal : Q)
    (s : Store) : Id * Store :=
  let betId := fresh (dom (eventBets s)) in
  let s1 := set_eventBets
              (insert betId (Bet.mk (pb_eventId input) userId (pb_choiceLetter input)
                                    (pb_amount input) BetStatus.active)) s in
  let s2 := set_events
              (alter (incrementPool (pb_choiceLetter input) (pb_amount input))
                     (pb_eventId input)) s1 in
  let s3 := ledger_create
              (Ledger.mk userId Currency.chips (- pb_amount input)
                         currentTotal (currentTotal - pb_amount input)
                         TxType.bet_placed (Some "event_bet"%string) (Some betId)) s2 in
  (betId, s3).

Definition placeBet (now : Z) (userId : Id) (input : PlaceBetInput) (s : Store)
  : Result PlaceBetResult * Store :=
  match placeBet_check now userId input s with
  | Throw e => (Throw e, s)
  | Ok currentTotal =>
      let '(betId, s') := placeBet_commit userId input currentTotal s in
      let newBalance := getUserBalances s' userId in
      (Ok (mkPlaceBetResult betId newBalance), s')
  end.

(** ** PayoutService (payout.service.ts) *)

(** The arithmetic of [calculatePayouts], lines 75-110, over any number type. *)
Section RakeArithmetic.
Context {N : Type} (mul sub div : N → N → N) (prizeRake : N).

Record Rakes := mkRakes {
  r_eventRakeAmount : N;
  r_poolAfterEventRake : N;
  r_prizePoolRakeAmount : N;
  r_distributionPool : N
}.

Definition rakeStages (totalPool eventRake : N) : Rakes :=
  let eventRakeAmount := mul totalPool eventRake in
  let poolAfterEventRake := sub totalPool eventRakeAmount in
  let prizePoolRakeAmount := mul poolAfterEventRake prizeRake in
  let distributionPool := sub poolAfterEventRake prizePoolRakeAmount in
  mkRakes eventRakeAmount poolAfterEventRake prizePoolRakeAmount distributionPool.

Definition winnerPayout (distributionPool winningPool betAmount : N) : N :=
  let betPercentage := div betAmount winningPool in
  let shareOfPool := mul distributionPool betPercentage in
  let totalPayout := shareOfPool in
  totalPayout.
End RakeArithmetic.
Arguments Rakes N : clear implicits.

Definition rakeStagesQ : Q → Q → Rakes Q := rakeStages Qmult Qminus COMPANY_PRIZE_POOL_RAKE.
Definition winnerPayoutQ : Q → Q → Q → Q := winnerPayout Qmult Qdiv.

Record PayoutItem := mkPayoutItem {
  pi_userId : Id;
  pi_betId : Id;
  pi_betAmount : Q;
  pi_payout : Q;
  pi_profit : Q
}.

Record RefundItem := mkRefundItem {
  ri_userId : Id;
  ri_amount : Q;
  ri_betId : Id
}.

(** The object [calculatePayouts] returns.  The refund-everyone branch has
    no [eventRakeAmount] property. *)
Record PayoutCalculation := mkCalculation {
  payouts : list PayoutItem;
  refunds : list RefundItem;
  totalPaid : Q;
  eventRakeAmount : option Q;
  prizePoolRake : Q
}.

(** [include: { bets: { where: { status: 'active' } } }] of an event. *)
Definition activeBetsOf (s : Store) (eventId : Id) : list (Id * Bet.t) :=
  filter (λ kb, Bet.eventId kb.2 = eventId ∧ Bet.status kb.2 = BetStatus.active)
         (map_to_list (eventBets s)).

Definition poolTotal (cs : list Choice.t) : Q :=
  foldl (λ sum choice, sum + Choice.totalPool choice) 0 cs.

Definition payoutItem (distributionPool winningPool : Q) (kb : Id * Bet.t) : PayoutItem :=
  let betAmount := Bet.amount kb.2 in
  let totalPayout := winnerPayoutQ distributionPool winningPool betAmount in
  let profit := totalPayout - betAmount in
  mkPayoutItem (Bet.userId kb.2) kb.1 betAmount totalPayout profit.

Definition calculatePayouts (eventId : Id) (winningSide : Letter.t) (s : Store)
  : Result PayoutCalculation :=
  match events s !! eventId with
  | None => Throw (mkAppError EventNotFound 404)
  | Some event =>
      let bets := activeBetsOf s eventId in
      match findChoice winningSide (Event.choices event) with
      | None => Throw (mkAppError InvalidWinningSide 400)
      | Some winningChoice =>
          let totalPool := poolTotal (Event.choices event) in
          let winningPool := Choice.totalPool winningChoice in
          if Qeq_bool winningPool 0
          then Ok (mkCalculation
                     []
                     ((λ kb, mkRefundItem (Bet.userId kb.2) (Bet.amount kb.2) kb.1) <$> bets)
                     0 None 0)
          else
            let eventRake := Event.creatorCommission event in
            let rk := rakeStagesQ totalPool eventRake in
            let winningBets :=
              filter (λ kb, Bet.choiceLetter kb.2 = winningSide) bets in
            let payouts :=
              payoutItem (r_distributionPool rk) winningPool <$> winningBets in
            let totalPaid := foldl (λ sum p, sum + pi_payout p) 0 payouts in
            Ok (mkCalculation payouts [] totalPaid
                              (Some (r_eventRakeAmount rk)) (r_prizePoolRakeAmount rk))
      end
  end.

Record ResolveSummary := mkResolveSummary {
  rs_payoutsCount : nat;
  rs_totalPayout : Q;
  rs_eventRake : option Q;
  rs_prizePoolRake : Q
}.

(** [tx.eventBet.updateMany] of the winning side, then of the other sides. *)
Definition markWon (eventId : Id) (winningSide : Letter.t) (b : Bet.t) : Bet.t :=
  if decide (Bet.eventId b = eventId ∧ Bet.choiceLetter b = winningSide
             ∧ Bet.status b = BetStatus.active)
  then Bet.with_status BetStatus.won b else b.

Definition markLost (eventId : Id) (winningSide : Letter.t) (b : Bet.t) : Bet.t :=
  if decide (Bet.eventId b = eventId ∧ Bet.choiceLetter b ≠ winningSide
             ∧ Bet.status b = BetStatus.active)
  then Bet.with_status BetStatus.lost b else b.

(** [tx.eventPayout.create], the key being the column default (a new UUID). *)
Definition createPayout (eventId adminId : Id) (st : Store) (p : PayoutItem) : Store :=
  set_eventPayouts
    (insert (fresh (dom (eventPayouts st)))
            (Payout.mk eventId (pi_userId p) (pi_payout p) PayoutStatus.pending (Some adminId)))
    st.

Definition markRefunded (st : Store) (r : RefundItem) : Store :=
  set_eventBets (alter (Bet.with_status BetStatus.refunded) (ri_betId r)) st.

Definition resolveEvent (eventId : Id) (winningSide : Letter.t) (adminId : Id) (s : Store)
  : Result ResolveSummary * Store :=
  match events s !! eventId with
  | None => (Throw (mkAppError EventNotFound 404), s)
  | Some event =>
      if bool_decide (Event.status event = EventStatus.completed)
         || bool_decide (Event.status event = EventStatus.paid_out)
      then (Throw (mkAppError EventAlreadyResolved 400), s)
      else if bool_decide (Event.status event ≠ EventStatus.locked)
              && bool_decide (Event.status event ≠ EventStatus.active)
      then (Throw (mkAppError EventMustBeLockedOrActive 400), s)
      else
        match calculatePayouts eventId winningSide s with
        | Throw e => (Throw e, s)
        | Ok calculation =>
            let s1 := set_events
                        (alter (λ e, Event.with_winningSide (Some winningSide)
                                       (Event.with_status EventStatus.completed e))
                               eventId) s in
            let s2 := set_eventBets (fmap (markWon eventId winningSide)) s1 in
            let s3 := set_eventBets (fmap (markLost eventId winningSide)) s2 in
            let s4 := foldl (createPayout eventId adminId) s3 (payouts calculation) in
            let s5 := foldl markRefunded s4 (refunds calculation) in
            (Ok (mkResolveSummary (length (payouts calculation)) (totalPaid calculation)
                                  (eventRakeAmount calculation) (prizePoolRake calculation)),
             s5)
        end
  end.

Record DistributionResult := mkDistribution {
  payoutsProcessed : nat;
  dr_totalAmount : Q;
  dr_payouts : list (Id * Q)
}.

(** [prisma.eventPayout.findMany({ where: { eventId, status: 'pending' } })] *)
Definition pendingPayouts (s : Store) (eventId : Id) : list (Id * Payout.t) :=
  filter (λ kp, Payout.eventId kp.2 = eventId ∧ Payout.status kp.2 = PayoutStatus.pending)
         (map_to_list (eventPayouts s)).

(** The ledger row that credits a payout as won chips. *)
Definition payoutCredit (committed : Store) (kp : Id * Payout.t) : Ledger.t :=
  let amount := Payout.payoutAmount kp.2 in
  let currentBalance := getUserBalances committed (Payout.userId kp.2) in
  Ledger.mk (Payout.userId kp.2) Currency.chips amount
            (totalChips currentBalance) (totalChips currentBalance + amount)
            TxType.bet_won (Some "event_payout"%string) (Some kp.1).

(** One iteration of the loop inside the transaction.  The balance is read
    through the global client, not through [tx]: it sees the store as
    committed before the transaction ([committed]), not the rows written so
    far ([tx]). *)
Definition distributeOne (committed : Store) (adminId : Id)
    (acc : list (Id * Q) * Store) (kp : Id * Payout.t) : list (Id * Q) * Store :=
  let '(processed, tx) := acc in
  let tx1 := ledger_create (payoutCredit committed kp) tx in
  let tx2 := set_eventPayouts (alter (Payout.complete adminId) kp.1) tx1 in
  (processed ++ [(Payout.userId kp.2, Payout.payoutAmount kp.2)], tx2).

Definition distributePayouts (eventId adminId : Id) (s : Store)
  : Result DistributionResult * Store :=
  let payouts := pendingPayouts s eventId in
  if bool_decide (length payouts = 0%nat)
  then (Throw (mkAppError NoPendingPayouts 400), s)
  else
    let '(results, s1) := foldl (distributeOne s adminId) ([], s) payouts in
    let s2 := set_events (alter (Event.with_status EventStatus.paid_out) eventId) s1 in
    (Ok (mkDistribution (length results) (Qsum results.*2) results), s2).

Record RefundResult := mkRefundResult {
  refundsProcessed : nat;
  rr_totalAmount : Q
}.

Definition refundCredit (committed : Store) (kb : Id * Bet.t) : Ledger.t :=
  let amount := Bet.amount kb.2 in
  let currentBalance := getUserBalances committed (Bet.userId kb.2) in
  Ledger.mk (Bet.userId kb.2) Currency.chips amount
            (totalChips currentBalance) (totalChips currentBalance + amount)
            TxType.bet_won (Some "event_refund"%string) (Some kb.1).

Definition refundOne (committed : Store)
    (acc : list (Id * Q) * Store) (kb : Id * Bet.t) : list (Id * Q) * Store :=
  let '(refunded, tx) := acc in
  let tx1 := ledger_create (refundCredit committed kb) tx in
  let tx2 := set_eventBets (alter (Bet.with_status BetStatus.refunded) kb.1) tx1 in
  (refunded ++ [(Bet.userId kb.2, Bet.amount kb.2)], tx2).

Definition refundEvent (eventId : Id) (s : Store) : Result RefundResult * Store :=
  match events s !! eventId with
  | None => (Throw (mkAppError EventNotFound 404), s)
  | Some event =>
      if bool_decide (Event.status event ≠ EventStatus.cancelled)
      then (Throw (mkAppError EventMustBeCancelled 400), s)
      else
        let bets := activeBetsOf s eventId in
        if bool_decide (length bets = 0%nat)
        then (Ok (mkRefundResult 0 0), s)
        else
          let '(results, s1) := foldl (refundOne s) ([], s) bets in
          (Ok (mkRefundResult (length results) (Qsum results.*2)), s1)
  end.

(** ** EventService (event.service.ts) *)

(** The fields of [UpdateEventInput] that reach a modelled column. *)
Record UpdateEventInput := mkUpdateEvent {
  ue_lockTime : option Z;
  ue_status : option EventStatus.t
}.

(** [data: { ...(input.lockTime && { lockTime }), ...(input.status && { status }) }] *)
Definition applyUpdate (input : UpdateEventInput) (e : Event.t) : Event.t :=
  let e1 := match ue_lockTime input with
            | Some t => Event.with_lockTime (Some t) e
            | None => e
            end in
  match ue_status input with
  | Some st => Event.with_status st e1
  | None => e1
  end.

Definition updateEvent (eventId : Id) (input : UpdateEventInput) (s : Store)
  : Result Event.t * Store :=
  match events s !! eventId with
  | None => (Throw (mkAppError EventNotFound 404), s)
  | Some event =>
      if bool_decide (Event.status event ∈ [EventStatus.completed; EventStatus.paid_out])
      then (Throw (mkAppError CannotUpdateCompleted 400), s)
      else
        let s1 := set_events (alter (applyUpdate input) eventId) s in
        (Ok (applyUpdate input event), s1)
  end.

Definition cancelEvent (eventId : Id) (s : Store) : Result Event.t * Store :=
  match events s !! eventId with
  | None => (Throw (mkAppError EventNotFound 404), s)
  | Some event =>
      if bool_decide (Event.status event ∈
                        [EventStatus.completed; EventStatus.paid_out; EventStatus.cancelled])
      then (Throw (mkAppError CannotCancel 400), s)
      else
        let s1 := set_events (alter (Event.with_status EventStatus.cancelled) eventId) s in
        (Ok (Event.with_status EventStatus.cancelled event), s1)
  end.

(** ** WalletService (wallet.service.ts) *)

(** The collaborators of utils/priceOracle.ts and utils/solana.ts. *)
Record Chain := mkChain {
  usdToSOL : Q → option Q;
  sendSOL : string → Q → option string;
  sendUSDC : string → Q → option string
}.

Record WithdrawalRequestInput := mkWithdrawalInput {
  wi_amount : Q;
  wi_currency : Currency.t;
  wi_walletAddress : string
}.

Record WithdrawalReceipt := mkWithdrawalReceipt {
  wr_requestId : Id;
  wr_cryptoAmount : Q;
  wr_balances : UserBalances
}.

(** An exception of a collaborator that no [catch] intercepts; the error
    handler answers it with status 500. *)
Definition collaboratorFailure : AppError := mkAppError UncaughtException 500.

Definition requestWithdrawal (chain : Chain) (userId : Id) (input : WithdrawalRequestInput)
    (s : Store) : Result WithdrawalReceipt * Store :=
  let amount := wi_amount input in
  let balances := getUserBalances s userId in
  if Qltb (wonChips balances) amount
  then (Throw (mkAppError (InsufficientWonChips (wonChips balances)) 400), s)
  else
    match (if bool_decide (wi_currency input = Currency.sol)
           then usdToSOL chain amount else Some amount) with
    | None => (Throw collaboratorFailure, s)
    | Some cryptoAmount =>
        let requestId := fresh (dom (cashOutRequests s)) in
        let s1 := set_cashOutRequests
                    (insert requestId
                       (CashOut.mk userId amount
                          (if bool_decide (wi_currency input = Currency.sol)
                           then Currency.sol else Currency.usdc)
                          (wi_walletAddress input) CashOutStatus.pending)) s in
        let currentBalance := getUserBalances s1 userId in
        let s2 := ledger_create
                    (Ledger.mk userId Currency.chips (- amount)
                               (totalChips currentBalance) (totalChips currentBalance - amount)
                               TxType.cashout (Some "cashout_request"%string) (Some requestId))
                    s1 in
        let newBalance := getUserBalances s2 userId in
        (Ok (mkWithdrawalReceipt requestId cryptoAmount newBalance), s2)
    end.

(** The body of the [try] up to the transfer: [Some signature], or [None]
    when the oracle or the transfer throws.  The address is read back as
    [request.method.split(' to ')[1]]; [method] is [CURRENCY to address],
    and an address that [withdrawalRequestSchema] lets through (32 to 44
    base58 characters) contains no blank, so this is the address of the
    request, which [CashOut.walletAddress] holds. *)
Definition transfer (chain : Chain) (request : CashOut.t) : option string :=
  let amount := CashOut.amount request in
  if bool_decide (CashOut.currency request = Currency.sol)
  then match usdToSOL chain amount with
       | Some solAmount => sendSOL chain (CashOut.walletAddress request) solAmount
       | None => None
       end
  else sendUSDC chain (CashOut.walletAddress request) amount.

Definition processWithdrawal (chain : Chain) (requestId adminId : Id) (s : Store)
  : Result string * Store :=
  match cashOutRequests s !! requestId with
  | None => (Throw (mkAppError WithdrawalNotFound 404), s)
  | Some request =>
      if bool_decide (CashOut.status request ≠ CashOutStatus.pending)
      then (Throw (mkAppError WithdrawalAlreadyProcessed 400), s)
      else
        let amount := CashOut.amount request in
        match transfer chain request with
        | Some signature =>
            let s1 := set_cashOutRequests
                        (alter (CashOut.with_status CashOutStatus.completed) requestId) s in
            (Ok signature, s1)
        | None =>
            (* catch: reject the request and give the chips back *)
            let s1 := set_cashOutRequests
                        (alter (CashOut.with_status CashOutStatus.rejected) requestId) s in
            let currentBalance := getUserBalances s1 (CashOut.userId request) in
            let s2 := ledger_create
                        (Ledger.mk (CashOut.userId request) Currency.chips amount
                                   (totalChips currentBalance)
                                   (totalChips currentBalance + amount)
                                   TxType.bet_won (Some "cashout_request_refund"%string)
                                   (Some requestId))
                        s1 in
            (Throw (mkAppError WithdrawalFailedRefunded 500), s2)
        end
  end.

(** ** The rake arithmetic at binary64

    The same [rakeStages] and [winnerPayout], instantiated at the number
    type the service computes with. *)
Module Binary64.
(** [0.025] and [0.01] as JavaScript reads them. *)
Definition COMPANY_PRIZE_POOL_RAKE : float := 0x1.999999999999ap-6%float.
Definition onePercent : float := 0x1.47ae147ae147bp-7%float.

Definition rakeStagesF : float → float → Rakes float :=
  rakeStages PrimFloat.mul PrimFloat.sub COMPANY_PRIZE_POOL_RAKE.
Definition winnerPayoutF : float → float → float → float :=
  winnerPayout PrimFloat.mul PrimFloat.div.
End Binary64.

(** ** The running balance of a ledger *)

Definition userLedger (s : Store) (userId : Id) (c : Currency.t) : list Ledger.t :=
  filter (λ tx, Ledger.userId tx = userId ∧ Ledger.currency tx = c) (ledger s).

(** [balanceAfter == balanceBefore + amount] *)
Definition entryBalanced (tx : Ledger.t) : bool :=
  Qeq_bool (Ledger.balanceAfter tx) (Ledger.balanceBefore tx + Ledger.amount tx).

(** Every entry starts from the balance its predecessor left. *)
Fixpoint chained (l : list Ledger.t) : bool :=
  match l with
  | e1 :: ((e2 :: _) as rest) =>
      Qeq_bool (Ledger.balanceBefore e2) (Ledger.balanceAfter e1) && chained rest
  | _ => true
  end.

Definition neverNegative (l : list Ledger.t) : bool :=
  forallb (λ tx, Qle_bool 0 (Ledger.balanceAfter tx)) l.

Definition runningBalanceConsistent (l : list Ledger.t) : bool :=
  forallb entryBalanced l && chained l && neverNegative l.

(** The sum of the signed amounts of a user's entries. *)
Definition signedSum (l : list Ledger.t) : Q := Qsum (Ledger.amount <$> l).

(** The ledger rows that credit a given payout row, and those that refund
    a given bet. *)
Definition creditsOfPayout (s : Store) (payoutId : Id) : list Ledger.t :=
  filter (λ tx, Ledger.referenceType tx = Some "event_payout"%string
                ∧ Ledger.referenceId tx = Some payoutId) (ledger s).

Definition refundsOfBet (s : Store) (betId : Id) : list Ledger.t :=
  filter (λ tx, Ledger.referenceType tx = Some "event_refund"%string
                ∧ Ledger.referenceId tx = Some betId) (ledger s).

(** ** Two simultaneous [placeBet] calls

    A call is split where the source is: the reads and checks before the
    transaction, then the transaction.  A schedule says whose turn it is. *)

Inductive Phase :=
| Waiting
| Checked (currentTotal : Q)
| Placed (betId : Id)
| Rejected (e : AppError).

Definition advance (now : Z) (userId : Id) (input : PlaceBetInput) (ph : Phase) (s : Store)
  : Phase * Store :=
  match ph with
  | Waiting =>
      match placeBet_check now userId input s with
      | Ok currentTotal => (Checked currentTotal, s)
      | Throw e => (Rejected e, s)
      end
  | Checked currentTotal =>
      let '(betId, s') := placeBet_commit userId input currentTotal s in
      (Placed betId, s')
  | Placed _ | Rejected _ => (ph, s)
  end.

Inductive Turn := First | Second.

Record Race := mkRace { first : Phase; second : Phase; shared : Store }.

Definition takeTurn (now : Z) (userId : Id) (in1 in2 : PlaceBetInput) (r : Race) (t : Turn)
  : Race :=
  match t with
  | First => let '(ph, s) := advance now userId in1 (first r) (shared r) in
             mkRace ph (second r) s
  | Second => let '(ph, s) := advance now userId in2 (second r) (shared r) in
              mkRace (first r) ph s
  end.

Definition race (now : Z) (userId : Id) (in1 in2 : PlaceBetInput) (schedule : list Turn)
    (s : Store) : Race :=
  foldl (takeTurn now userId in1 in2) (mkRace Waiting Waiting s) schedule.

Definition placed (ph : Phase) : bool :=
  match ph with Placed _ => true | _ => false end.

(** The six ways to interleave the two phases of two calls. *)
Definition interleavings : list (list Turn) :=
  [ [First; First; Second; Second];
    [First; Second; First; Second];
    [First; Second; Second; First];
    [Second; First; First; Second];
    [Second; First; Second; First];
    [Second; Second; First; First] ].

(** ** Sequences of service calls *)

Inductive Call :=
| CallPlaceBet (now : Z) (userId : Id) (input : PlaceBetInput)
| CallUpdateEvent (eventId : Id) (input : UpdateEventInput)
| CallCancelEvent (eventId : Id)
| CallResolveEvent (eventId : Id) (winningSide : Letter.t) (adminId : Id)
| CallDistributePayouts (eventId adminId : Id)
| CallRefundEvent (eventId : Id)
| CallRequestWithdrawal (chain : Chain) (userId : Id) (input : WithdrawalRequestInput)
| CallProcessWithdrawal (chain : Chain) (requestId adminId : Id).

(** The store a call leaves behind, whether it returns or throws. *)
Definition exec (s : Store) (c : Call) : Store :=
  match c with
  | CallPlaceBet now userId input => (placeBet now userId input s).2
  | CallUpdateEvent eventId input => (updateEvent eventId input s).2
  | CallCancelEvent eventId => (cancelEvent eventId s).2
  | CallResolveEvent eventId winningSide adminId =>
      (resolveEvent eventId winningSide adminId s).2
  | CallDistributePayouts eventId adminId => (distributePayouts eventId adminId s).2
  | CallRefundEvent eventId => (refundEvent eventId s).2
  | CallRequestWithdrawal chain userId input => (requestWithdrawal chain userId input s).2
  | CallProcessWithdrawal chain requestId adminId =>
      (processWithdrawal chain requestId adminId s).2
  end.

Definition execAll (s : Store) (cs : list Call) : Store := foldl exec s cs.

(** ** Scenarios *)

Module Scenario.
Definition alice : Id := 1%positive.
Definition bob : Id := 2%positive.
Definition admin : Id := 9%positive.
Definition coinFlipId : Id := 1%positive.

(** The ledger row a deposit of [a] chips leaves for a user whose total
    was [before] ([WalletService.depositUSDC]). *)
Definition depositRow (u : Id) (before a : Q) : Ledger.t :=
  Ledger.mk u Currency.chips a before (before + a) TxType.deposit None None.

Definition coinFlip : Event.t :=
  Event.mk EventStatus.active None None (1 # 100)
           [Choice.mk Letter.A 0; Choice.mk Letter.B 0].

(** "Coin Flip", rake 1%, before any bet; Alice holds 1000, Bob 500. *)
Definition opened : Store :=
  mkStore {[alice; bob]} {[coinFlipId := coinFlip]} ∅ ∅ ∅
          [depositRow alice 0 1000; depositRow bob 0 500].

(** Alice stakes 1000 on A, Bob 500 on B. *)
Definition staked : Store :=
  execAll opened [CallPlaceBet 0 alice (mkPlaceBet coinFlipId Letter.A 1000);
                  CallPlaceBet 0 bob (mkPlaceBet coinFlipId Letter.B 500)].

(** Bob alone stakes 500 on B: nobody backs A. *)
Definition oneSided : Store :=
  execAll opened [CallPlaceBet 0 bob (mkPlaceBet coinFlipId Letter.B 500)].

(** A user with exactly [a] chips, and an open event. *)
Definition holding (a : Q) : Store :=
  mkStore {[alice]} {[coinFlipId := coinFlip]} ∅ ∅ ∅ [depositRow alice 0 a].

(** A user who won [a] chips. *)
Definition winner (a : Q) : Store :=
  mkStore {[alice]} ∅ ∅ ∅ ∅
          [Ledger.mk alice Currency.chips a 0 (0 + a) TxType.bet_won
                     (Some "event_payout"%string) (Some 1%positive)].

(** A chain on which every transfer fails, and one on which all succeed. *)
Definition offline : Chain := mkChain (λ _, None) (λ _ _, None) (λ _ _, None).
Definition online : Chain :=
  mkChain (λ usd, Some (usd / 100)) (λ _ _, Some "sig"%string) (λ _ _, Some "sig"%string).

Definition sixty : PlaceBetInput := mkPlaceBet coinFlipId Letter.A 60.

(** A store without any user. *)
Definition nobody : Store := mkStore ∅ ∅ ∅ ∅ ∅ [].

(** Coin Flip locked by an administrator, and Coin Flip cancelled. *)
Definition lockedFlip : Store :=
  execAll opened [CallUpdateEvent coinFlipId (mkUpdateEvent None (Some EventStatus.locked))].
Definition cancelledFlip : Store :=
  execAll opened [CallCancelEvent coinFlipId].

Definition forty : WithdrawalRequestInput := mkWithdrawalInput 40 Currency.usdc "wallet".

(** Coin Flip resolved with winner A, before distribution. *)
Definition settled : Store :=
  execAll staked [CallResolveEvent coinFlipId Letter.A admin].
End Scenario.

(** What the specification calls [NotFound]: an error answered with 404. *)
Definition failsNotFound {T} (r : Result T) : Prop :=
  ∃ e, r = Throw e ∧ statusCode e = 404%Z.

Definition zeroBalances : UserBalances := mkBalances 0 0 0 0 0.

(** An event that has been resolved: completed, or completed and paid out. *)
Definition resolved (ev : Event.t) : Prop :=
  Event.status ev = EventStatus.completed ∨ Event.status ev = EventStatus.paid_out.

(** The event a bet row belongs to, by the key of the row. *)
Definition betEvent (s : Store) (betId : Id) : option Id :=
  Bet.eventId <$> eventBets s !! betId.

(** ** Stakes

    The chips staked on one choice of an event: the sum of [amount] over
    every bet row of that event and choice, whatever its status. *)

Definition sumOver (P : Bet.t → Prop) `{∀ b, Decision (P b)} (m : gmap Id Bet.t) : Q :=
  Qsum (Bet.amount <$> filter P (map_to_list m).*2).

Definition stakes (s : Store) (eventId : Id) (l : Letter.t) : Q :=
  sumOver (λ b, Bet.eventId b = eventId ∧ Bet.choiceLetter b = l) (eventBets s).

(** Every pool total is the sum of the stakes placed on its choice. *)
Definition poolsMatchStakes (s : Store) : Prop :=
  ∀ e ev c, events s !! e = Some ev → c ∈ Event.choices ev →
            Choice.totalPool c == stakes s e (Choice.choiceLetter c).

(** What of a bet row is fixed when it is written: everything but the status. *)
Definition betTerms (b : Bet.t) : Id * Id * Letter.t * Q :=
  (Bet.eventId b, Bet.userId b, Bet.choiceLetter b, Bet.amount b).

(** [b'] is the row [b], possibly settled: the terms are those of [b], and
    if [b] was not active any more, nothing at all has changed. *)
Definition settledOnce (b b' : Bet.t) : Prop :=
  betTerms b' = betTerms b ∧ (Bet.status b ≠ BetStatus.active → b' = b).

(** ** A run of withdrawal requests of one user

    The requests are made one after the other; [requestAll] returns the sum
    of the amounts of those that were accepted, and the store they leave. *)
Definition requestAll (userId : Id) (s : Store)
    (requests : list (Chain * WithdrawalRequestInput)) : Q * Store :=
  foldl (λ acc cr,
           match requestWithdrawal cr.1 userId cr.2 acc.2 with
           | (Ok _, s') => (acc.1 + wi_amount cr.2, s')
           | (Throw _, s') => (acc.1, s')
           end)
        (0, s) requests.

(** ** BalanceService.deductChips (balance.service.ts) *)

Module ChipBalanceType.
Inductive t := purchased | won | free.
#[global] Instance eq_dec : EqDecision t.
Proof. solve_decision. Defined.
End ChipBalanceType.

(** The arithmetic of [deductChips], lines 126-148, over any number type. *)
Section DeductionArithmetic.
Context {N : Type} (zero : N) (ltb : N → N → bool) (sub min : N → N → N).

(** One block [if (remaining > 0 && balance > 0) { ... }]: the deductions
    pushed so far and what remains to be deducted. *)
Definition deductFrom (ty : ChipBalanceType.t) (balance : N)
    (acc : list (ChipBalanceType.t * N) * N) : list (ChipBalanceType.t * N) * N :=
  let '(deductions, remaining) := acc in
  if ltb zero remaining && ltb zero balance
  then let deduct := min remaining balance in
       (deductions ++ [(ty, deduct)], sub remaining deduct)
  else acc.

(** Free chips first, then purchased chips, finally won chips. *)
Definition deductSteps (freeChips purchasedChips wonChips amount : N)
  : list (ChipBalanceType.t * N) * N :=
  deductFrom ChipBalanceType.won wonChips
    (deductFrom ChipBalanceType.purchased purchasedChips
       (deductFrom ChipBalanceType.free freeChips ([], amount))).
End DeductionArithmetic.

Definition deductStepsQ : Q → Q → Q → Q → list (ChipBalanceType.t * Q) * Q :=
  deductSteps 0 Qltb Qminus Qmin.

(** The two errors of [deductChips] and the status they are answered with. *)
Inductive DeductError := InsufficientChipBalance | InsufficientAfterDeduction.

Definition deductStatus (e : DeductError) : Z :=
  match e with
  | InsufficientChipBalance => 400
  | InsufficientAfterDeduction => 500
  end.

Record Deduction := mkDeduction {
  deductions : list (ChipBalanceType.t * Q);
  remainingBalances : UserBalances
}.

(** [deductChips] reads the balances and writes nothing: the balances it
    returns as remaining are read from the same ledger again. *)
Definition deductChips (userId : Id) (amount : Q) (s : Store) : DeductError + Deduction :=
  let balances := getUserBalances s userId in
  if Qltb (totalChips balances) amount
  then inl InsufficientChipBalance
  else
    let '(deductions, remaining) :=
      deductStepsQ (freeChips balances) (purchasedChips balances) (wonChips balances)
                   amount in
    if Qltb 0 remaining
    then inl InsufficientAfterDeduction
    else
      let remainingBalances := getUserBalances s userId in
      inr (mkDeduction deductions remainingBalances).

(** The chips a list of deductions takes from one kind of balance. *)
Definition taken (ty : ChipBalanceType.t) (ds : list (ChipBalanceType.t * Q)) : Q :=
  Qsum (snd <$> filter (λ d, d.1 = ty) ds).

(** [deductChips] at binary64: [Math.min], and the total as line 97 of
    [getUserBalances] adds it up. *)
Module Binary64Balance.
Definition min (a b : float) : float := if PrimFloat.ltb b a then b else a.
Definition deductStepsF : float → float → float → float
                          → list (ChipBalanceType.t * float) * float :=
  deductSteps 0%float PrimFloat.ltb PrimFloat.sub min.
Definition totalChipsF (purchasedChips wonChips freeChips : float) : float :=
  PrimFloat.add (PrimFloat.add purchasedChips wonChips) freeChips.
End Binary64Balance.

(** ** utils/uuid.ts

    Strings are lists of characters, a Buffer is a list of bytes. *)

Module Uuid.
(** [buffer.toString('hex')]: two lower-case digits for every byte. *)
Definition hexDigit (n : N) : ascii :=
  nth (N.to_nat n) (list_ascii_of_string "0123456789abcdef") "0"%char.

Definition toHex (buffer : list Byte.byte) : list ascii :=
  flat_map (λ b, [hexDigit (Byte.to_N b / 16); hexDigit (Byte.to_N b mod 16)]) buffer.

(** The value of a hexadecimal digit of either case. *)
Definition unhex (c : ascii) : option N :=
  let n := N_of_ascii c in
  if (48 <=? n)%N && (n <=? 57)%N then Some (n - 48)%N
  else if (97 <=? n)%N && (n <=? 102)%N then Some (n - 87)%N
  else if (65 <=? n)%N && (n <=? 70)%N then Some (n - 55)%N
  else None.

(** [Buffer.from(hex, 'hex')]: decodes pair by pair, stops at the first
    pair that is not hexadecimal and drops a trailing single character. *)
Fixpoint fromHex (hex : list ascii) : list Byte.byte :=
  match hex with
  | c1 :: c2 :: rest =>
      match unhex c1, unhex c2 with
      | Some a, Some b =>
          match Byte.of_N (16 * a + b) with
          | Some x => x :: fromHex rest
          | None => []
          end
      | _, _ => []
      end
  | _ => []
  end.

(** [s.substring(start, stop)] for [start <= stop]. *)
Definition substring (start stop : nat) (s : list ascii) : list ascii :=
  take (stop - start) (drop start s).

(** [parts.join(sep)] *)
Fixpoint join (sep : ascii) (parts : list (list ascii)) : list ascii :=
  match parts with
  | [] => []
  | p :: rest =>
      match rest with
      | [] => p
      | _ => p ++ sep :: join sep rest
      end
  end.

Definition uuidToBuffer (uuid : list ascii) : list Byte.byte :=
  let hex := filter (λ c, c ≠ "-"%char) uuid in
  fromHex hex.

Definition bufferToUuid (buffer : list Byte.byte) : list ascii :=
  let hex := toHex buffer in
  join "-" [substring 0 8 hex; substring 8 12 hex; substring 12 16 hex;
            substring 16 20 hex; substring 20 32 hex].

(** The lower-case form of a character ([A]-[Z] only). *)
Definition lower (c : ascii) : ascii :=
  let n := N_of_ascii c in
  if (65 <=? n)%N && (n <=? 90)%N then ascii_of_N (n + 32) else c.

(** A UUID as [randomUUID] and the validators write it: 8-4-4-4-12
    hexadecimal digits. *)
Definition wellFormed (uuid : list ascii) : Prop :=
  ∃ p1 p2 p3 p4 p5,
    uuid = join "-" [p1; p2; p3; p4; p5]
    ∧ length p1 = 8%nat ∧ length p2 = 4%nat ∧ length p3 = 4%nat ∧ length p4 = 4%nat
    ∧ length p5 = 12%nat
    ∧ Forall (λ c, is_Some (unhex c)) (p1 ++ p2 ++ p3 ++ p4 ++ p5).
End Uuid.

(** ** utils/priceOracle.ts *)

Module PriceOracle.
(** [config.solana.network] *)
Inductive Network := mainnet_beta | devnet | otherNetwork.
#[global] Instance Network_eq_dec : EqDecision Network.
Proof. solve_decision. Defined.

(** What the [try] block meets: the client throws, the feed is missing
    from [data.productPrice], the feed has no price, or it has one. *)
Inductive PythAnswer :=
| ClientThrows
| FeedMissing
| PriceMissing
| Price (price : Q).

(** [None] is a rejected promise. *)
Definition getSOLPrice (network : Network) (answer : PythAnswer) : option Q :=
  let attempt :=
    match answer with
    | Price price => if Qeq_bool price 0 then None else Some price
    | ClientThrows | FeedMissing | PriceMissing => None
    end in
  match attempt with
  | Some price => Some price
  | None => if bool_decide (network = devnet) then Some 100 else None
  end.

Definition solToUSD (network : Network) (answer : PythAnswer) (solAmount : Q) : option Q :=
  match getSOLPrice network answer with
  | Some price => Some (solAmount * price)
  | None => None
  end.

Definition usdToSOL (network : Network) (answer : PythAnswer) (usdAmount : Q) : option Q :=
  match getSOLPrice network answer with
  | Some price => Some (usdAmount / price)
  | None => None
  end.

(** [cachedPrice], the module-level variable. *)
Record Cached := mkCached { c_price : Q; c_timestamp : Z }.

Definition CACHE_DURATION : Z := 30 * 1000.

(** [now] is what [Date.now()] returns; the second component is
    [cachedPrice] after the call. *)
Definition getSOLPriceCached (network : Network) (answer : PythAnswer) (now : Z)
    (cachedPrice : option Cached) : option Q * option Cached :=
  match cachedPrice with
  | Some c =>
      if bool_decide (now - c_timestamp c < CACHE_DURATION)%Z
      then (Some (c_price c), cachedPrice)
      else match getSOLPrice network answer with
           | Some price => (Some price, Some (mkCached price now))
           | None => (None, cachedPrice)
           end
  | None =>
      match getSOLPrice network answer with
      | Some price => (Some price, Some (mkCached price now))
      | None => (None, cachedPrice)
      end
  end.

(** The collaborators of [WalletService] with this oracle behind
    [usdToSOL]. *)
Definition chain (network : Network) (answer : PythAnswer)
    (sendSOL sendUSDC : string → Q → option string) : Chain :=
  mkChain (usdToSOL network answer) sendSOL sendUSDC.
End PriceOracle.

(** ** EventService.createEvent (event.service.ts) *)

#[global] Instance byte_eq_dec : EqDecision Byte.byte := Strings.Byte.byte_eq_dec.

(** The fields of [CreateEventInput] that reach a modelled column; a choice
    is given by its letter. *)
Record CreateEventInput := mkCreateEvent {
  ce_categoryId : list ascii;
  ce_choices : list Letter.t;
  ce_lockTime : Z;
  ce_eventRake : Q
}.

(** The one error of [createEvent], answered with status 404. *)
Inductive CreateEventError := CategoryNotFound.

(** [categories] are the keys of the category table.  The key of the new
    event is the column value [generateUuid()] gives, a key not in use. *)
Definition createEvent (categories : list (list Byte.byte)) (adminId : Id)
    (input : CreateEventInput) (s : Store)
  : (CreateEventError + Id * Event.t) * Store :=
  let categoryIdBuffer := Uuid.uuidToBuffer (ce_categoryId input) in
  if bool_decide (categoryIdBuffer ∈ categories)
  then
    let eventId := fresh (dom (events s)) in
    let newEvent :=
      Event.mk EventStatus.active (Some (ce_lockTime input)) None (ce_eventRake input)
               ((λ letter, Choice.mk letter 0) <$> ce_choices input) in
    (inr (eventId, newEvent), set_events (insert eventId newEvent) s)
  else (inl CategoryNotFound, s).

(** Every bet row refers to an event row (the foreign key of [event_bets]). *)
Definition betsReferToEvents (s : Store) : Prop :=
  ∀ k b, eventBets s !! k = Some b → is_Some (events s !! Bet.eventId b).

(** ** BetService.getEventStats (bet.service.ts) *)

(** [x.toFixed(2)], as the number of hundredths it prints: the integer [n]
    with [n / 100] nearest to [x], the one further from zero when two are
    as near (of a negative number the sign is printed and the rest is that
    of [-x]). *)
Definition toFixed2 (x : Q) : Z :=
  if Qltb x 0 then (- Qfloor (- x * 100 + (1 # 2)))%Z else Qfloor (x * 100 + (1 # 2)).

(** The figures of one choice.  [cs_pool] is the number that
    [pool.toString()] renders, [cs_percentage] the hundredths that
    [percentage.toFixed(2)] prints. *)
Record ChoiceStats := mkChoiceStats {
  cs_letter : Letter.t;
  cs_pool : Q;
  cs_percentage : Z;
  cs_betsCount : nat
}.

Record EventStats := mkEventStats {
  es_totalPool : Q;
  es_totalBets : nat;
  es_choices : list ChoiceStats
}.

Definition getEventStats (eventId : Id) (s : Store) : Result EventStats :=
  match events s !! eventId with
  | None => Throw (mkAppError EventNotFound 404)
  | Some event =>
      let bets := activeBetsOf s eventId in
      let totalPool := poolTotal (Event.choices event) in
      let choiceStats :=
        (λ choice,
           let pool := Choice.totalPool choice in
           let percentage := if Qltb 0 totalPool then (pool / totalPool) * 100 else 0 in
           let betsCount :=
             length (filter (λ kb : Id * Bet.t,
                               Bet.choiceLetter kb.2 = Choice.choiceLetter choice) bets) in
           mkChoiceStats (Choice.choiceLetter choice) pool (toFixed2 percentage) betsCount)
        <$> Event.choices event in
      Ok (mkEventStats totalPool (length bets) choiceStats)
  end.

(** ** WalletService.depositUSDC and depositSOL (wallet.service.ts)

    The replay check of the deposits is the one query that reads the
    [description] column of the ledger, and it reads it on rows of type
    [deposit] only.  [ws_deposits] holds that column: for every ledger row
    of type [deposit], in creation order, the user and the description. *)

Record DepositRow := mkDepositRow { dr_userId : Id; dr_description : string }.

Record WalletState := mkWalletState { ws_store : Store; ws_deposits : list DepositRow }.

(** What the deposits depend on outside the store: how the database
    decides [description LIKE '%needle%'] (the schema's collation,
    [utf8mb4_unicode_ci], ignores case), [verifyTransaction] of
    utils/solana.ts ([None] when it throws), the price oracle, and the
    rendering of the two numbers in the description of a SOL deposit. *)
Record DepositEnv := mkDepositEnv {
  matches : string → string → bool;
  verifyTransaction : string → option bool;
  network : PriceOracle.Network;
  pyth : PriceOracle.PythAnswer;
  renderSOL : Q → Q → string
}.

Inductive DepositError :=
| TransactionAlreadyProcessed
| InvalidOrFailedTransaction
| DepositUncaughtException.

Definition depositStatus (e : DepositError) : Z :=
  match e with
  | TransactionAlreadyProcessed | InvalidOrFailedTransaction => 400
  | DepositUncaughtException => 500
  end.

Record DepositReceipt := mkDepositReceipt { dp_chips : Q; dp_balances : UserBalances }.

(** [prisma.ledger.findFirst({ where: { userId, description: { contains:
    transactionSignature }, transactionType: 'deposit' } })] finds a row. *)
Definition existingDeposit (env : DepositEnv) (userId : Id) (transactionSignature : string)
    (w : WalletState) : bool :=
  existsb (λ r, bool_decide (dr_userId r = userId)
                && matches env transactionSignature (dr_description r))
          (ws_deposits w).

Definition depositUSDC (env : DepositEnv) (userId : Id) (transactionSignature : string)
    (amount : Q) (w : WalletState) : (DepositError + DepositReceipt) * WalletState :=
  if existingDeposit env userId transactionSignature w
  then (inl TransactionAlreadyProcessed, w)
  else
    match verifyTransaction env transactionSignature with
    | None => (inl DepositUncaughtException, w)
    | Some false => (inl InvalidOrFailedTransaction, w)
    | Some true =>
        let currentBalance := getUserBalances (ws_store w) userId in
        let s1 := ledger_create
                    (Ledger.mk userId Currency.chips amount
                               (totalChips currentBalance)
                               (totalChips currentBalance + amount)
                               TxType.deposit None None)
                    (ws_store w) in
        let description := String.append "USDC deposit - " transactionSignature in
        let newBalance := getUserBalances s1 userId in
        (inr (mkDepositReceipt amount newBalance),
         mkWalletState s1 (ws_deposits w ++ [mkDepositRow userId description]))
    end.

Definition depositSOL (env : DepositEnv) (userId : Id) (transactionSignature : string)
    (amountSOL : Q) (w : WalletState) : (DepositError + DepositReceipt) * WalletState :=
  if existingDeposit env userId transactionSignature w
  then (inl TransactionAlreadyProcessed, w)
  else
    match verifyTransaction env transactionSignature with
    | None => (inl DepositUncaughtException, w)
    | Some false => (inl InvalidOrFailedTransaction, w)
    | Some true =>
        match PriceOracle.solToUSD (network env) (pyth env) amountSOL with
        | None => (inl DepositUncaughtException, w)
        | Some usdValue =>
            (* Math.floor(usdValue) *)
            let chips := inject_Z (Qfloor usdValue) in
            let currentBalance := getUserBalances (ws_store w) userId in
            let s1 := ledger_create
                        (Ledger.mk userId Currency.chips chips
                                   (totalChips currentBalance)
                                   (totalChips currentBalance + chips)
                                   TxType.deposit None None)
                        (ws_store w) in
            let description :=
              String.append "SOL deposit - "
                (String.append (renderSOL env amountSOL usdValue)
                   (String.append " - " transactionSignature)) in
            let newBalance := getUserBalances s1 userId in
            (inr (mkDepositReceipt chips newBalance),
             mkWalletState s1 (ws_deposits w ++ [mkDepositRow userId description]))
        end
    end.

(** The purchased bucket of the ledger scan, before the clamp at zero. *)
Definition purchasedScan (s : Store) (u : Id) : Q :=
  b_purchased (foldl classify (mkBuckets 0 0 0 0) (chipTransactions s u)).

(** A case-sensitive [contains]: the needle occurs in the haystack. *)
Fixpoint contains (needle hay : string) : bool :=
  String.prefix needle hay
  || match hay with
     | EmptyString => false
     | String _ rest => contains needle rest
     end.

(** ** BalanceService.canClaimFreeChips and claimFreeChips (balance.service.ts)

    The cooldown query reads [description] and [created_at] of the chip
    rows of type [referral_reward].  [fc_rewards] holds these two columns
    for every such ledger row, in creation order.  [created_at] is the
    column default, the clock of the database; [Date.now()] is the clock
    of the service. *)

Record RewardRow := mkRewardRow {
  rw_userId : Id;
  rw_description : string;
  rw_createdAt : Z
}.

Record ClaimState := mkClaimState { fc_store : Store; fc_rewards : list RewardRow }.

Definition FREE_CHIPS_DAILY_AMOUNT : Q := 1.
Definition FREE_CHIPS_COOLDOWN_HOURS : Z := 24.

(** The [created_at] of the rows that [findFirst] can return. *)
Definition claimTimes (like : string → string → bool) (userId : Id) (c : ClaimState)
  : list Z :=
  rw_createdAt <$>
    filter (λ r, rw_userId r = userId ∧ like "Daily free chips" (rw_description r) = true)
           (fc_rewards c).

(** [orderBy: { createdAt: 'desc' }]: the latest of them. *)
Definition lastClaim (like : string → string → bool) (userId : Id) (c : ClaimState)
  : option Z :=
  match claimTimes like userId c with
  | [] => None
  | t :: ts => Some (foldl Z.max t ts)
  end.

Record ClaimCheck := mkClaimCheck {
  canClaim : bool;
  lastClaimTime : option Z;
  nextClaimTime : option Z
}.

Definition canClaimFreeChips (like : string → string → bool) (now : Z) (userId : Id)
    (c : ClaimState) : ClaimCheck :=
  match lastClaim like userId c with
  | None => mkClaimCheck true None None
  | Some createdAt =>
      let cooldownMs := (FREE_CHIPS_COOLDOWN_HOURS * 60 * 60 * 1000)%Z in
      let timeSinceLastClaim := (now - createdAt)%Z in
      let canClaim := bool_decide (cooldownMs ≤ timeSinceLastClaim)%Z in
      let nextClaimTime := (createdAt + cooldownMs)%Z in
      mkClaimCheck canClaim (Some createdAt) (Some nextClaimTime)
  end.

(** The one error of [claimFreeChips], answered with status 400; it names
    the next claim time. *)
Inductive ClaimError := ClaimAgainAt (nextClaimTime : option Z).

(** [now] is [Date.now()] in the check, [createdAt] the time stamp the
    database gives the new row. *)
Definition claimFreeChips (like : string → string → bool) (now createdAt : Z) (userId : Id)
    (c : ClaimState) : (ClaimError + Q * UserBalances) * ClaimState :=
  let check := canClaimFreeChips like now userId c in
  if negb (canClaim check)
  then (inl (ClaimAgainAt (nextClaimTime check)), c)
  else
    let currentBalance := getUserBalances (fc_store c) userId in
    let s1 := ledger_create
                (Ledger.mk userId Currency.chips FREE_CHIPS_DAILY_AMOUNT
                           (totalChips currentBalance)
                           (totalChips currentBalance + FREE_CHIPS_DAILY_AMOUNT)
                           TxType.referral_reward None None)
                (fc_store c) in
    let newBalance := getUserBalances s1 userId in
    (inr (FREE_CHIPS_DAILY_AMOUNT, newBalance),
     mkClaimState s1 (fc_rewards c
                      ++ [mkRewardRow userId "Daily free chips claim" createdAt])).

(** The free bucket of the ledger scan, before the clamp at zero. *)
Definition freeScan (s : Store) (u : Id) : Q :=
  b_free (foldl classify (mkBuckets 0 0 0 0) (chipTransactions s u)).

(** ** The ledger scan over any number type

    [getUserBalances], lines 24-97, as a function of what it reads: the
    type and the amount of the user's chip rows in creation order, and the
    sum of the user's active bets.  The arithmetic is a parameter, so that
    the same code can be read at exact rationals and at binary64, the
    number type of the service. *)
Section BucketArithmetic.
Context {N : Type} (zero : N) (add : N → N → N) (ltb : N → N → bool) (abs : N → N)
        (max : N → N → N).

Record BucketsOf := mkBucketsOf {
  bo_purchased : N;
  bo_won : N;
  bo_free : N;
  bo_locked : N
}.

(** One iteration of the [switch (tx.transactionType)] loop. *)
Definition classifyOf (acc : BucketsOf) (tx : TxType.t * N) : BucketsOf :=
  let amount := tx.2 in
  match tx.1 with
  | TxType.deposit | TxType.chips_buy =>
      mkBucketsOf (add (bo_purchased acc) amount) (bo_won acc) (bo_free acc) (bo_locked acc)
  | TxType.bet_won | TxType.prize_won =>
      mkBucketsOf (bo_purchased acc) (add (bo_won acc) amount) (bo_free acc) (bo_locked acc)
  | TxType.referral_reward =>
      mkBucketsOf (bo_purchased acc) (bo_won acc) (add (bo_free acc) amount) (bo_locked acc)
  | TxType.bet_placed =>
      if ltb amount zero
      then mkBucketsOf (bo_purchased acc) (bo_won acc) (bo_free acc)
                       (add (bo_locked acc) (abs amount))
      else acc
  | TxType.event_create | TxType.event_create_ai | TxType.private_event => acc
  | TxType.cashout =>
      if ltb amount zero
      then mkBucketsOf (bo_purchased acc) (add (bo_won acc) amount) (bo_free acc)
                       (bo_locked acc)
      else acc
  | TxType.ai_insight_buy => acc
  end.

Record BalancesOf := mkBalancesOf {
  bal_purchased : N;
  bal_won : N;
  bal_free : N;
  bal_locked : N;
  bal_total : N
}.

Definition balancesOf (transactions : list (TxType.t * N)) (activeBets : N) : BalancesOf :=
  let acc := foldl classifyOf (mkBucketsOf zero zero zero zero) transactions in
  let lockedChips := activeBets in
  let purchasedChips := max zero (bo_purchased acc) in
  let wonChips := max zero (bo_won acc) in
  let freeChips := max zero (bo_free acc) in
  let lockedChips := max zero lockedChips in
  let totalChips := add (add purchasedChips wonChips) freeChips in
  mkBalancesOf purchasedChips wonChips freeChips lockedChips totalChips.
End BucketArithmetic.
Arguments BucketsOf N : clear implicits.
Arguments BalancesOf N : clear implicits.

(** What the scan reads of a ledger row. *)
Definition scanned (tx : Ledger.t) : TxType.t * Q :=
  (Ledger.transactionType tx, Ledger.amount tx).

Definition balancesQ : list (TxType.t * Q) → Q → BalancesOf Q :=
  balancesOf 0 Qplus Qltb Qabs Qmax.

(** ** The arithmetic at binary64 *)

Module Binary64Ledger.
(** [Math.max(a, b)] on numbers. *)
Definition max (a b : float) : float := if PrimFloat.ltb a b then b else a.

Definition balancesF : list (TxType.t * float) → float → BalancesOf float :=
  balancesOf 0%float PrimFloat.add PrimFloat.ltb PrimFloat.abs max.

(** 3.9 and 1.3 as JavaScript reads them. *)
Definition won_3_9 : float := 0x1.f333333333333p+1%float.
Definition amount_1_3 : float := 0x1.4cccccccccccdp+0%float.

(** The real number a finite binary64 number stands for. *)
Definition exact (f : float) : option Q :=
  match FloatOps.Prim2SF f with
  | SpecFloat.S754_zero _ => Some 0
  | SpecFloat.S754_finite negative m e =>
      Some ((if negative then - (1) else 1) * (Z.pos m # 1) * Qpower 2 e)
  | SpecFloat.S754_infinity _ | SpecFloat.S754_nan => None
  end.
End Binary64Ledger.

(** The longest prefix of hexadecimal digits of a string. *)
Fixpoint hexPrefix (s : list ascii) : list ascii :=
  match s with
  | c :: rest =>
      match Uuid.unhex c with
      | Some _ => c :: hexPrefix rest
      | None => []
      end
  | [] => []
  end.

(** * Properties *)

Arguments getUserBalances : simpl never.
Arguments totalChips : simpl never.
Arguments wonChips : simpl never.

(** ** Comparisons and sums *)

Lemma Qltb_lt (x y : Q) : Qltb x y = true ↔ x < y.
Proof.
  unfold Qltb. rewrite negb_true_iff. split.
  - intros Hb. apply Qnot_le_lt. intros Hle.
    apply Qle_bool_iff in Hle. congruence.
  - intros Hlt. destruct (Qle_bool y x) eqn:Hb; [|done].
    apply Qle_bool_iff in Hb. lra.
Qed.

Lemma Qltb_ge (x y : Q) : Qltb x y = false ↔ y <= x.
Proof.
  unfold Qltb. rewrite negb_false_iff. apply Qle_bool_iff.
Qed.

Lemma Qmax_0_pos (x : Q) : 0 < Qmax 0 x → Qmax 0 x == x.
Proof.
  intros Hpos. destruct (Qlt_le_dec 0 x) as [Hx|Hx].
  - apply Q.max_r. lra.
  - rewrite Q.max_l in Hpos by done. lra.
Qed.

(** ** Frame lemmas: which tables a write touches *)

Lemma foldl_snoc {X Y} (f : X → Y → X) (x : X) (l : list Y) (y : Y) :
  foldl f x (l ++ [y]) = f (foldl f x l) y.
Proof. by rewrite foldl_app. Qed.

Lemma chipTransactions_snoc (s : Store) (tx : Ledger.t) (u : Id) :
  chipTransactions (ledger_create tx s) u =
  chipTransactions s u ++
    (if decide (Ledger.userId tx = u ∧ Ledger.currency tx = Currency.chips) then [tx] else []).
Proof.
  unfold chipTransactions, ledger_create; simpl.
  by rewrite filter_app.
Qed.

(** ** Balance projector *)

Lemma chipTransactions_none (s : Store) (u : Id) :
  (∀ tx, tx ∈ ledger s → Ledger.userId tx ≠ u) → chipTransactions s u = [].
Proof.
  intros Hnone. unfold chipTransactions.
  induction (ledger s) as [|tx l IH]; [done|].
  rewrite filter_cons. destruct (decide _) as [[Hu _]|_].
  - exfalso. eapply Hnone; [left|done].
  - apply IH. intros tx' Hin. apply Hnone. by right.
Qed.

Lemma activeBetsSum_none (s : Store) (u : Id) :
  (∀ k b, eventBets s !! k = Some b → Bet.userId b = u → Bet.status b ≠ BetStatus.active) →
  activeBetsSum s u = 0.
Proof.
  intros Hnone. unfold activeBetsSum.
  assert (Hall : ∀ kb, kb ∈ map_to_list (eventBets s) →
                       ¬ (Bet.userId kb.2 = u ∧ Bet.status kb.2 = BetStatus.active)).
  { intros [k b] Hin [Hu Hst]. apply elem_of_map_to_list in Hin. by eapply Hnone. }
  induction (map_to_list (eventBets s)) as [|kb l IH]; [done|].
  rewrite fmap_cons, filter_cons. destruct (decide _) as [Hyes|_].
  - exfalso. eapply Hall; [left|done].
  - apply IH. intros kb' Hin. apply Hall. by right.
Qed.

(** C9, as stated, fails: for a user id that is in no [users] row the
    balance projector does not fail with NotFound, it answers with zero
    balances. *)
Lemma getUserBalances_unknown_user_no_NotFound :
  ¬ (Scenario.alice ∉ users Scenario.nobody
     ↔ failsNotFound (getUserBalances_outcome Scenario.nobody Scenario.alice)).
Proof.
  intros [Hfails _].
  destruct Hfails as (e & Hthrow & _); [set_solver|].
  discriminate Hthrow.
Qed.

(** C9, amended: [getUserBalances] never fails, whether or not the user
    exists (so it fails with NotFound only if the user does not exist,
    vacuously); and for every user id with no ledger entry and no active
    bet it returns purchased = won = free = locked = total = 0. *)
Theorem getUserBalances_never_fails_zero_when_empty (s : Store) (u : Id) :
  getUserBalances_outcome s u = Ok (getUserBalances s u)
  ∧ ¬ failsNotFound (getUserBalances_outcome s u)
  ∧ ((∀ tx, tx ∈ ledger s → Ledger.userId tx ≠ u) →
     (∀ k b, eventBets s !! k = Some b → Bet.userId b = u →
             Bet.status b ≠ BetStatus.active) →
     getUserBalances s u = zeroBalances).
Proof.
  split; [done|]. split.
  - intros (e & Hthrow & _). discriminate Hthrow.
  - intros Hledger Hbets. unfold getUserBalances.
    rewrite (chipTransactions_none s u Hledger), (activeBetsSum_none s u Hbets).
    reflexivity.
Qed.

Lemma getUserBalances_never_fails_zero_when_empty_witness :
  getUserBalances (Scenario.holding 7) Scenario.bob = zeroBalances.
Proof.
  apply (getUserBalances_never_fails_zero_when_empty (Scenario.holding 7) Scenario.bob).
  - intros tx Hin. apply list_elem_of_singleton in Hin. subst tx. simpl. discriminate.
  - intros k b Hlook. simpl in Hlook. rewrite lookup_empty in Hlook. discriminate.
Defined.

(** ** Wager engine *)

Lemma placeBet_check_insufficient (now : Z) (s : Store) (u : Id) (input : PlaceBetInput) :
  totalChips (getUserBalances s u) < pb_amount input →
  ∃ e, placeBet_check now u input s = Throw e
       ∧ ((∃ event, events s !! pb_eventId input = Some event
                    ∧ Event.status event = EventStatus.active
                    ∧ (∀ t, Event.lockTime event = Some t → (now < t)%Z)
                    ∧ is_Some (findChoice (pb_choiceLetter input) (Event.choices event))) →
          e = mkAppError (InsufficientBalance (totalChips (getUserBalances s u))) 400).
Proof.
  intros Hlt. apply Qltb_lt in Hlt. unfold placeBet_check. cbv zeta.
  destruct (events s !! pb_eventId input) as [event|] eqn:Hev.
  2:{ eexists; split; [done|]. intros (ev & Hsome & _). discriminate. }
  destruct (bool_decide (Event.status event = EventStatus.active)) eqn:Hact; simpl.
  2:{ eexists; split; [done|]. intros (ev & Hsome & Hst & _).
      injection Hsome as <-. apply bool_decide_eq_false in Hact. done. }
  destruct (Event.lockTime event) as [t|] eqn:Hlock.
  - destruct (bool_decide (t ≤ now)%Z) eqn:Hle.
    { eexists; split; [done|]. intros (ev & Hsome & _ & Hopen & _).
      injection Hsome as <-. apply bool_decide_eq_true in Hle.
      specialize (Hopen t Hlock). lia. }
    destruct (findChoice _ _) eqn:Hch.
    + rewrite Hlt. eexists; split; done.
    + eexists; split; [done|]. intros (ev & Hsome & _ & _ & Hc).
      injection Hsome as <-. rewrite Hch in Hc. by destruct Hc.
  - destruct (findChoice _ _) eqn:Hch.
    + rewrite Hlt. eexists; split; done.
    + eexists; split; [done|]. intros (ev & Hsome & _ & _ & Hc).
      injection Hsome as <-. rewrite Hch in Hc. by destruct Hc.
Qed.

(** C8: whenever the user's spendable balance ([totalChips]) is less than
    the bet amount, [placeBet] fails and leaves the store as it was (no bet
    row, no ledger entry, no pool increment); when the bet is otherwise
    acceptable (the event exists, is active and unlocked, the choice is one
    of its choices) the failure is the insufficient-balance error, which
    carries the available [totalChips].  A user holding 5 chips who bets 10
    is told that 5 are available. *)
Theorem placeBet_insufficient_funds (now : Z) (s : Store) (u : Id) (input : PlaceBetInput) :
  totalChips (getUserBalances s u) < pb_amount input →
  (placeBet now u input s).2 = s
  ∧ isOk (placeBet now u input s).1 = false
  ∧ ((∃ event, events s !! pb_eventId input = Some event
               ∧ Event.status event = EventStatus.active
               ∧ (∀ t, Event.lockTime event = Some t → (now < t)%Z)
               ∧ is_Some (findChoice (pb_choiceLetter input) (Event.choices event))) →
     (placeBet now u input s).1 =
       Throw (mkAppError (InsufficientBalance (totalChips (getUserBalances s u))) 400))
  ∧ placeBet 0 Scenario.alice (mkPlaceBet Scenario.coinFlipId Letter.A 10) (Scenario.holding 5)
    = (Throw (mkAppError (InsufficientBalance 5) 400), Scenario.holding 5).
Proof.
  intros Hlt.
  destruct (placeBet_check_insufficient now s u input Hlt) as (e & Hthrow & Hwhich).
  unfold placeBet. rewrite Hthrow. simpl.
  repeat split; try done.
  intros Hvalid. by rewrite (Hwhich Hvalid).
Qed.

Lemma placeBet_insufficient_funds_witness :
  (placeBet 0 Scenario.alice (mkPlaceBet Scenario.coinFlipId Letter.A 10)
            (Scenario.holding 5)).2 = Scenario.holding 5
  ∧ (placeBet 0 Scenario.alice (mkPlaceBet Scenario.coinFlipId Letter.A 10)
              (Scenario.holding 5)).1 = Throw (mkAppError (InsufficientBalance 5) 400).
Proof.
  assert (Hlt : totalChips (getUserBalances (Scenario.holding 5) Scenario.alice)
                < pb_amount (mkPlaceBet Scenario.coinFlipId Letter.A 10))
    by (vm_compute; reflexivity).
  destruct (placeBet_insufficient_funds 0 (Scenario.holding 5) Scenario.alice
              (mkPlaceBet Scenario.coinFlipId Letter.A 10) Hlt) as (Hs & _ & Hmsg & _).
  split; [exact Hs|].
  rewrite Hmsg; [reflexivity|].
  exists Scenario.coinFlip. repeat split; done.
Defined.

(** ** Settlement: rake and pari-mutuel payouts *)

Lemma foldl_Qplus_acc (acc : Q) (l : list Q) :
  foldl Qplus acc l == acc + Qsum l.
Proof.
  unfold Qsum. revert acc. induction l as [|x l IH]; intros acc; simpl.
  - ring.
  - rewrite (IH (acc + x)), (IH (0 + x)). ring.
Qed.

Lemma Qsum_cons (x : Q) (l : list Q) : Qsum (x :: l) == x + Qsum l.
Proof.
  unfold Qsum at 1. simpl. rewrite foldl_Qplus_acc. ring.
Qed.

Lemma totalPaid_acc (D W acc : Q) (l : list (Id * Bet.t)) :
  ¬ W == 0 →
  foldl (λ sum p, sum + pi_payout p) acc (payoutItem D W <$> l)
  == acc + D * (Qsum (Bet.amount <$> l.*2) / W).
Proof.
  intros HW. revert acc. induction l as [|kb l IH]; intros acc.
  - simpl. unfold Qsum; simpl. field. exact HW.
  - rewrite !fmap_cons. simpl foldl. rewrite IH, Qsum_cons.
    unfold payoutItem, winnerPayoutQ, winnerPayout; simpl. field. exact HW.
Qed.

Lemma Qsum_payouts (D W : Q) (l : list (Id * Bet.t)) :
  ¬ W == 0 →
  Qsum (pi_payout <$> (payoutItem D W <$> l)) == D * (Qsum (Bet.amount <$> l.*2) / W).
Proof.
  intros HW. induction l as [|kb l IH].
  - unfold Qsum; simpl. field. exact HW.
  - rewrite !fmap_cons, !Qsum_cons, IH.
    unfold payoutItem, winnerPayoutQ, winnerPayout; simpl. field. exact HW.
Qed.

(** The rake stages and the identity that ties them to the total pool. *)
Lemma rakeStagesQ_spec (T rake : Q) :
  let rk := rakeStagesQ T rake in
  r_eventRakeAmount rk == T * rake
  ∧ r_poolAfterEventRake rk == T - r_eventRakeAmount rk
  ∧ r_prizePoolRakeAmount rk == (T - r_eventRakeAmount rk) * 0.025
  ∧ r_distributionPool rk == T - r_eventRakeAmount rk - r_prizePoolRakeAmount rk
  ∧ r_eventRakeAmount rk + r_prizePoolRakeAmount rk + r_distributionPool rk == T.
Proof.
  unfold rakeStagesQ, rakeStages, COMPANY_PRIZE_POOL_RAKE; simpl.
  repeat split; try reflexivity; ring.
Qed.

Lemma calculatePayouts_winners (s : Store) (e : Id) (w : Letter.t)
    (event : Event.t) (choice : Choice.t) :
  events s !! e = Some event →
  findChoice w (Event.choices event) = Some choice →
  0 < Choice.totalPool choice →
  let W := Choice.totalPool choice in
  let rk := rakeStagesQ (poolTotal (Event.choices event)) (Event.creatorCommission event) in
  let winners := filter (λ kb, Bet.choiceLetter kb.2 = w) (activeBetsOf s e) in
  ∃ calc, calculatePayouts e w s = Ok calc
    ∧ eventRakeAmount calc = Some (r_eventRakeAmount rk)
    ∧ prizePoolRake calc = r_prizePoolRakeAmount rk
    ∧ refunds calc = []
    ∧ payouts calc = payoutItem (r_distributionPool rk) W <$> winners
    ∧ Forall (λ p, pi_payout p == r_distributionPool rk * (pi_betAmount p / W)) (payouts calc)
    ∧ (Qsum (Bet.amount <$> winners.*2) == W →
       totalPaid calc == r_distributionPool rk
       ∧ Qsum (pi_payout <$> payouts calc) == r_distributionPool rk).
Proof.
  intros Hev Hch Hpos W rk winners.
  assert (HW : ¬ W == 0) by (subst W; lra).
  unfold calculatePayouts. rewrite Hev, Hch. cbv zeta.
  destruct (Qeq_bool (Choice.totalPool choice) 0) eqn:Hz.
  { apply Qeq_bool_iff in Hz. done. }
  eexists. split; [reflexivity|]. simpl.
  fold rk winners W.
  split; [reflexivity|]. split; [reflexivity|]. split; [reflexivity|].
  split; [reflexivity|]. split.
  - apply Forall_fmap, Forall_forall. intros kb _. simpl. reflexivity.
  - intros Hsum. split.
    + rewrite totalPaid_acc by exact HW.
      rewrite Hsum. clearbody W rk. field. exact HW.
    + rewrite Qsum_payouts by exact HW.
      rewrite Hsum. clearbody W rk. field. exact HW.
Qed.

Lemma resolveEvent_commits (s : Store) (e : Id) (w : Letter.t) (adminId : Id)
    (event : Event.t) (calc : PayoutCalculation) :
  events s !! e = Some event →
  Event.status event = EventStatus.active ∨ Event.status event = EventStatus.locked →
  calculatePayouts e w s = Ok calc →
  ∃ s', resolveEvent e w adminId s =
          (Ok (mkResolveSummary (length (payouts calc)) (totalPaid calc)
                                (eventRakeAmount calc) (prizePoolRake calc)), s').
Proof.
  intros Hev Hst Hcalc. unfold resolveEvent. rewrite Hev, Hcalc.
  destruct Hst as [-> | ->]; simpl; eexists; reflexivity.
Qed.

(** C2, counterexample: in binary64, the number type [calculatePayouts]
    computes with, the three parts of a total pool of 7 at an event rake of
    1% are 0.07, 0.17325000000000002 and 6.756749999999999.  Added in the
    order of the claim they give 6.999999999999999, and the real numbers
    they stand for add up to less than 7: the parts do not add up to the
    total pool exactly. *)
Lemma rakes_of_seven_do_not_add_up :
  let rk := Binary64.rakeStagesF 7%float Binary64.onePercent in
  rk = mkRakes 0x1.1eb851eb851ecp-4%float 0x1.bb851eb851eb8p+2%float
               0x1.62d0e56041894p-3%float 0x1.b06e978d4fdf3p+2%float
  ∧ PrimFloat.add (PrimFloat.add (r_eventRakeAmount rk) (r_prizePoolRakeAmount rk))
                  (r_distributionPool rk)
    = 0x1.bffffffffffffp+2%float
  ∧ PrimFloat.eqb (PrimFloat.add (PrimFloat.add (r_eventRakeAmount rk)
                                                (r_prizePoolRakeAmount rk))
                                 (r_distributionPool rk))
                  7%float = false
  ∧ match Binary64Ledger.exact (r_eventRakeAmount rk),
          Binary64Ledger.exact (r_prizePoolRakeAmount rk),
          Binary64Ledger.exact (r_distributionPool rk) with
    | Some a, Some b, Some c => a + b + c < 7
    | _, _, _ => False
    end.
Proof. cbv zeta. repeat split; vm_compute; reflexivity. Qed.

(** C2, amended: for an event whose winning pool is positive, the event
    rake is [totalPool * rake], the prize-pool rake is 2.5% of what is left
    and the distribution pool is what is left after both, each computed by
    that one operation in whatever number type; in exact arithmetic the
    three add up to the total pool.  There is one payout per active winning
    bet, of [distributionPool * (bet.amount / winningPool)], no refund, and
    in exact arithmetic the payouts add up to the distribution pool when the
    winning pool is the sum of the active winning stakes; [resolveEvent]
    reports these figures.
    On Coin Flip (rake 1%, 1000 on A, 500 on B, A wins): total pool 1500,
    event rake 15, pool after event rake 1485, prize-pool rake 37.125,
    distribution pool 1447.875, one pending payout of 1447.875 for the
    bettor on A, whose bet is won, and the bet on B is lost, without a
    payout; these figures are the same in binary64, without any rounding. *)
Theorem resolve_pari_mutuel (s : Store) (e : Id) (w : Letter.t) (adminId : Id)
    (event : Event.t) (choice : Choice.t) :
  events s !! e = Some event →
  Event.status event = EventStatus.active ∨ Event.status event = EventStatus.locked →
  findChoice w (Event.choices event) = Some choice →
  0 < Choice.totalPool choice →
  let totalPool := poolTotal (Event.choices event) in
  let winningPool := Choice.totalPool choice in
  let rk := rakeStagesQ totalPool (Event.creatorCommission event) in
  let winners := filter (λ kb, Bet.choiceLetter kb.2 = w) (activeBetsOf s e) in
  (* the two rake stages and conservation *)
  (r_eventRakeAmount rk == totalPool * Event.creatorCommission event
   ∧ r_poolAfterEventRake rk == totalPool - r_eventRakeAmount rk
   ∧ r_prizePoolRakeAmount rk == (totalPool - r_eventRakeAmount rk) * 0.025
   ∧ r_distributionPool rk == totalPool - r_eventRakeAmount rk - r_prizePoolRakeAmount rk
   ∧ r_eventRakeAmount rk + r_prizePoolRakeAmount rk + r_distributionPool rk == totalPool)
  (* the payouts *)
  ∧ (∃ calc s',
       calculatePayouts e w s = Ok calc
       ∧ resolveEvent e w adminId s =
           (Ok (mkResolveSummary (length winners) (totalPaid calc)
                                 (Some (r_eventRakeAmount rk)) (r_prizePoolRakeAmount rk)), s')
       ∧ refunds calc = []
       ∧ payouts calc = payoutItem (r_distributionPool rk) winningPool <$> winners
       ∧ Forall (λ p, pi_payout p == r_distributionPool rk * (pi_betAmount p / winningPool))
                (payouts calc)
       ∧ (Qsum (Bet.amount <$> winners.*2) == winningPool →
          totalPaid calc == r_distributionPool rk
          ∧ Qsum (pi_payout <$> payouts calc) == r_distributionPool rk))
  (* Coin Flip *)
  ∧ (let before := Scenario.staked in
     let after := (resolveEvent Scenario.coinFlipId Letter.A Scenario.admin before).2 in
     let rk := rakeStagesQ 1500 0.01 in
     (Event.choices <$> events before !! Scenario.coinFlipId)
       = Some [Choice.mk Letter.A 1000; Choice.mk Letter.B 500]
     ∧ (poolTotal <$> (Event.choices <$> events before !! Scenario.coinFlipId)) = Some 1500
     ∧ r_eventRakeAmount rk == 15
     ∧ r_poolAfterEventRake rk == 1485
     ∧ r_prizePoolRakeAmount rk == 37.125
     ∧ r_distributionPool rk == 1447.875
     ∧ match (resolveEvent Scenario.coinFlipId Letter.A Scenario.admin before).1 with
       | Ok summary =>
           rs_payoutsCount summary = 1%nat
           ∧ rs_totalPayout summary == 1447.875
           ∧ match rs_eventRake summary with Some r => r == 15 | None => False end
           ∧ rs_prizePoolRake summary == 37.125
       | Throw _ => False
       end
     ∧ ((λ kp, (Payout.userId kp.2, Payout.status kp.2))
          <$> map_to_list (eventPayouts after))
       = [(Scenario.alice, PayoutStatus.pending)]
     ∧ Forall (λ kp, Payout.payoutAmount kp.2 == 1447.875)
              (map_to_list (eventPayouts after))
     ∧ ((λ kb, (Bet.userId kb.2, Bet.choiceLetter kb.2, Bet.status kb.2))
          <$> map_to_list (eventBets after))
       = [(Scenario.bob, Letter.B, BetStatus.lost);
          (Scenario.alice, Letter.A, BetStatus.won)]
     ∧ (Event.status <$> events after !! Scenario.coinFlipId)
       = Some EventStatus.completed)
  (* the stages, one operation each, in any number type *)
  ∧ (∀ (N : Type) (mul sub : N → N → N) (prizeRake total rake : N),
       let rk := rakeStages mul sub prizeRake total rake in
       r_eventRakeAmount rk = mul total rake
       ∧ r_poolAfterEventRake rk = sub total (mul total rake)
       ∧ r_prizePoolRakeAmount rk = mul (sub total (mul total rake)) prizeRake
       ∧ r_distributionPool rk
         = sub (sub total (mul total rake)) (mul (sub total (mul total rake)) prizeRake))
  (* Coin Flip in binary64 *)
  ∧ Binary64.rakeStagesF 1500%float Binary64.onePercent
    = (mkRakes 15 1485 37.125 1447.875)%float
  ∧ Binary64.winnerPayoutF 1447.875%float 1000%float 1000%float = 1447.875%float.
Proof.
  intros Hev Hst Hch Hpos totalPool winningPool rk winners.
  split; [apply rakeStagesQ_spec|].
  split; [|split; [|split; [done|split; vm_compute; reflexivity]]].
  - destruct (calculatePayouts_winners s e w event choice Hev Hch Hpos)
      as (calc & Hcalc & Hrake & Hprize & Hrefunds & Hpayouts & Heach & Hsum).
    destruct (resolveEvent_commits s e w adminId event calc Hev Hst Hcalc) as (s' & Hres).
    exists calc, s'. split; [exact Hcalc|]. split.
    { rewrite Hres, Hrake, Hprize, Hpayouts. by rewrite length_fmap. }
    repeat split; try done; by apply Hsum.
  - cbv zeta.
    split; [vm_compute; reflexivity|]. split; [vm_compute; reflexivity|].
    split; [vm_compute; reflexivity|]. split; [vm_compute; reflexivity|].
    split; [vm_compute; reflexivity|]. split; [vm_compute; reflexivity|].
    split; [vm_compute; repeat split; reflexivity|].
    split; [vm_compute; reflexivity|].
    split; [vm_compute; repeat constructor|].
    split; vm_compute; reflexivity.
Qed.

Lemma resolve_pari_mutuel_witness :
  let rk := rakeStagesQ (poolTotal [Choice.mk Letter.A 1000; Choice.mk Letter.B 500]) 0.01 in
  r_eventRakeAmount rk + r_prizePoolRakeAmount rk + r_distributionPool rk
  == poolTotal [Choice.mk Letter.A 1000; Choice.mk Letter.B 500].
Proof.
  assert (Hev : events Scenario.staked !! Scenario.coinFlipId
                = Some (Event.mk EventStatus.active None None 0.01
                                 [Choice.mk Letter.A 1000; Choice.mk Letter.B 500]))
    by (vm_compute; reflexivity).
  assert (Hpos : 0 < Choice.totalPool (Choice.mk Letter.A 1000)) by (vm_compute; reflexivity).
  destruct (resolve_pari_mutuel Scenario.staked Scenario.coinFlipId Letter.A Scenario.admin
              _ (Choice.mk Letter.A 1000) Hev (or_introl eq_refl) eq_refl Hpos)
    as ((_ & _ & _ & _ & Hsum) & _).
  exact Hsum.
Defined.

(** ** Settlement: what a resolution writes *)

Lemma lookup_foldl_alter {V X} (f : V → V) (key : X → Id) (xs : list X) (m : gmap Id V)
    (k : Id) :
  (∀ v, f (f v) = f v) →
  foldl (λ m x, alter f (key x) m) m xs !! k
  = if decide (k ∈ key <$> xs) then f <$> m !! k else m !! k.
Proof.
  intros Hidem. revert m. induction xs as [|x xs IH]; intros m.
  - done.
  - rewrite fmap_cons. cbn [foldl]. rewrite IH, lookup_alter.
    destruct (decide (k ∈ key <$> xs)) as [Hin|Hnin];
      destruct (decide (key x = k)) as [Heq|Hne];
      destruct (decide (k ∈ key x :: (key <$> xs))) as [Hin'|Hnin'];
      subst; try done;
      try (exfalso; apply Hnin', elem_of_cons; auto; fail);
      try (apply elem_of_cons in Hin' as [Heq|Hin']; done).
    destruct (m !! key x); simpl; [by rewrite Hidem|done].
Qed.

Lemma foldl_markRefunded (st : Store) (rs : list RefundItem) :
  foldl markRefunded st rs =
  set_eventBets
    (λ m, foldl (λ m r, alter (Bet.with_status BetStatus.refunded) (ri_betId r) m) m rs) st.
Proof.
  revert st. induction rs as [|r rs IH]; intros st; simpl.
  - by destruct st.
  - rewrite IH. by destruct st.
Qed.

Lemma foldl_createPayout_frame (e adminId : Id) (st : Store) (ps : list PayoutItem) :
  let st' := foldl (createPayout e adminId) st ps in
  users st' = users st ∧ events st' = events st ∧ eventBets st' = eventBets st
  ∧ cashOutRequests st' = cashOutRequests st ∧ ledger st' = ledger st.
Proof.
  revert st. induction ps as [|p ps IH]; intros st; simpl; [done|].
  destruct (IH (createPayout e adminId st p)) as (-> & -> & -> & -> & ->). done.
Qed.

Lemma activeBetsOf_elem (s : Store) (e k : Id) (b : Bet.t) :
  (k, b) ∈ activeBetsOf s e
  ↔ eventBets s !! k = Some b ∧ Bet.eventId b = e ∧ Bet.status b = BetStatus.active.
Proof.
  unfold activeBetsOf. rewrite list_elem_of_filter, elem_of_map_to_list. simpl. tauto.
Qed.

Lemma with_status_markLost_markWon (e : Id) (w : Letter.t) (st : BetStatus.t) (b : Bet.t) :
  Bet.with_status st (markLost e w (markWon e w b)) = Bet.with_status st b.
Proof.
  unfold markLost, markWon.
  repeat (destruct (decide _); simpl); by destruct b.
Qed.

(** The result of [calculatePayouts] when nobody backed the winning side. *)
Lemma calculatePayouts_degenerate (s : Store) (e : Id) (w : Letter.t)
    (event : Event.t) (choice : Choice.t) :
  events s !! e = Some event →
  findChoice w (Event.choices event) = Some choice →
  Choice.totalPool choice == 0 →
  calculatePayouts e w s =
    Ok (mkCalculation
          []
          ((λ kb, mkRefundItem (Bet.userId kb.2) (Bet.amount kb.2) kb.1) <$> activeBetsOf s e)
          0 None 0).
Proof.
  intros Hev Hch Hz. unfold calculatePayouts. rewrite Hev, Hch. cbv zeta.
  apply Qeq_bool_iff in Hz. by rewrite Hz.
Qed.

(** The store a refund-everyone resolution leaves. *)
Lemma resolveEvent_degenerate (s : Store) (e : Id) (w : Letter.t) (adminId : Id)
    (event : Event.t) (choice : Choice.t) :
  events s !! e = Some event →
  Event.status event = EventStatus.active ∨ Event.status event = EventStatus.locked →
  findChoice w (Event.choices event) = Some choice →
  Choice.totalPool choice == 0 →
  ∃ s', resolveEvent e w adminId s = (Ok (mkResolveSummary 0 0 None 0), s')
    ∧ users s' = users s
    ∧ eventPayouts s' = eventPayouts s
    ∧ cashOutRequests s' = cashOutRequests s
    ∧ ledger s' = ledger s
    ∧ events s' = alter (λ ev, Event.with_winningSide (Some w)
                                 (Event.with_status EventStatus.completed ev)) e (events s)
    ∧ (∀ k, eventBets s' !! k =
            if decide (k ∈ (activeBetsOf s e).*1)
            then Bet.with_status BetStatus.refunded <$> eventBets s !! k
            else markLost e w <$> (markWon e w <$> eventBets s !! k)).
Proof.
  intros Hev Hst Hch Hz.
  pose proof (calculatePayouts_degenerate s e w event choice Hev Hch Hz) as Hcalc.
  destruct (resolveEvent_commits s e w adminId event _ Hev Hst Hcalc) as (s' & Hres).
  exists s'. split; [exact Hres|].
  unfold resolveEvent in Hres. rewrite Hev, Hcalc in Hres.
  assert (Hs' : s' = foldl markRefunded
                      (set_eventBets (fmap (markLost e w))
                         (set_eventBets (fmap (markWon e w))
                            (set_events
                               (alter (λ ev, Event.with_winningSide (Some w)
                                               (Event.with_status EventStatus.completed ev)) e)
                               s)))
                      ((λ kb, mkRefundItem (Bet.userId kb.2) (Bet.amount kb.2) kb.1)
                         <$> activeBetsOf s e)).
  { destruct Hst as [Hst|Hst]; rewrite Hst in Hres; simpl in Hres; by injection Hres as <-. }
  rewrite foldl_markRefunded in Hs'. subst s'. simpl.
  repeat split; try done. intros k.
  rewrite (lookup_foldl_alter _ ri_betId) by (by intros []).
  rewrite <- list_fmap_compose, !lookup_fmap.
  destruct (decide (k ∈ (activeBetsOf s e).*1)) as [Hin|Hnin].
  - rewrite decide_True by exact Hin.
    destruct (eventBets s !! k); simpl; [|done].
    by rewrite with_status_markLost_markWon.
  - by rewrite decide_False by exact Hnin.
Qed.

Lemma activeBetsOf_key (s : Store) (e k : Id) :
  k ∈ (activeBetsOf s e).*1
  ↔ ∃ b, eventBets s !! k = Some b ∧ Bet.eventId b = e ∧ Bet.status b = BetStatus.active.
Proof.
  rewrite list_elem_of_fmap. split.
  - intros ([k' b] & -> & Hin). exists b. by apply activeBetsOf_elem.
  - intros (b & Hb). exists (k, b). split; [done|]. by apply activeBetsOf_elem.
Qed.

Lemma markLost_markWon_inactive (e : Id) (w : Letter.t) (b : Bet.t) :
  Bet.eventId (markLost e w (markWon e w b)) = Bet.eventId b
  ∧ (¬ (Bet.eventId b = e ∧ Bet.status b = BetStatus.active) →
     markLost e w (markWon e w b) = b).
Proof.
  unfold markLost, markWon. split.
  - repeat (destruct (decide _); simpl); done.
  - intros Hnot. repeat (destruct (decide _); simpl); try done; tauto.
Qed.

(** C3: when nobody staked the winning outcome, resolving the event creates
    no payout row and collects no rake, and every bet that was active on
    the event becomes refunded, the refund recorded for it being its
    stake. *)
Theorem resolve_without_winners_refunds_all (s : Store) (e : Id) (w : Letter.t)
    (adminId : Id) (event : Event.t) (choice : Choice.t) :
  events s !! e = Some event →
  Event.status event = EventStatus.active ∨ Event.status event = EventStatus.locked →
  findChoice w (Event.choices event) = Some choice →
  Choice.totalPool choice == 0 →
  ∃ calc summary s',
    calculatePayouts e w s = Ok calc
    ∧ resolveEvent e w adminId s = (Ok summary, s')
    (* zero payout rows *)
    ∧ payouts calc = [] ∧ rs_payoutsCount summary = 0%nat
    ∧ eventPayouts s' = eventPayouts s
    (* no rake, nothing paid *)
    ∧ eventRakeAmount calc = None ∧ prizePoolRake calc = 0 ∧ totalPaid calc = 0
    ∧ rs_eventRake summary = None ∧ rs_prizePoolRake summary = 0
    (* every active bet of the event is refunded, for its stake *)
    ∧ (∀ k b, eventBets s !! k = Some b → Bet.eventId b = e →
              Bet.status b = BetStatus.active →
              eventBets s' !! k = Some (Bet.with_status BetStatus.refunded b)
              ∧ mkRefundItem (Bet.userId b) (Bet.amount b) k ∈ refunds calc)
    ∧ (∀ r, r ∈ refunds calc →
            ∃ b, eventBets s !! ri_betId r = Some b ∧ Bet.eventId b = e
                 ∧ Bet.status b = BetStatus.active
                 ∧ ri_amount r = Bet.amount b ∧ ri_userId r = Bet.userId b)
    (* no bet of the event stays active *)
    ∧ (∀ k b', eventBets s' !! k = Some b' → Bet.eventId b' = e →
               Bet.status b' ≠ BetStatus.active).
Proof.
  intros Hev Hst Hch Hz.
  pose proof (calculatePayouts_degenerate s e w event choice Hev Hch Hz) as Hcalc.
  destruct (resolveEvent_degenerate s e w adminId event choice Hev Hst Hch Hz)
    as (s' & Hres & _ & Hpay & _ & _ & _ & Hbets).
  eexists _, _, s'. split; [exact Hcalc|]. split; [exact Hres|]. simpl.
  repeat split; try done.
  - rewrite Hbets, decide_True by (apply activeBetsOf_key; eauto).
    by rewrite H.
  - apply list_elem_of_fmap. exists (k, b). split; [done|]. by apply activeBetsOf_elem.
  - intros r Hr. apply list_elem_of_fmap in Hr as ([k b] & -> & Hin).
    apply activeBetsOf_elem in Hin as (Hk & He & Hact). by exists b.
  - intros k b' Hk He Hact. rewrite Hbets in Hk.
    destruct (decide _) as [Hin|Hnin].
    + destruct (eventBets s !! k) as [b|]; [|done].
      injection Hk as <-. done.
    + destruct (eventBets s !! k) as [b|] eqn:Hb; [|done].
      injection Hk as <-.
      destruct (markLost_markWon_inactive e w b) as [Hid Hsame].
      rewrite Hid in He.
      destruct (decide (Bet.eventId b = e ∧ Bet.status b = BetStatus.active)) as [[_ Ha]|Hno].
      * apply Hnin, activeBetsOf_key. eauto.
      * rewrite (Hsame Hno) in Hact. tauto.
Qed.

Lemma resolve_without_winners_refunds_all_witness :
  ∃ calc s',
    calculatePayouts Scenario.coinFlipId Letter.A Scenario.oneSided = Ok calc
    ∧ resolveEvent Scenario.coinFlipId Letter.A Scenario.admin Scenario.oneSided
      = (Ok (mkResolveSummary 0 0 None 0), s')
    ∧ refunds calc = [mkRefundItem Scenario.bob 500 1%positive]
    ∧ eventBets s' !! 1%positive
      = Some (Bet.mk Scenario.coinFlipId Scenario.bob Letter.B 500 BetStatus.refunded)
    ∧ eventPayouts s' = ∅.
Proof.
  assert (Hev : events Scenario.oneSided !! Scenario.coinFlipId
                = Some (Event.mk EventStatus.active None None 0.01
                                 [Choice.mk Letter.A 0; Choice.mk Letter.B 500]))
    by (vm_compute; reflexivity).
  destruct (resolve_without_winners_refunds_all Scenario.oneSided Scenario.coinFlipId
              Letter.A Scenario.admin _ (Choice.mk Letter.A 0) Hev (or_introl eq_refl)
              eq_refl (Qeq_refl 0))
    as (calc & summary & s' & Hcalc & Hres & _ & _ & Hpay & _ & _ & _ & _ & _ & Hbets & _).
  exists calc, s'. split; [exact Hcalc|].
  assert (Hc : calculatePayouts Scenario.coinFlipId Letter.A Scenario.oneSided
               = Ok (mkCalculation [] [mkRefundItem Scenario.bob 500 1%positive] 0 None 0))
    by (vm_compute; reflexivity).
  rewrite Hc in Hcalc. injection Hcalc as <-.
  assert (Hsum : summary = mkResolveSummary 0 0 None 0).
  { assert (Hr : (resolveEvent Scenario.coinFlipId Letter.A Scenario.admin
                    Scenario.oneSided).1 = Ok (mkResolveSummary 0 0 None 0))
      by (vm_compute; reflexivity).
    rewrite Hres in Hr. simpl in Hr. by injection Hr. }
  subst summary. split; [exact Hres|]. split; [reflexivity|]. split.
  - apply (Hbets 1%positive (Bet.mk Scenario.coinFlipId Scenario.bob Letter.B 500
                                    BetStatus.active));
      [vm_compute; reflexivity|reflexivity|reflexivity].
  - rewrite Hpay. vm_compute. reflexivity.
Defined.

(** ** Distribution *)

Lemma filter_none {X} (P : X → Prop) `{∀ x, Decision (P x)} (l : list X) :
  (∀ x, x ∈ l → ¬ P x) → filter P l = [].
Proof.
  induction l as [|x l IH]; intros Hnone; [done|].
  rewrite filter_cons, decide_False by (apply Hnone, elem_of_cons; by left).
  apply IH. intros y Hy. apply Hnone, elem_of_cons. by right.
Qed.

Lemma foldl_distributeOne (committed : Store) (adminId : Id)
    (acc : list (Id * Q)) (st : Store) (ps : list (Id * Payout.t)) :
  foldl (distributeOne committed adminId) (acc, st) ps =
  (acc ++ ((λ kp, (Payout.userId kp.2, Payout.payoutAmount kp.2)) <$> ps),
   mkStore (users st) (events st) (eventBets st)
           (foldl (λ m kp, alter (Payout.complete adminId) kp.1 m) (eventPayouts st) ps)
           (cashOutRequests st)
           (ledger st ++ (payoutCredit committed <$> ps))).
Proof.
  revert acc st. induction ps as [|kp ps IH]; intros acc st.
  - simpl. rewrite !app_nil_r. by destruct st.
  - cbn [foldl]. unfold distributeOne at 2. rewrite IH. simpl.
    by rewrite <- !app_assoc.
Qed.

(** The store a successful distribution leaves. *)
Lemma distributePayouts_ok (e adminId : Id) (s s1 : Store) (r : DistributionResult) :
  distributePayouts e adminId s = (Ok r, s1) →
  let ps := pendingPayouts s e in
  ps ≠ []
  ∧ payoutsProcessed r = length ps
  ∧ s1 = mkStore (users s)
                 (alter (Event.with_status EventStatus.paid_out) e (events s))
                 (eventBets s)
                 (foldl (λ m kp, alter (Payout.complete adminId) kp.1 m) (eventPayouts s) ps)
                 (cashOutRequests s)
                 (ledger s ++ (payoutCredit s <$> ps)).
Proof.
  intros Hd ps. unfold distributePayouts in Hd. fold ps in Hd.
  destruct (bool_decide (length ps = 0%nat)) eqn:Hlen; [discriminate|].
  apply bool_decide_eq_false in Hlen.
  rewrite foldl_distributeOne in Hd. simpl in Hd.
  injection Hd as <- <-. simpl.
  split; [by intros ->|]. split; [by rewrite length_fmap|]. done.
Qed.

Lemma distributePayouts_throw (e adminId : Id) (s : Store) :
  pendingPayouts s e = [] →
  distributePayouts e adminId s = (Throw (mkAppError NoPendingPayouts 400), s).
Proof. intros Hnone. unfold distributePayouts. by rewrite Hnone. Qed.

Lemma pendingPayouts_elem (s : Store) (e k : Id) (p : Payout.t) :
  (k, p) ∈ pendingPayouts s e
  ↔ eventPayouts s !! k = Some p ∧ Payout.eventId p = e
    ∧ Payout.status p = PayoutStatus.pending.
Proof.
  unfold pendingPayouts. rewrite list_elem_of_filter, elem_of_map_to_list. simpl. tauto.
Qed.

Lemma pendingPayouts_NoDup (s : Store) (e : Id) : NoDup (pendingPayouts s e).*1.
Proof.
  apply (sublist_NoDup _ (map_to_list (eventPayouts s)).*1).
  - apply NoDup_fst_map_to_list.
  - apply fmap_sublist, sublist_filter.
Qed.

Lemma payoutCredit_count (committed : Store) (ps : list (Id * Payout.t)) (k : Id) :
  NoDup ps.*1 →
  length (filter (λ tx, Ledger.referenceType tx = Some "event_payout"%string
                        ∧ Ledger.referenceId tx = Some k)
                 (payoutCredit committed <$> ps))
  = if decide (k ∈ ps.*1) then 1%nat else 0%nat.
Proof.
  induction ps as [|kp ps IH]; intros Hnd; [done|].
  rewrite !fmap_cons in *. apply NoDup_cons in Hnd as [Hfresh Hnd].
  rewrite filter_cons. simpl. specialize (IH Hnd).
  destruct (decide (kp.1 = k)) as [<-|Hne].
  - rewrite decide_True by done. simpl. rewrite IH.
    rewrite decide_False by exact Hfresh.
    by rewrite decide_True by (apply elem_of_cons; by left).
  - rewrite decide_False by (intros [_ [=]]; done). rewrite IH.
    destruct (decide (k ∈ ps.*1)) as [Hin|Hnin].
    + by rewrite decide_True by (apply elem_of_cons; by right).
    + rewrite decide_False; [done|].
      intros Hin. apply elem_of_cons in Hin as [->|Hin]; done.
Qed.

Lemma complete_idempotent (a : Id) (p : Payout.t) :
  Payout.complete a (Payout.complete a p) = Payout.complete a p.
Proof. done. Qed.

Lemma payoutCredit_filter (committed : Store) (ps : list (Id * Payout.t)) (k : Id) :
  filter (λ tx, Ledger.referenceType tx = Some "event_payout"%string
                ∧ Ledger.referenceId tx = Some k)
         (payoutCredit committed <$> ps)
  = payoutCredit committed <$> filter (λ kp, kp.1 = k) ps.
Proof.
  induction ps as [|kp ps IH]; [done|].
  rewrite fmap_cons, !filter_cons. simpl. rewrite IH.
  destruct (decide (kp.1 = k)) as [<-|Hne].
  - by rewrite decide_True by done.
  - by rewrite decide_False by (intros [_ [=]]; done).
Qed.

Lemma filter_key_absent {V} (ps : list (Id * V)) (k : Id) :
  k ∉ ps.*1 → filter (λ kp, kp.1 = k) ps = [].
Proof.
  intros Hk. apply filter_none. intros kp Hin Heq. apply Hk.
  apply list_elem_of_fmap. by exists kp.
Qed.

Lemma filter_key_NoDup {V} (ps : list (Id * V)) (k : Id) (p : V) :
  NoDup ps.*1 → (k, p) ∈ ps → filter (λ kp, kp.1 = k) ps = [(k, p)].
Proof.
  induction ps as [|kp ps IH]; intros Hnd Hin; [by apply elem_of_nil in Hin|].
  rewrite fmap_cons in Hnd. apply NoDup_cons in Hnd as [Hfresh Hnd].
  rewrite filter_cons. apply elem_of_cons in Hin as [<-|Hin].
  - rewrite decide_True by done. by rewrite (filter_key_absent ps k Hfresh).
  - rewrite decide_False; [by apply IH|].
    intros Heq. apply Hfresh, list_elem_of_fmap. by exists (k, p).
Qed.

(** C5: a distribution that goes through appends, for every payout row that
    was pending for the event and in their order, one ledger row: a credit
    in chips to the user of the payout, of the amount of the payout, typed
    [bet_won] (so that the balance scan adds the amount to the won chips),
    tagged [event_payout] with the id of the payout row, from the total the
    user had before the call to that total plus the amount.  Each of these
    payout rows then has that one credit more and is the same row with
    status [completed] and the admin recorded; every other payout row and
    its credits are as before.  A second invocation finds nothing pending,
    is refused with 400 and leaves the store as it is, so that over the two
    invocations each of those payouts is credited exactly once, and no other
    payout is credited at all. *)
Theorem distributePayouts_twice_credits_once (e a1 a2 : Id) (s s1 : Store)
    (r : DistributionResult) :
  distributePayouts e a1 s = (Ok r, s1) →
  let credit (kp : Id * Payout.t) : Ledger.t :=
    Ledger.mk (Payout.userId kp.2) Currency.chips (Payout.payoutAmount kp.2)
              (totalChips (getUserBalances s (Payout.userId kp.2)))
              (totalChips (getUserBalances s (Payout.userId kp.2))
               + Payout.payoutAmount kp.2)
              TxType.bet_won (Some "event_payout"%string) (Some kp.1) in
  (* the first invocation *)
  ledger s1 = ledger s ++ (credit <$> pendingPayouts s e)
  ∧ payoutsProcessed r = length (pendingPayouts s e)
  ∧ dr_payouts r
    = (λ kp, (Payout.userId kp.2, Payout.payoutAmount kp.2)) <$> pendingPayouts s e
  ∧ (∀ k p, (k, p) ∈ pendingPayouts s e →
            eventPayouts s1 !! k
            = Some (Payout.mk (Payout.eventId p) (Payout.userId p) (Payout.payoutAmount p)
                              PayoutStatus.completed (Some a1))
            ∧ creditsOfPayout s1 k = creditsOfPayout s k ++ [credit (k, p)]
            ∧ (∀ acc, classify acc (credit (k, p))
                      = mkBuckets (b_purchased acc) (b_won acc + Payout.payoutAmount p)
                                  (b_free acc) (b_locked acc)))
  ∧ (∀ k, k ∉ (pendingPayouts s e).*1 →
          eventPayouts s1 !! k = eventPayouts s !! k
          ∧ creditsOfPayout s1 k = creditsOfPayout s k)
  (* the second invocation *)
  ∧ pendingPayouts s1 e = []
  ∧ distributePayouts e a2 s1 = (Throw (mkAppError NoPendingPayouts 400), s1)
  (* the two together *)
  ∧ (∀ k, length (creditsOfPayout (distributePayouts e a2 s1).2 k)
          = (length (creditsOfPayout s k)
             + if decide (k ∈ (pendingPayouts s e).*1) then 1 else 0)%nat).
Proof.
  intros Hd credit.
  destruct (distributePayouts_ok e a1 s s1 r Hd) as (Hne & Hlen & Hs1).
  assert (Hrows : dr_payouts r
                  = (λ kp, (Payout.userId kp.2, Payout.payoutAmount kp.2))
                      <$> pendingPayouts s e).
  { unfold distributePayouts in Hd.
    destruct (bool_decide _); [discriminate|].
    rewrite foldl_distributeOne in Hd. simpl in Hd. by injection Hd as <- _. }
  assert (Hcredits : ∀ k, creditsOfPayout s1 k
                          = creditsOfPayout s k
                            ++ (credit <$> filter (λ kp, kp.1 = k) (pendingPayouts s e))).
  { intros k. unfold creditsOfPayout. rewrite Hs1. simpl.
    by rewrite filter_app, payoutCredit_filter. }
  assert (Hcount : ∀ k, length (creditsOfPayout s1 k)
                        = (length (creditsOfPayout s k)
                           + if decide (k ∈ (pendingPayouts s e).*1) then 1 else 0)%nat).
  { intros k. unfold creditsOfPayout. rewrite Hs1. simpl.
    rewrite filter_app, length_app.
    by rewrite (payoutCredit_count s _ k (pendingPayouts_NoDup s e)). }
  assert (Hlook : ∀ k, eventPayouts s1 !! k
                       = if decide (k ∈ (pendingPayouts s e).*1)
                         then Payout.complete a1 <$> eventPayouts s !! k
                         else eventPayouts s !! k).
  { intros k. rewrite Hs1. simpl.
    apply (lookup_foldl_alter (Payout.complete a1) fst). apply complete_idempotent. }
  assert (Hnone : pendingPayouts s1 e = []).
  { apply filter_none. intros [k p'] Hin [He Hpend]. simpl in *.
    apply elem_of_map_to_list in Hin. rewrite Hlook in Hin.
    destruct (decide _) as [Hk|Hk].
    - destruct (eventPayouts s !! k); [|done]. injection Hin as <-. done.
    - apply Hk, list_elem_of_fmap. exists (k, p'). split; [done|].
      by apply pendingPayouts_elem. }
  split; [by rewrite Hs1|]. split; [exact Hlen|]. split; [exact Hrows|]. split.
  { intros k p Hin.
    assert (Hk : k ∈ (pendingPayouts s e).*1).
    { apply list_elem_of_fmap. by exists (k, p). }
    split; [|split].
    - apply pendingPayouts_elem in Hin as (Hp & _ & _).
      by rewrite Hlook, decide_True, Hp by exact Hk.
    - rewrite Hcredits.
      by rewrite (filter_key_NoDup _ k p (pendingPayouts_NoDup s e) Hin).
    - done. }
  split.
  { intros k Hk. split.
    - by rewrite Hlook, decide_False by exact Hk.
    - rewrite Hcredits, (filter_key_absent _ k Hk). by rewrite app_nil_r. }
  split; [exact Hnone|].
  rewrite (distributePayouts_throw e a2 s1 Hnone). split; [done|].
  intros k. simpl. apply Hcount.
Qed.

Lemma distributePayouts_twice_credits_once_witness :
  ∃ s1, (distributePayouts Scenario.coinFlipId Scenario.admin Scenario.settled).2 = s1
        ∧ ledger s1
          = ledger Scenario.settled
            ++ [Ledger.mk Scenario.alice Currency.chips
                  (match eventPayouts Scenario.settled !! 1%positive with
                   | Some p => Payout.payoutAmount p
                   | None => 0
                   end)
                  (totalChips (getUserBalances Scenario.settled Scenario.alice))
                  (totalChips (getUserBalances Scenario.settled Scenario.alice)
                   + match eventPayouts Scenario.settled !! 1%positive with
                     | Some p => Payout.payoutAmount p
                     | None => 0
                     end)
                  TxType.bet_won (Some "event_payout"%string) (Some 1%positive)]
        ∧ pendingPayouts s1 Scenario.coinFlipId = []
        ∧ distributePayouts Scenario.coinFlipId Scenario.admin s1
          = (Throw (mkAppError NoPendingPayouts 400), s1).
Proof.
  destruct (distributePayouts Scenario.coinFlipId Scenario.admin Scenario.settled)
    as [res s1] eqn:Hd.
  assert (Hok : ∃ r, res = Ok r).
  { replace res with
      (distributePayouts Scenario.coinFlipId Scenario.admin Scenario.settled).1
      by (by rewrite Hd).
    vm_compute. eexists. reflexivity. }
  destruct Hok as [r ->].
  destruct (distributePayouts_twice_credits_once Scenario.coinFlipId Scenario.admin
              Scenario.admin Scenario.settled s1 r Hd)
    as (Hledger & _ & _ & _ & _ & Hnone & Hsecond & _).
  exists s1. simpl. split; [reflexivity|]. split; [|split; [exact Hnone|exact Hsecond]].
  rewrite Hledger. f_equal.
Defined.

(** ** Withdrawals *)

Lemma wonChips_scan (s : Store) (u : Id) :
  wonChips (getUserBalances s u) = Qmax 0 (wonScan s u).
Proof. reflexivity. Qed.

Lemma wonScan_ledger_create (s : Store) (tx : Ledger.t) (u : Id) :
  Ledger.userId tx = u → Ledger.currency tx = Currency.chips →
  wonScan (ledger_create tx s) u
  = b_won (classify (foldl classify (mkBuckets 0 0 0 0) (chipTransactions s u)) tx).
Proof.
  intros Hu Hc. unfold wonScan. rewrite chipTransactions_snoc.
  rewrite decide_True by done. by rewrite foldl_snoc.
Qed.

Lemma wonScan_set_cashOutRequests (f : gmap Id CashOut.t → gmap Id CashOut.t)
    (s : Store) (u : Id) :
  wonScan (set_cashOutRequests f s) u = wonScan s u.
Proof. reflexivity. Qed.

(** The store a withdrawal request that went through leaves. *)
Lemma requestWithdrawal_ok (chain : Chain) (u : Id) (input : WithdrawalRequestInput)
    (s s1 : Store) (receipt : WithdrawalReceipt) :
  requestWithdrawal chain u input s = (Ok receipt, s1) →
  let requestId := fresh (dom (cashOutRequests s)) in
  let request := CashOut.mk u (wi_amount input)
                   (if bool_decide (wi_currency input = Currency.sol)
                    then Currency.sol else Currency.usdc)
                   (wi_walletAddress input) CashOutStatus.pending in
  let held := set_cashOutRequests (insert requestId request) s in
  wi_amount input <= wonChips (getUserBalances s u)
  ∧ wr_requestId receipt = requestId
  ∧ s1 = ledger_create
           (Ledger.mk u Currency.chips (- wi_amount input)
                      (totalChips (getUserBalances held u))
                      (totalChips (getUserBalances held u) - wi_amount input)
                      TxType.cashout (Some "cashout_request"%string) (Some requestId))
           held
  ∧ wr_balances receipt = getUserBalances s1 u.
Proof.
  intros Hreq. unfold requestWithdrawal in Hreq. cbv zeta in Hreq.
  destruct (Qltb (wonChips (getUserBalances s u)) (wi_amount input)) eqn:Hlt;
    [discriminate|].
  apply Qltb_ge in Hlt.
  destruct (if bool_decide (wi_currency input = Currency.sol)
            then usdToSOL chain (wi_amount input) else Some (wi_amount input));
    [|discriminate].
  injection Hreq as <- <-. simpl. done.
Qed.

Lemma classify_cashout_won (acc : Buckets) (tx : Ledger.t) :
  Ledger.transactionType tx = TxType.cashout →
  b_won (classify acc tx)
  = if Qltb (Ledger.amount tx) 0 then b_won acc + Ledger.amount tx else b_won acc.
Proof.
  intros Hty. unfold classify. rewrite Hty. by destruct (Qltb _ _).
Qed.

Lemma classify_bet_won_won (acc : Buckets) (tx : Ledger.t) :
  Ledger.transactionType tx = TxType.bet_won →
  b_won (classify acc tx) = b_won acc + Ledger.amount tx.
Proof. intros Hty. unfold classify. by rewrite Hty. Qed.

Lemma hold_won (raw a : Q) :
  0 <= a → a <= Qmax 0 raw →
  Qmax 0 (if Qltb (- a) 0 then raw + - a else raw) == Qmax 0 raw - a.
Proof.
  intros Hnn Hle. destruct (Qltb (- a) 0) eqn:Hneg.
  - apply Qltb_lt in Hneg.
    assert (Hpos : 0 < Qmax 0 raw) by lra.
    rewrite (Qmax_0_pos raw Hpos) in *. apply Q.max_r. lra.
  - apply Qltb_ge in Hneg. lra.
Qed.

Lemma compensate_won (raw a : Q) :
  0 <= a → a <= Qmax 0 raw →
  Qmax 0 ((if Qltb (- a) 0 then raw + - a else raw) + a) == Qmax 0 raw.
Proof.
  intros Hnn Hle. destruct (Qltb (- a) 0) eqn:Hneg.
  - apply Q.max_compat; [reflexivity|ring].
  - apply Qltb_ge in Hneg. apply Q.max_compat; [reflexivity|lra].
Qed.

(** [getUserBalances] is the scan [balancesOf] at the rationals. *)
Lemma foldl_classifyOf (acc : Buckets) (rows : list Ledger.t) :
  foldl (classifyOf 0 Qplus Qltb Qabs)
        (mkBucketsOf (b_purchased acc) (b_won acc) (b_free acc) (b_locked acc))
        (scanned <$> rows)
  = let acc' := foldl classify acc rows in
    mkBucketsOf (b_purchased acc') (b_won acc') (b_free acc') (b_locked acc').
Proof.
  revert acc. induction rows as [|tx rows IH]; intros acc; [done|].
  cbn [foldl fmap list_fmap]. rewrite <- IH. f_equal.
  unfold classifyOf, classify, scanned. simpl.
  destruct (Ledger.transactionType tx); try done; by destruct (Qltb _ _).
Qed.

Lemma getUserBalances_scan (s : Store) (u : Id) :
  let b := getUserBalances s u in
  balancesQ (scanned <$> chipTransactions s u) (activeBetsSum s u)
  = mkBalancesOf (purchasedChips b) (wonChips b) (freeChips b) (lockedChips b)
                 (totalChips b).
Proof.
  unfold balancesQ, balancesOf, getUserBalances.
  by rewrite (foldl_classifyOf (mkBuckets 0 0 0 0)).
Qed.

(** C6, counterexample: a user who won 3.9 chips requests a withdrawal of
    1.3 chips, and the transfer fails.  The calls leave three chip rows for
    the user: the win, a [cashout] debit of 1.3 and a [bet_won] credit of
    1.3.  In binary64, the number type [getUserBalances] adds the rows up
    in, the won balance is 3.9 before the request, 2.5999999999999996 under
    the hold and 3.8999999999999995 after the compensation: it does not
    return to its value before the request. *)
Lemma withdrawal_round_trip_is_not_exact_in_binary64 :
  let s := Scenario.winner 3.9 in
  let input := mkWithdrawalInput 1.3 Currency.usdc "wallet" in
  let s1 := (requestWithdrawal Scenario.online Scenario.alice input s).2 in
  let s2 := (processWithdrawal Scenario.offline 1%positive Scenario.admin s1).2 in
  let rows := [(TxType.bet_won, Binary64Ledger.won_3_9);
               (TxType.cashout, PrimFloat.opp Binary64Ledger.amount_1_3);
               (TxType.bet_won, Binary64Ledger.amount_1_3)] in
  let wonF n := bal_won (Binary64Ledger.balancesF (take n rows) 0%float) in
  (* the rows the two calls leave *)
  isOk (requestWithdrawal Scenario.online Scenario.alice input s).1 = true
  ∧ (processWithdrawal Scenario.offline 1%positive Scenario.admin s1).1
    = Throw (mkAppError WithdrawalFailedRefunded 500)
  ∧ (CashOut.status <$> cashOutRequests s2 !! 1%positive) = Some CashOutStatus.rejected
  ∧ Forall2 (λ row tx, row.1 = tx.1 ∧ row.2 == tx.2)
            (scanned <$> chipTransactions s2 Scenario.alice)
            [(TxType.bet_won, 3.9); (TxType.cashout, - 1.3); (TxType.bet_won, 1.3)]
  ∧ Binary64Ledger.exact Binary64Ledger.won_3_9
    = Some (8782019273372467 # 2251799813685248)
  ∧ Binary64Ledger.exact Binary64Ledger.amount_1_3
    = Some (5854679515581645 # 4503599627370496)
  (* the won balance in binary64 *)
  ∧ wonF 1%nat = Binary64Ledger.won_3_9
  ∧ wonF 2%nat = 0x1.4ccccccccccccp+1%float
  ∧ wonF 3%nat = 0x1.f333333333332p+1%float
  ∧ PrimFloat.eqb (wonF 3%nat) (wonF 1%nat) = false
  ∧ match Binary64Ledger.exact (wonF 3%nat), Binary64Ledger.exact (wonF 1%nat) with
    | Some after, Some before => after < before
    | _, _ => False
    end.
Proof.
  cbv zeta. split; [vm_compute; reflexivity|]. split; [vm_compute; reflexivity|].
  split; [vm_compute; reflexivity|]. split.
  { vm_compute. repeat constructor. }
  repeat split; vm_compute; reflexivity.
Qed.

(** C6, amended: a withdrawal request that goes through appends a
    [cashout] debit of exactly the requested amount and leaves the request
    pending (the hold); if processing that request then fails, the request
    is rejected and one compensating [bet_won] credit of exactly the held
    amount is appended to the ledger.  In exact arithmetic the won balance
    is lower by exactly the requested amount under the hold, and back at
    its value before the request after the compensation.  The won balance
    is the scan of the user's rows, whatever the number type: the hold and
    the compensation add the negated amount and then the amount to the sum
    of the earlier rows, one addition each. *)
Theorem withdrawal_hold_and_compensate (chain1 chain2 : Chain) (u adminId : Id)
    (input : WithdrawalRequestInput) (s s1 : Store) (receipt : WithdrawalReceipt) :
  0 <= wi_amount input →
  requestWithdrawal chain1 u input s = (Ok receipt, s1) →
  let amount := wi_amount input in
  let won0 := wonChips (getUserBalances s u) in
  let requestId := wr_requestId receipt in
  (* the hold *)
  amount <= won0
  ∧ wonChips (getUserBalances s1 u) == won0 - amount
  ∧ wonChips (wr_balances receipt) == won0 - amount
  ∧ (CashOut.status <$> cashOutRequests s1 !! requestId) = Some CashOutStatus.pending
  ∧ (∃ debit, ledger s1 = ledger s ++ [debit]
              ∧ Ledger.userId debit = u ∧ Ledger.amount debit = - amount
              ∧ Ledger.transactionType debit = TxType.cashout
              ∧ Ledger.referenceId debit = Some requestId)
  (* processing fails *)
  ∧ (isOk (processWithdrawal chain2 requestId adminId s1).1 = false →
     ∃ s2 credit,
       processWithdrawal chain2 requestId adminId s1
       = (Throw (mkAppError WithdrawalFailedRefunded 500), s2)
       ∧ (CashOut.status <$> cashOutRequests s2 !! requestId)
         = Some CashOutStatus.rejected
       ∧ ledger s2 = ledger s1 ++ [credit]
       ∧ Ledger.userId credit = u ∧ Ledger.currency credit = Currency.chips
       ∧ Ledger.amount credit = amount
       ∧ Ledger.transactionType credit = TxType.bet_won
       ∧ Ledger.referenceType credit = Some "cashout_request_refund"%string
       ∧ Ledger.referenceId credit = Some requestId
       ∧ wonChips (getUserBalances s2 u) == won0
       ∧ scanned <$> chipTransactions s2 u
         = (scanned <$> chipTransactions s u)
           ++ [(TxType.cashout, - amount); (TxType.bet_won, amount)])
  (* the scan of these rows, in any number type *)
  ∧ scanned <$> chipTransactions s1 u
    = (scanned <$> chipTransactions s u) ++ [(TxType.cashout, - amount)]
  ∧ (∀ (N : Type) (zero : N) (add : N → N → N) (ltb : N → N → bool) (abs : N → N)
       (rows : list (TxType.t * N)) (a negated : N),
       ltb negated zero = true →
       let won rows :=
         bo_won (foldl (classifyOf zero add ltb abs)
                       (mkBucketsOf zero zero zero zero) rows) in
       won (rows ++ [(TxType.cashout, negated)]) = add (won rows) negated
       ∧ won (rows ++ [(TxType.cashout, negated); (TxType.bet_won, a)])
         = add (add (won rows) negated) a).
Proof.
  intros Hnn Hreq amount won0 requestId.
  destruct (requestWithdrawal_ok chain1 u input s s1 receipt Hreq)
    as (Hle & Hid & Hs1 & Hbal).
  fold amount in Hle, Hs1. fold won0 in Hle.
  assert (Hwon1 : wonScan s1 u
                  = if Qltb (- amount) 0 then wonScan s u + - amount else wonScan s u).
  { rewrite Hs1, wonScan_ledger_create, classify_cashout_won by done. simpl.
    fold (wonScan (set_cashOutRequests
                     (insert (fresh (dom (cashOutRequests s)))
                        (CashOut.mk u amount
                           (if bool_decide (wi_currency input = Currency.sol)
                            then Currency.sol else Currency.usdc)
                           (wi_walletAddress input) CashOutStatus.pending)) s) u).
    by rewrite wonScan_set_cashOutRequests. }
  assert (Hhold : wonChips (getUserBalances s1 u) == won0 - amount).
  { rewrite wonChips_scan, Hwon1. unfold won0. rewrite wonChips_scan.
    apply hold_won; [exact Hnn|]. rewrite <- wonChips_scan. exact Hle. }
  assert (Hlook : cashOutRequests s1 !! requestId
                  = Some (CashOut.mk u amount
                            (if bool_decide (wi_currency input = Currency.sol)
                             then Currency.sol else Currency.usdc)
                            (wi_walletAddress input) CashOutStatus.pending)).
  { unfold requestId. rewrite Hid, Hs1. simpl. apply lookup_insert_eq. }
  split; [exact Hle|]. split; [exact Hhold|].
  assert (Hrows1 : chipTransactions s1 u
                   = chipTransactions s u
                     ++ [Ledger.mk u Currency.chips (- amount)
                           (totalChips (getUserBalances
                              (set_cashOutRequests
                                 (insert (fresh (dom (cashOutRequests s)))
                                    (CashOut.mk u amount
                                       (if bool_decide (wi_currency input = Currency.sol)
                                        then Currency.sol else Currency.usdc)
                                       (wi_walletAddress input) CashOutStatus.pending)) s) u))
                           (totalChips (getUserBalances
                              (set_cashOutRequests
                                 (insert (fresh (dom (cashOutRequests s)))
                                    (CashOut.mk u amount
                                       (if bool_decide (wi_currency input = Currency.sol)
                                        then Currency.sol else Currency.usdc)
                                       (wi_walletAddress input) CashOutStatus.pending)) s) u)
                            - amount)
                           TxType.cashout (Some "cashout_request"%string)
                           (Some (fresh (dom (cashOutRequests s))))]).
  { rewrite Hs1, chipTransactions_snoc. by rewrite decide_True by done. }
  split; [by rewrite Hbal|]. split; [by rewrite Hlook|]. split.
  { eexists. rewrite Hs1. simpl. split; [reflexivity|]. simpl.
    unfold requestId. by rewrite Hid. }
  split; [|split].
  - intros Hfail. unfold processWithdrawal in *. rewrite Hlook in *. simpl in *.
    destruct (transfer chain2 _); [discriminate|].
    eexists _, _. split; [reflexivity|]. simpl.
    split; [by rewrite lookup_alter_eq, Hlook|].
    split; [reflexivity|]. simpl.
    do 6 (split; [reflexivity|]). split.
    + rewrite wonChips_scan, wonScan_ledger_create, classify_bet_won_won by done. simpl.
      fold (wonScan (set_cashOutRequests
                       (alter (CashOut.with_status CashOutStatus.rejected) requestId) s1) u).
      rewrite wonScan_set_cashOutRequests, Hwon1.
      unfold won0. rewrite wonChips_scan.
      apply compensate_won; [exact Hnn|]. rewrite <- wonChips_scan. exact Hle.
    + rewrite chipTransactions_snoc, decide_True by done.
      change (chipTransactions (set_cashOutRequests _ s1) u) with (chipTransactions s1 u).
      rewrite Hrows1, !fmap_app, <- app_assoc. reflexivity.
  - by rewrite Hrows1, fmap_app.
  - intros N zero add ltb abs rows a negated Hneg won. unfold won.
    replace (rows ++ [(TxType.cashout, negated); (TxType.bet_won, a)])
      with ((rows ++ [(TxType.cashout, negated)]) ++ [(TxType.bet_won, a)])
      by (by rewrite <- app_assoc).
    rewrite !foldl_snoc. unfold classifyOf at 1 3. simpl. rewrite Hneg.
    split; [reflexivity|]. unfold classifyOf at 1. simpl. by rewrite Hneg.
Qed.

Lemma withdrawal_hold_and_compensate_witness :
  let s := Scenario.winner 100 in
  let s1 := (requestWithdrawal Scenario.online Scenario.alice Scenario.forty s).2 in
  let s2 := (processWithdrawal Scenario.offline 1%positive Scenario.admin s1).2 in
  wonChips (getUserBalances s1 Scenario.alice) == 100 - 40
  ∧ wonChips (getUserBalances s2 Scenario.alice) == wonChips (getUserBalances s Scenario.alice).
Proof.
  intros s s1 s2.
  pose (receipt := match (requestWithdrawal Scenario.online Scenario.alice
                            Scenario.forty s).1 with
                   | Ok r => r
                   | Throw _ => mkWithdrawalReceipt 1%positive 0 zeroBalances
                   end).
  assert (Hreq : requestWithdrawal Scenario.online Scenario.alice Scenario.forty s
                 = (Ok receipt, s1)) by (vm_compute; reflexivity).
  assert (Hnn : 0 <= wi_amount Scenario.forty) by (vm_compute; discriminate).
  destruct (withdrawal_hold_and_compensate Scenario.online Scenario.offline Scenario.alice
              Scenario.admin Scenario.forty s s1 receipt Hnn Hreq)
    as (_ & Hhold & _ & _ & _ & Hfail & _).
  split.
  - rewrite Hhold. vm_compute. reflexivity.
  - destruct Hfail as (s2' & credit & Hproc & _ & _ & _ & _ & _ & _ & _ & _ & Hback & _);
      [vm_compute; reflexivity|].
    assert (Hs2 : s2 = s2').
    { unfold s2. change 1%positive with (wr_requestId receipt). by rewrite Hproc. }
    rewrite Hs2. exact Hback.
Defined.

(** ** The running balance under bets *)

(** The two phases of the race model, run back to back, are [placeBet]. *)
Lemma placeBet_as_phases (now : Z) (u : Id) (input : PlaceBetInput) (s : Store) :
  let r := race now u input input [First; First] s in
  shared r = (placeBet now u input s).2
  ∧ placed (first r) = isOk (placeBet now u input s).1.
Proof.
  unfold race, placeBet; simpl.
  destruct (placeBet_check now u input s) as [currentTotal|err]; simpl; [|done].
  by destruct (placeBet_commit u input currentTotal s).
Qed.

(** C1 fails on the code: a user who deposited 100 chips stakes 60 twice.
    Both bets are accepted, because a [bet_placed] debit lowers none of the
    buckets [totalChips] is made of.  Each row still satisfies
    [balanceAfter == balanceBefore + amount], but the second bet starts
    from 100 where the first one left 40, and the signed amounts add up to
    -20. *)
Theorem second_bet_breaks_running_balance :
  let s0 := Scenario.holding 100 in
  let s1 := (placeBet 0 Scenario.alice Scenario.sixty s0).2 in
  let s2 := (placeBet 0 Scenario.alice Scenario.sixty s1).2 in
  let rows s := (λ tx, (Ledger.balanceBefore tx, Ledger.amount tx, Ledger.balanceAfter tx))
                  <$> userLedger s Scenario.alice Currency.chips in
  isOk (placeBet 0 Scenario.alice Scenario.sixty s0).1 = true
  ∧ isOk (placeBet 0 Scenario.alice Scenario.sixty s1).1 = true
  ∧ rows s0 = [(0, 100, 100)]
  ∧ rows s1 = [(0, 100, 100); (100, -60, 40)]
  ∧ rows s2 = [(0, 100, 100); (100, -60, 40); (100, -60, 40)]
  ∧ runningBalanceConsistent (userLedger s1 Scenario.alice Currency.chips) = true
  ∧ runningBalanceConsistent (userLedger s2 Scenario.alice Currency.chips) = false
  ∧ forallb entryBalanced (userLedger s2 Scenario.alice Currency.chips) = true
  ∧ chained (userLedger s2 Scenario.alice Currency.chips) = false
  ∧ signedSum (userLedger s2 Scenario.alice Currency.chips) == -20
  ∧ totalChips (getUserBalances s2 Scenario.alice) == 100
  ∧ lockedChips (getUserBalances s2 Scenario.alice) == 120.
Proof.
  cbv zeta. repeat split; vm_compute; reflexivity.
Qed.

(** C7 fails on the code: a user holding exactly 100 chips places two bets
    of 60 at the same time.  However the two calls interleave, also when
    one runs to its end before the other starts, both bets are placed: 120
    chips are staked out of 100. *)
Theorem simultaneous_bets_both_placed :
  let s := Scenario.holding 100 in
  totalChips (getUserBalances s Scenario.alice) == 100
  ∧ Forall (λ schedule,
              let r := race 0 Scenario.alice Scenario.sixty Scenario.sixty schedule s in
              placed (first r) = true
              ∧ placed (second r) = true
              ∧ length (activeBetsOf (shared r) Scenario.coinFlipId) = 2%nat
              ∧ lockedChips (getUserBalances (shared r) Scenario.alice) == 120
              ∧ signedSum (userLedger (shared r) Scenario.alice Currency.chips) == -20)
           interleavings
  ∧ shared (race 0 Scenario.alice Scenario.sixty Scenario.sixty
                 [First; First; Second; Second] s)
    = (placeBet 0 Scenario.alice Scenario.sixty
                (placeBet 0 Scenario.alice Scenario.sixty s).2).2.
Proof.
  cbv zeta. split; [vm_compute; reflexivity|]. split.
  - unfold interleavings.
    repeat (apply Forall_cons; split; [repeat split; vm_compute; reflexivity|]).
    apply Forall_nil. done.
  - vm_compute. reflexivity.
Qed.

(** ** What each call may write *)

Lemma foldl_refundOne (committed : Store) (acc : list (Id * Q)) (st : Store)
    (bs : list (Id * Bet.t)) :
  foldl (refundOne committed) (acc, st) bs =
  (acc ++ ((λ kb, (Bet.userId kb.2, Bet.amount kb.2)) <$> bs),
   mkStore (users st) (events st)
           (foldl (λ m kb, alter (Bet.with_status BetStatus.refunded) kb.1 m)
                  (eventBets st) bs)
           (eventPayouts st) (cashOutRequests st)
           (ledger st ++ (refundCredit committed <$> bs))).
Proof.
  revert acc st. induction bs as [|kb bs IH]; intros acc st.
  - simpl. rewrite !app_nil_r. by destruct st.
  - cbn [foldl]. unfold refundOne at 2. rewrite IH. simpl.
    by rewrite <- !app_assoc.
Qed.

Lemma placeBet_shape (now : Z) (u : Id) (input : PlaceBetInput) (s : Store) :
  (placeBet now u input s).2 = s
  ∨ ∃ event debit,
      events s !! pb_eventId input = Some event
      ∧ Event.status event = EventStatus.active
      ∧ Ledger.referenceType debit = Some "event_bet"%string
      ∧ entryBalanced debit = true
      ∧ (placeBet now u input s).2 =
          mkStore (users s)
                  (alter (incrementPool (pb_choiceLetter input) (pb_amount input))
                         (pb_eventId input) (events s))
                  (<[fresh (dom (eventBets s)) :=
                       Bet.mk (pb_eventId input) u (pb_choiceLetter input)
                              (pb_amount input) BetStatus.active]> (eventBets s))
                  (eventPayouts s) (cashOutRequests s) (ledger s ++ [debit]).
Proof.
  unfold placeBet.
  destruct (placeBet_check now u input s) as [currentTotal|err] eqn:Hcheck; [|by left].
  right. unfold placeBet_check in Hcheck.
  destruct (events s !! pb_eventId input) as [event|]; [|discriminate].
  destruct (bool_decide (Event.status event = EventStatus.active)) eqn:Hact;
    [|discriminate].
  apply bool_decide_eq_true in Hact.
  eexists event, _. split; [done|]. split; [done|]. simpl.
  split; [|split; [|reflexivity]]; [done|]. apply Qeq_bool_iff. reflexivity.
Qed.

Lemma updateEvent_shape (e : Id) (input : UpdateEventInput) (s : Store) :
  (updateEvent e input s).2 = s
  ∨ ∃ event, events s !! e = Some event
             ∧ Event.status event ≠ EventStatus.completed
             ∧ Event.status event ≠ EventStatus.paid_out
             ∧ updateEvent e input s
               = (Ok (applyUpdate input event), set_events (alter (applyUpdate input) e) s).
Proof.
  unfold updateEvent. destruct (events s !! e) as [event|]; [|by left].
  destruct (bool_decide _) eqn:Hdone; [by left|].
  apply bool_decide_eq_false in Hdone. right. exists event.
  repeat split; try done; intros Hst; apply Hdone; rewrite Hst;
    [apply elem_of_cons; by left | apply elem_of_cons; right; apply elem_of_cons; by left].
Qed.

Lemma cancelEvent_shape (e : Id) (s : Store) :
  (cancelEvent e s).2 = s
  ∨ ∃ event, events s !! e = Some event
             ∧ Event.status event ≠ EventStatus.completed
             ∧ Event.status event ≠ EventStatus.paid_out
             ∧ Event.status event ≠ EventStatus.cancelled
             ∧ cancelEvent e s
               = (Ok (Event.with_status EventStatus.cancelled event),
                  set_events (alter (Event.with_status EventStatus.cancelled) e) s).
Proof.
  unfold cancelEvent. destruct (events s !! e) as [event|]; [|by left].
  destruct (bool_decide _) eqn:Hdone; [by left|].
  apply bool_decide_eq_false in Hdone. right. exists event.
  repeat split; try done; intros Hst; apply Hdone; rewrite Hst;
    repeat (first [ apply elem_of_cons; by left | apply elem_of_cons; right ]).
Qed.

Lemma resolveEvent_shape (e : Id) (w : Letter.t) (adminId : Id) (s : Store) :
  (resolveEvent e w adminId s).2 = s
  ∨ ∃ event calc,
      events s !! e = Some event
      ∧ (Event.status event = EventStatus.active ∨ Event.status event = EventStatus.locked)
      ∧ calculatePayouts e w s = Ok calc
      ∧ (resolveEvent e w adminId s).2 =
          foldl markRefunded
            (foldl (createPayout e adminId)
               (set_eventBets (fmap (markLost e w))
                  (set_eventBets (fmap (markWon e w))
                     (set_events
                        (alter (λ ev, Event.with_winningSide (Some w)
                                        (Event.with_status EventStatus.completed ev)) e)
                        s)))
               (payouts calc))
            (refunds calc).
Proof.
  unfold resolveEvent. destruct (events s !! e) as [event|]; [|by left].
  destruct (Event.status event) eqn:Hst; simpl; try (by left);
    (destruct (calculatePayouts e w s) as [calc|err]; [|by left]);
    right; exists event, calc; rewrite Hst; tauto.
Qed.

Lemma distributePayouts_shape (e adminId : Id) (s : Store) :
  (distributePayouts e adminId s).2 = s
  ∨ (distributePayouts e adminId s).2 =
      mkStore (users s)
              (alter (Event.with_status EventStatus.paid_out) e (events s))
              (eventBets s)
              (foldl (λ m kp, alter (Payout.complete adminId) kp.1 m)
                     (eventPayouts s) (pendingPayouts s e))
              (cashOutRequests s)
              (ledger s ++ (payoutCredit s <$> pendingPayouts s e)).
Proof.
  destruct (distributePayouts e adminId s) as [[r|err] s1] eqn:Hd.
  - right. by destruct (distributePayouts_ok e adminId s s1 r Hd) as (_ & _ & ->).
  - left. unfold distributePayouts in Hd.
    destruct (bool_decide _); [by injection Hd|].
    by destruct (foldl _ _ _).
Qed.

Lemma refundEvent_shape (e : Id) (s : Store) :
  (refundEvent e s).2 = s
  ∨ ∃ event, events s !! e = Some event
             ∧ Event.status event = EventStatus.cancelled
             ∧ (refundEvent e s).2 =
                 mkStore (users s) (events s)
                         (foldl (λ m kb, alter (Bet.with_status BetStatus.refunded) kb.1 m)
                                (eventBets s) (activeBetsOf s e))
                         (eventPayouts s) (cashOutRequests s)
                         (ledger s ++ (refundCredit s <$> activeBetsOf s e)).
Proof.
  unfold refundEvent. destruct (events s !! e) as [event|]; [|by left].
  destruct (bool_decide (Event.status event ≠ EventStatus.cancelled)) eqn:Hst; [by left|].
  apply bool_decide_eq_false in Hst. apply dec_stable in Hst.
  destruct (bool_decide _); [by left|].
  right. exists event. rewrite foldl_refundOne. done.
Qed.

Lemma requestWithdrawal_shape (chain : Chain) (u : Id) (input : WithdrawalRequestInput)
    (s : Store) :
  (requestWithdrawal chain u input s).2 = s
  ∨ ∃ request debit,
      Ledger.referenceType debit = Some "cashout_request"%string
      ∧ entryBalanced debit = true
      ∧ (requestWithdrawal chain u input s).2 =
          ledger_create debit
            (set_cashOutRequests (insert (fresh (dom (cashOutRequests s))) request) s).
Proof.
  unfold requestWithdrawal. cbv zeta.
  destruct (Qltb _ _); [by left|].
  destruct (if bool_decide _ then _ else _); [|by left].
  right. eexists _, _. split; [|split; [|reflexivity]]; [done|].
  apply Qeq_bool_iff. reflexivity.
Qed.

Lemma processWithdrawal_shape (chain : Chain) (requestId adminId : Id) (s : Store) :
  (processWithdrawal chain requestId adminId s).2 = s
  ∨ (∃ f, (processWithdrawal chain requestId adminId s).2 = set_cashOutRequests f s)
  ∨ ∃ f credit,
      Ledger.referenceType credit = Some "cashout_request_refund"%string
      ∧ entryBalanced credit = true
      ∧ (processWithdrawal chain requestId adminId s).2
        = ledger_create credit (set_cashOutRequests f s).
Proof.
  unfold processWithdrawal.
  destruct (cashOutRequests s !! requestId) as [request|]; [|by left].
  destruct (bool_decide _); [by left|].
  destruct (transfer chain request).
  - right. left. eexists. reflexivity.
  - right. right. eexists _, _. split; [|split; [|reflexivity]]; [done|].
    apply Qeq_bool_iff. reflexivity.
Qed.

(** ** Invariants of a resolved event *)

Lemma lookup_foldl_alter_proj {V W X} (f : V → V) (g : V → W) (key : X → Id)
    (xs : list X) (m : gmap Id V) (k : Id) :
  (∀ v, g (f v) = g v) →
  g <$> foldl (λ m x, alter f (key x) m) m xs !! k = g <$> m !! k.
Proof.
  intros Hgf. revert m. induction xs as [|x xs IH]; intros m; [done|].
  cbn [foldl]. rewrite IH, lookup_alter.
  destruct (decide (key x = k)) as [->|_]; [|done].
  destruct (m !! k); simpl; [by rewrite Hgf|done].
Qed.

Lemma resolveEvent_written (e : Id) (w : Letter.t) (adminId : Id) (s : Store)
    (calc : PayoutCalculation) :
  let s' := foldl markRefunded
              (foldl (createPayout e adminId)
                 (set_eventBets (fmap (markLost e w))
                    (set_eventBets (fmap (markWon e w))
                       (set_events
                          (alter (λ ev, Event.with_winningSide (Some w)
                                          (Event.with_status EventStatus.completed ev)) e)
                          s)))
                 (payouts calc))
              (refunds calc) in
  events s' = alter (λ ev, Event.with_winningSide (Some w)
                             (Event.with_status EventStatus.completed ev)) e (events s)
  ∧ ledger s' = ledger s
  ∧ ∀ k, betEvent s' k = betEvent s k.
Proof.
  cbv zeta. rewrite foldl_markRefunded. simpl.
  match goal with
  | |- context [foldl (createPayout e adminId) ?st ?ps] =>
      destruct (foldl_createPayout_frame e adminId st ps) as (_ & -> & Hbets & _ & ->)
  end.
  split; [done|]. split; [done|]. intros k. unfold betEvent. simpl.
  rewrite (lookup_foldl_alter_proj _ Bet.eventId ri_betId) by done.
  rewrite Hbets. simpl. rewrite !lookup_fmap.
  destruct (eventBets s !! k) as [b|]; simpl; [|done].
  by destruct (markLost_markWon_inactive e w b) as [-> _].
Qed.

(** Once resolved, an event stays resolved, and once paid out it stays paid
    out, whatever is called. *)
Lemma exec_keeps_resolved (s : Store) (c : Call) (e : Id) (ev : Event.t) :
  events s !! e = Some ev → resolved ev →
  ∃ ev', events (exec s c) !! e = Some ev'
         ∧ resolved ev'
         ∧ (Event.status ev = EventStatus.paid_out → Event.status ev' = EventStatus.paid_out).
Proof.
  intros Hev Hres.
  assert (Hsame : ∀ s', events s' = events s →
                        ∃ ev', events s' !! e = Some ev' ∧ resolved ev'
                               ∧ (Event.status ev = EventStatus.paid_out
                                  → Event.status ev' = EventStatus.paid_out)).
  { intros s' ->. by exists ev. }
  assert (Hother : ∀ s' e' (f : Event.t → Event.t),
            e' ≠ e → events s' = alter f e' (events s) →
            ∃ ev', events s' !! e = Some ev' ∧ resolved ev'
                   ∧ (Event.status ev = EventStatus.paid_out
                      → Event.status ev' = EventStatus.paid_out)).
  { intros s' e' f Hne ->. exists ev. by rewrite lookup_alter_ne. }
  assert (Hunres : ∀ e' ev0, events s !! e' = Some ev0 → ¬ resolved ev0 → e' ≠ e).
  { intros e' ev0 Hev0 Hno ->. rewrite Hev in Hev0. by injection Hev0 as <-. }
  destruct c as [now u input|e' input|e'|e' w a|e' a|e'|chain u input|chain rid a]; simpl.
  - destruct (placeBet_shape now u input s) as [->|(event & debit & Hev' & Hact & _ & _ & ->)];
      [by apply Hsame|].
    apply (Hother _ (pb_eventId input) (incrementPool (pb_choiceLetter input)
                                                      (pb_amount input))); [|done].
    apply (Hunres _ event Hev'). unfold resolved. rewrite Hact. by intros [|].
  - destruct (updateEvent_shape e' input s) as [->|(event & Hev' & Hc & Hp & ->)];
      [by apply Hsame|].
    apply (Hother _ e' (applyUpdate input)); [|done].
    apply (Hunres _ event Hev'). unfold resolved. tauto.
  - destruct (cancelEvent_shape e' s) as [->|(event & Hev' & Hc & Hp & _ & ->)];
      [by apply Hsame|].
    apply (Hother _ e' (Event.with_status EventStatus.cancelled)); [|done].
    apply (Hunres _ event Hev'). unfold resolved. tauto.
  - destruct (resolveEvent_shape e' w a s) as [->|(event & calc & Hev' & Hst & _ & ->)];
      [by apply Hsame|].
    destruct (resolveEvent_written e' w a s calc) as (Hevents & _ & _).
    eapply (Hother _ e'); [|exact Hevents].
    apply (Hunres _ event Hev'). unfold resolved. by destruct Hst as [-> | ->]; intros [|].
  - destruct (distributePayouts_shape e' a s) as [->| ->]; [by apply Hsame|]. simpl.
    destruct (decide (e' = e)) as [->|Hne].
    + exists (Event.with_status EventStatus.paid_out ev).
      rewrite lookup_alter_eq, Hev. simpl. unfold resolved. simpl. tauto.
    + exists ev. by rewrite lookup_alter_ne.
  - destruct (refundEvent_shape e' s) as [->|(event & _ & _ & ->)]; by apply Hsame.
  - destruct (requestWithdrawal_shape chain u input s) as [->|(rq & debit & _ & _ & ->)];
      by apply Hsame.
  - destruct (processWithdrawal_shape chain rid a s)
      as [->|[(f & ->)|(f & credit & _ & _ & ->)]]; by apply Hsame.
Qed.

(** ** Event status *)

(** C4, as stated, fails: [updateEvent] accepts a status that moves the
    event backwards (locked to draft) and one that leaves cancelled
    (cancelled to active); both calls succeed and write the status. *)
Lemma updateEvent_rewinds_and_reopens :
  (Event.status <$> events Scenario.lockedFlip !! Scenario.coinFlipId)
    = Some EventStatus.locked
  ∧ isOk (updateEvent Scenario.coinFlipId (mkUpdateEvent None (Some EventStatus.draft))
                      Scenario.lockedFlip).1 = true
  ∧ (Event.status <$>
       events (updateEvent Scenario.coinFlipId (mkUpdateEvent None (Some EventStatus.draft))
                           Scenario.lockedFlip).2 !! Scenario.coinFlipId)
    = Some EventStatus.draft
  ∧ (Event.status <$> events Scenario.cancelledFlip !! Scenario.coinFlipId)
    = Some EventStatus.cancelled
  ∧ isOk (updateEvent Scenario.coinFlipId (mkUpdateEvent None (Some EventStatus.active))
                      Scenario.cancelledFlip).1 = true
  ∧ (Event.status <$>
       events (updateEvent Scenario.coinFlipId (mkUpdateEvent None (Some EventStatus.active))
                           Scenario.cancelledFlip).2 !! Scenario.coinFlipId)
    = Some EventStatus.active.
Proof. repeat split; vm_compute; reflexivity. Qed.

Lemma resolveEvent_ok_completed (e : Id) (w : Letter.t) (adminId : Id) (s s' : Store)
    (r : ResolveSummary) :
  resolveEvent e w adminId s = (Ok r, s') →
  ∃ event, events s !! e = Some event
           ∧ (Event.status event = EventStatus.active
              ∨ Event.status event = EventStatus.locked)
           ∧ (Event.status <$> events s' !! e) = Some EventStatus.completed
           ∧ ledger s' = ledger s
           ∧ ∀ k, betEvent s' k = betEvent s k.
Proof.
  intros Hres. unfold resolveEvent in Hres.
  destruct (events s !! e) as [event|] eqn:Hev; [|discriminate].
  destruct (Event.status event) eqn:Hst; simpl in Hres; try discriminate;
    (destruct (calculatePayouts e w s) as [calc|err] eqn:Hcalc; [|discriminate]);
    injection Hres as _ <-;
    destruct (resolveEvent_written e w adminId s calc) as (Hevents & Hledger & Hbets);
    exists event; rewrite Hevents, Hledger, lookup_alter_eq, Hev; simpl;
    repeat split; auto.
Qed.

Lemma resolveEvent_refused (e : Id) (w : Letter.t) (adminId : Id) (s : Store)
    (event : Event.t) :
  events s !! e = Some event →
  Event.status event ≠ EventStatus.active →
  Event.status event ≠ EventStatus.locked →
  ∃ err, resolveEvent e w adminId s = (Throw err, s) ∧ statusCode err = 400%Z.
Proof.
  intros Hev Hact Hlock. unfold resolveEvent. rewrite Hev.
  destruct (Event.status event); simpl; try done; eexists; split; reflexivity.
Qed.

(** C4, amended: every call that writes an event status is refused with
    status code 400, and then leaves the store untouched, under its own
    guard.  [resolveEvent] is refused unless the event is active or locked,
    and otherwise leaves it completed; [cancelEvent] is refused for a
    completed, paid-out or cancelled event, and otherwise leaves it
    cancelled; [updateEvent] is refused for a completed or paid-out event,
    and otherwise writes whatever status the request carries, backwards or
    out of cancelled included; [distributePayouts] is refused when no
    payout of the event is pending, and otherwise leaves the event paid
    out.  Hence, whatever is called, a completed event stays completed or
    becomes paid out, and a paid-out event stays paid out. *)
Theorem event_status_guards (s : Store) (e : Id) (event : Event.t) :
  events s !! e = Some event →
  (* resolve *)
  (∀ w a, Event.status event ≠ EventStatus.active →
          Event.status event ≠ EventStatus.locked →
          ∃ err, resolveEvent e w a s = (Throw err, s) ∧ statusCode err = 400%Z)
  ∧ (∀ w a r s', resolveEvent e w a s = (Ok r, s') →
                 (Event.status event = EventStatus.active
                  ∨ Event.status event = EventStatus.locked)
                 ∧ (Event.status <$> events s' !! e) = Some EventStatus.completed)
  (* cancel *)
  ∧ (Event.status event ∈
       [EventStatus.completed; EventStatus.paid_out; EventStatus.cancelled] →
     cancelEvent e s = (Throw (mkAppError CannotCancel 400), s))
  ∧ (Event.status event ∉
       [EventStatus.completed; EventStatus.paid_out; EventStatus.cancelled] →
     ∃ ev s', cancelEvent e s = (Ok ev, s')
              ∧ (Event.status <$> events s' !! e) = Some EventStatus.cancelled)
  (* update *)
  ∧ (∀ input, Event.status event ∈ [EventStatus.completed; EventStatus.paid_out] →
              updateEvent e input s = (Throw (mkAppError CannotUpdateCompleted 400), s))
  ∧ (∀ input st, Event.status event ∉ [EventStatus.completed; EventStatus.paid_out] →
                 ue_status input = Some st →
                 ∃ ev s', updateEvent e input s = (Ok ev, s')
                          ∧ (Event.status <$> events s' !! e) = Some st)
  (* distribute *)
  ∧ (∀ a, pendingPayouts s e = [] →
          distributePayouts e a s = (Throw (mkAppError NoPendingPayouts 400), s))
  ∧ (∀ a r s', distributePayouts e a s = (Ok r, s') →
               (Event.status <$> events s' !! e) = Some EventStatus.paid_out)
  (* one way after resolution *)
  ∧ (∀ c, resolved event →
          ∃ ev', events (exec s c) !! e = Some ev' ∧ resolved ev'
                 ∧ (Event.status event = EventStatus.paid_out
                    → Event.status ev' = EventStatus.paid_out)).
Proof.
  intros Hev.
  split; [intros w a; by apply resolveEvent_refused|].
  split.
  { intros w a r s' Hres.
    destruct (resolveEvent_ok_completed e w a s s' r Hres) as (ev & Hev' & Hst & Hdone & _).
    rewrite Hev in Hev'. injection Hev' as <-. done. }
  split.
  { intros Hin. unfold cancelEvent. rewrite Hev. by rewrite bool_decide_eq_true_2. }
  split.
  { intros Hnin. unfold cancelEvent. rewrite Hev. rewrite bool_decide_eq_false_2 by done.
    eexists _, _. split; [reflexivity|]. simpl. by rewrite lookup_alter_eq, Hev. }
  split.
  { intros input Hin. unfold updateEvent. rewrite Hev. by rewrite bool_decide_eq_true_2. }
  split.
  { intros input st Hnin Hst. unfold updateEvent. rewrite Hev.
    rewrite bool_decide_eq_false_2 by done.
    eexists _, _. split; [reflexivity|]. simpl. rewrite lookup_alter_eq, Hev. simpl.
    unfold applyUpdate. rewrite Hst. by destruct (ue_lockTime input). }
  split; [intros a; apply distributePayouts_throw|].
  split.
  { intros a r s' Hd. destruct (distributePayouts_ok e a s s' r Hd) as (_ & _ & ->).
    simpl. by rewrite lookup_alter_eq, Hev. }
  intros c Hres. by apply exec_keeps_resolved.
Qed.

Lemma event_status_guards_witness :
  cancelEvent Scenario.coinFlipId Scenario.settled
    = (Throw (mkAppError CannotCancel 400), Scenario.settled)
  ∧ updateEvent Scenario.coinFlipId (mkUpdateEvent None (Some EventStatus.active))
                Scenario.settled
    = (Throw (mkAppError CannotUpdateCompleted 400), Scenario.settled)
  ∧ ∃ err, resolveEvent Scenario.coinFlipId Letter.B Scenario.admin Scenario.settled
           = (Throw err, Scenario.settled) ∧ statusCode err = 400%Z.
Proof.
  assert (Hev : ∃ ev, events Scenario.settled !! Scenario.coinFlipId = Some ev
                      ∧ Event.status ev = EventStatus.completed)
    by (vm_compute; eexists; split; reflexivity).
  destruct Hev as (ev & Hev & Hst).
  destruct (event_status_guards Scenario.settled Scenario.coinFlipId ev Hev)
    as (Hresolve & _ & Hcancel & _ & Hupdate & _).
  split; [|split].
  - apply Hcancel. rewrite Hst. apply elem_of_cons. by left.
  - apply Hupdate. rewrite Hst. apply elem_of_cons. by left.
  - apply Hresolve; by rewrite Hst.
Defined.

(** ** A resolution that refunds everyone *)

Lemma refundsOfBet_added (s s2 : Store) (added : list Ledger.t) (k : Id) :
  ledger s2 = ledger s ++ added →
  (∀ tx, tx ∈ added →
         ¬ (Ledger.referenceType tx = Some "event_refund"%string
            ∧ Ledger.referenceId tx = Some k)) →
  refundsOfBet s2 k = refundsOfBet s k.
Proof.
  intros Hl Hnone. unfold refundsOfBet. rewrite Hl, filter_app.
  rewrite (filter_none _ added Hnone). apply app_nil_r.
Qed.

Lemma refundsOfBet_same (s s2 : Store) (k : Id) :
  ledger s2 = ledger s → refundsOfBet s2 k = refundsOfBet s k.
Proof. intros Hl. unfold refundsOfBet. by rewrite Hl. Qed.

Lemma refundsOfBet_one (s s2 : Store) (tx : Ledger.t) (k : Id) :
  ledger s2 = ledger s ++ [tx] →
  Ledger.referenceType tx ≠ Some "event_refund"%string →
  refundsOfBet s2 k = refundsOfBet s k.
Proof.
  intros Hl Hty. apply (refundsOfBet_added s s2 [tx] k Hl).
  intros tx' Hin [Href _]. apply list_elem_of_singleton in Hin. by subst tx'.
Qed.

(** No call places a bet on a resolved event or moves a bet to it. *)
Lemma exec_betEvent (s : Store) (c : Call) (e : Id) (ev : Event.t) :
  events s !! e = Some ev → resolved ev →
  ∀ k, betEvent (exec s c) k = Some e ↔ betEvent s k = Some e.
Proof.
  intros Hev Hres k.
  destruct c as [now u input|e' input|e'|e' w a|e' a|e'|chain u input|chain rid a]; simpl.
  - destruct (placeBet_shape now u input s) as [->|(event & debit & Hev' & Hact & _ & _ & ->)];
      [done|].
    unfold betEvent. simpl.
    destruct (decide (k = fresh (dom (eventBets s)))) as [->|Hne].
    + rewrite lookup_insert_eq. simpl.
      assert (Hnone : eventBets s !! fresh (dom (eventBets s)) = None)
        by (apply not_elem_of_dom, is_fresh).
      rewrite Hnone. simpl. split; [|done].
      intros [= Heq]. rewrite Heq, Hev in Hev'. injection Hev' as <-.
      unfold resolved in Hres. rewrite Hact in Hres. by destruct Hres.
    + by rewrite lookup_insert_ne.
  - by destruct (updateEvent_shape e' input s) as [->|(event & _ & _ & _ & ->)].
  - by destruct (cancelEvent_shape e' s) as [->|(event & _ & _ & _ & _ & ->)].
  - destruct (resolveEvent_shape e' w a s) as [->|(event & calc & _ & _ & _ & ->)];
      [done|].
    destruct (resolveEvent_written e' w a s calc) as (_ & _ & Hbets). by rewrite Hbets.
  - by destruct (distributePayouts_shape e' a s) as [->| ->].
  - destruct (refundEvent_shape e' s) as [->|(event & _ & _ & ->)]; [done|].
    unfold betEvent. simpl.
    by rewrite (lookup_foldl_alter_proj _ Bet.eventId fst).
  - by destruct (requestWithdrawal_shape chain u input s) as [->|(rq & debit & _ & _ & ->)].
  - by destruct (processWithdrawal_shape chain rid a s)
      as [->|[(f & ->)|(f & credit & _ & _ & ->)]].
Qed.

(** No call appends a refund credit for a bet of a resolved event. *)
Lemma exec_refundsOfBet (s : Store) (c : Call) (e : Id) (ev : Event.t) (k : Id) :
  events s !! e = Some ev → resolved ev → betEvent s k = Some e →
  refundsOfBet (exec s c) k = refundsOfBet s k.
Proof.
  intros Hev Hres Hk.
  destruct c as [now u input|e' input|e'|e' w a|e' a|e'|chain u input|chain rid a]; simpl.
  - destruct (placeBet_shape now u input s) as [->|(event & debit & _ & _ & Hty & _ & ->)];
      [done|].
    apply (refundsOfBet_one _ _ debit); [done|]. by rewrite Hty.
  - by destruct (updateEvent_shape e' input s) as [->|(event & _ & _ & _ & ->)].
  - by destruct (cancelEvent_shape e' s) as [->|(event & _ & _ & _ & _ & ->)].
  - destruct (resolveEvent_shape e' w a s) as [->|(event & calc & _ & _ & _ & ->)];
      [done|].
    destruct (resolveEvent_written e' w a s calc) as (_ & Hledger & _).
    by apply refundsOfBet_same.
  - destruct (distributePayouts_shape e' a s) as [->| ->]; [done|].
    eapply refundsOfBet_added; [reflexivity|].
    intros tx Hin [Hty _]. apply list_elem_of_fmap in Hin as (kp & -> & _). done.
  - destruct (refundEvent_shape e' s) as [->|(event & Hev' & Hcanc & ->)]; [done|].
    eapply refundsOfBet_added; [reflexivity|].
    intros tx Hin [_ Hid]. apply list_elem_of_fmap in Hin as ([k' b'] & -> & Hin).
    simpl in Hid. injection Hid as ->.
    apply activeBetsOf_elem in Hin as (Hb' & He' & _).
    unfold betEvent in Hk. rewrite Hb' in Hk. simpl in Hk.
    injection Hk as Hk. rewrite He' in Hk. subst e'.
    rewrite Hev in Hev'. injection Hev' as <-.
    unfold resolved in Hres. rewrite Hcanc in Hres. by destruct Hres.
  - destruct (requestWithdrawal_shape chain u input s) as [->|(rq & debit & Hty & _ & ->)];
      [done|].
    apply (refundsOfBet_one _ _ debit); [done|]. by rewrite Hty.
  - destruct (processWithdrawal_shape chain rid a s)
      as [->|[(f & ->)|(f & credit & Hty & _ & ->)]]; [done|done|].
    apply (refundsOfBet_one _ _ credit); [done|]. by rewrite Hty.
Qed.

Lemma execAll_resolved (e : Id) (calls : list Call) (s : Store) (ev : Event.t) :
  events s !! e = Some ev → resolved ev →
  (∃ ev', events (execAll s calls) !! e = Some ev' ∧ resolved ev')
  ∧ (∀ k, betEvent (execAll s calls) k = Some e ↔ betEvent s k = Some e)
  ∧ (∀ k, betEvent s k = Some e → refundsOfBet (execAll s calls) k = refundsOfBet s k).
Proof.
  revert s ev. induction calls as [|c calls IH]; intros s ev Hev Hres.
  - simpl. split; [by exists ev|]. done.
  - unfold execAll. cbn [foldl]. fold (execAll (exec s c) calls).
    destruct (exec_keeps_resolved s c e ev Hev Hres) as (ev1 & Hev1 & Hres1 & _).
    destruct (IH (exec s c) ev1 Hev1 Hres1) as (Hstill & Hbets & Hrefunds).
    split; [exact Hstill|]. split.
    + intros k. rewrite Hbets. by apply (exec_betEvent s c e ev).
    + intros k Hk. rewrite Hrefunds by (by apply (exec_betEvent s c e ev)).
      by apply (exec_refundsOfBet s c e ev).
Qed.

Lemma refundEvent_refused (e : Id) (s : Store) (ev : Event.t) :
  events s !! e = Some ev → Event.status ev ≠ EventStatus.cancelled →
  refundEvent e s = (Throw (mkAppError EventMustBeCancelled 400), s).
Proof.
  intros Hev Hst. unfold refundEvent. rewrite Hev.
  by rewrite bool_decide_eq_true_2.
Qed.

(** C10: a resolution with an empty winning pool leaves the event
    completed, not cancelled, marks the bets that were active refunded and
    writes nothing to the ledger; [refundEvent] refuses every event that is
    not cancelled.  From then on, whatever calls follow, the event cannot
    be cancelled, [refundEvent] on it is refused and leaves the store as it
    is, and no refund credit is ever appended to the ledger for any of the
    bets that were marked refunded. *)
Theorem degenerate_resolution_never_credited (s : Store) (e : Id) (w : Letter.t)
    (adminId : Id) (event : Event.t) (choice : Choice.t) (calls : list Call) :
  events s !! e = Some event →
  Event.status event = EventStatus.active ∨ Event.status event = EventStatus.locked →
  findChoice w (Event.choices event) = Some choice →
  Choice.totalPool choice == 0 →
  let s' := (resolveEvent e w adminId s).2 in
  let later := execAll s' calls in
  (* what the resolution writes *)
  (Event.status <$> events s' !! e) = Some EventStatus.completed
  ∧ (∀ k b, eventBets s !! k = Some b → Bet.eventId b = e →
            Bet.status b = BetStatus.active →
            eventBets s' !! k = Some (Bet.with_status BetStatus.refunded b))
  ∧ ledger s' = ledger s
  (* the guard of the refund path *)
  ∧ (∀ st e2 ev2, events st !! e2 = Some ev2 →
                  Event.status ev2 ≠ EventStatus.cancelled →
                  refundEvent e2 st = (Throw (mkAppError EventMustBeCancelled 400), st))
  (* ever after *)
  ∧ cancelEvent e later = (Throw (mkAppError CannotCancel 400), later)
  ∧ refundEvent e later = (Throw (mkAppError EventMustBeCancelled 400), later)
  ∧ (∀ k b, eventBets s !! k = Some b → Bet.eventId b = e →
            Bet.status b = BetStatus.active →
            betEvent later k = Some e
            ∧ refundsOfBet later k = refundsOfBet s k).
Proof.
  intros Hev Hst Hch Hz s' later.
  destruct (resolveEvent_degenerate s e w adminId event choice Hev Hst Hch Hz)
    as (s1 & Hres & _ & _ & _ & Hledger & Hevents & Hbets).
  assert (Hs' : s' = s1) by (unfold s'; by rewrite Hres).
  assert (Hev1 : events s' !! e
                 = Some (Event.with_winningSide (Some w)
                           (Event.with_status EventStatus.completed event)))
    by (by rewrite Hs', Hevents, lookup_alter_eq, Hev).
  assert (Hres1 : resolved (Event.with_winningSide (Some w)
                              (Event.with_status EventStatus.completed event)))
    by (by left).
  assert (Hrefunded : ∀ k b, eventBets s !! k = Some b → Bet.eventId b = e →
                             Bet.status b = BetStatus.active →
                             eventBets s' !! k = Some (Bet.with_status BetStatus.refunded b)).
  { intros k b Hb He Hact. rewrite Hs', Hbets.
    rewrite decide_True by (apply activeBetsOf_key; eauto). by rewrite Hb. }
  destruct (execAll_resolved e calls s' _ Hev1 Hres1) as ((ev2 & Hev2 & Hres2) & Hkeep & Hnone).
  fold later in Hev2, Hkeep, Hnone.
  split; [by rewrite Hev1|]. split; [exact Hrefunded|].
  split; [by rewrite Hs'|]. split; [intros st e2 ev0; apply refundEvent_refused|].
  split.
  { unfold cancelEvent. rewrite Hev2. rewrite bool_decide_eq_true_2; [done|].
    destruct Hres2 as [-> | ->];
      repeat (first [ apply elem_of_cons; by left | apply elem_of_cons; right ]). }
  split.
  { apply (refundEvent_refused e later ev2 Hev2). by destruct Hres2 as [-> | ->]. }
  intros k b Hb He Hact.
  assert (Hk : betEvent s' k = Some e).
  { unfold betEvent. rewrite (Hrefunded k b Hb He Hact). simpl. by rewrite He. }
  split; [by apply Hkeep|].
  rewrite (Hnone k Hk). apply refundsOfBet_same. by rewrite Hs'.
Qed.

Lemma degenerate_resolution_never_credited_witness :
  let s' := (resolveEvent Scenario.coinFlipId Letter.A Scenario.admin Scenario.oneSided).2 in
  let later := execAll s' [CallCancelEvent Scenario.coinFlipId;
                           CallRefundEvent Scenario.coinFlipId] in
  (Event.status <$> events s' !! Scenario.coinFlipId) = Some EventStatus.completed
  ∧ refundEvent Scenario.coinFlipId later
    = (Throw (mkAppError EventMustBeCancelled 400), later)
  ∧ refundsOfBet later 1%positive = [].
Proof.
  cbv zeta.
  assert (Hev : events Scenario.oneSided !! Scenario.coinFlipId
                = Some (Event.mk EventStatus.active None None 0.01
                                 [Choice.mk Letter.A 0; Choice.mk Letter.B 500]))
    by (vm_compute; reflexivity).
  destruct (degenerate_resolution_never_credited Scenario.oneSided Scenario.coinFlipId
              Letter.A Scenario.admin _ (Choice.mk Letter.A 0)
              [CallCancelEvent Scenario.coinFlipId; CallRefundEvent Scenario.coinFlipId]
              Hev (or_introl eq_refl) eq_refl (Qeq_refl 0))
    as (Hdone & _ & _ & _ & _ & Hrefund & Hnever).
  split; [exact Hdone|]. split; [exact Hrefund|].
  destruct (Hnever 1%positive (Bet.mk Scenario.coinFlipId Scenario.bob Letter.B 500
                                      BetStatus.active)) as [_ ->];
    [vm_compute; reflexivity|reflexivity|reflexivity|].
  vm_compute. reflexivity.
Defined.

(** ** The ledger is append-only and every row is balanced

    The part of the running-balance invariant that every call keeps: a call
    only appends rows, and each row it appends satisfies
    [balanceAfter == balanceBefore + amount]. *)

Lemma payoutCredit_balanced (committed : Store) (kp : Id * Payout.t) :
  entryBalanced (payoutCredit committed kp) = true.
Proof. apply Qeq_bool_iff. reflexivity. Qed.

Lemma refundCredit_balanced (committed : Store) (kb : Id * Bet.t) :
  entryBalanced (refundCredit committed kb) = true.
Proof. apply Qeq_bool_iff. reflexivity. Qed.

Lemma exec_appends_balanced_rows (s : Store) (c : Call) :
  ∃ added, ledger (exec s c) = ledger s ++ added
           ∧ forallb entryBalanced added = true.
Proof.
  assert (Hsame : ∀ s', ledger s' = ledger s →
                        ∃ added, ledger s' = ledger s ++ added
                                 ∧ forallb entryBalanced added = true).
  { intros s' ->. exists []. by rewrite app_nil_r. }
  assert (Hone : ∀ s' tx, ledger s' = ledger s ++ [tx] → entryBalanced tx = true →
                          ∃ added, ledger s' = ledger s ++ added
                                   ∧ forallb entryBalanced added = true).
  { intros s' tx Hl Hb. exists [tx]. simpl. by rewrite Hb. }
  destruct c as [now u input|e' input|e'|e' w a|e' a|e'|chain u input|chain rid a]; simpl.
  - destruct (placeBet_shape now u input s)
      as [->|(event & debit & _ & _ & _ & Hb & ->)]; [by apply Hsame|].
    by apply (Hone _ debit).
  - destruct (updateEvent_shape e' input s) as [->|(event & _ & _ & _ & ->)];
      by apply Hsame.
  - destruct (cancelEvent_shape e' s) as [->|(event & _ & _ & _ & _ & ->)];
      by apply Hsame.
  - destruct (resolveEvent_shape e' w a s) as [->|(event & calc & _ & _ & _ & ->)];
      [by apply Hsame|].
    destruct (resolveEvent_written e' w a s calc) as (_ & Hledger & _).
    by apply Hsame.
  - destruct (distributePayouts_shape e' a s) as [->| ->]; [by apply Hsame|].
    eexists. split; [reflexivity|]. apply forallb_forall. intros tx Hin.
    apply in_map_iff in Hin as (kp & <- & _). apply payoutCredit_balanced.
  - destruct (refundEvent_shape e' s) as [->|(event & _ & _ & ->)]; [by apply Hsame|].
    eexists. split; [reflexivity|]. apply forallb_forall. intros tx Hin.
    apply in_map_iff in Hin as (kb & <- & _). apply refundCredit_balanced.
  - destruct (requestWithdrawal_shape chain u input s)
      as [->|(rq & debit & _ & Hb & ->)]; [by apply Hsame|].
    by apply (Hone _ debit).
  - destruct (processWithdrawal_shape chain rid a s)
      as [->|[(f & ->)|(f & credit & _ & Hb & ->)]]; [by apply Hsame|by apply Hsame|].
    by apply (Hone _ credit).
Qed.

(** * Further properties of the services *)

(** ** Refusals *)

Lemma placeBet_check_ok_iff (now : Z) (u : Id) (input : PlaceBetInput) (s : Store) :
  isOk (placeBet_check now u input s) = true
  ↔ ∃ event, events s !! pb_eventId input = Some event
             ∧ Event.status event = EventStatus.active
             ∧ (∀ t, Event.lockTime event = Some t → (now < t)%Z)
             ∧ is_Some (findChoice (pb_choiceLetter input) (Event.choices event))
             ∧ pb_amount input <= totalChips (getUserBalances s u).
Proof.
  unfold placeBet_check. cbv zeta. split.
  - destruct (events s !! pb_eventId input) as [event|]; [|discriminate].
    destruct (bool_decide (Event.status event = EventStatus.active)) eqn:Hact;
      [|discriminate].
    apply bool_decide_eq_true in Hact. simpl.
    destruct (match Event.lockTime event with
              | Some t => bool_decide (t ≤ now)%Z
              | None => false
              end) eqn:Hlock; [discriminate|].
    destruct (findChoice _ _) as [choice|] eqn:Hch; [|discriminate].
    destruct (Qltb _ _) eqn:Hlt; [discriminate|]. intros _.
    apply Qltb_ge in Hlt. exists event. repeat split; try done.
    intros t Ht. rewrite Ht in Hlock. apply bool_decide_eq_false in Hlock. lia.
  - intros (event & -> & Hact & Hopen & [choice Hch] & Hle).
    rewrite bool_decide_eq_true_2 by done. simpl.
    destruct (Event.lockTime event) as [t|] eqn:Hlock.
    + specialize (Hopen t eq_refl).
      rewrite bool_decide_eq_false_2 by lia. rewrite Hch.
      apply Qltb_ge in Hle. by rewrite Hle.
    + rewrite Hch. apply Qltb_ge in Hle. by rewrite Hle.
Qed.

Lemma placeBet_isOk (now : Z) (u : Id) (input : PlaceBetInput) (s : Store) :
  isOk (placeBet now u input s).1 = isOk (placeBet_check now u input s).
Proof.
  unfold placeBet. destruct (placeBet_check now u input s); [|done].
  by destruct (placeBet_commit _ _ _ _).
Qed.

(** [placeBet] accepts a bet exactly when the event exists, is active, has
    no lock time or one that lies in the future, lists the choice, and the
    user's [totalChips] cover the amount.  In particular a bet at or after
    the lock time is refused even though the status is still active. *)
Theorem placeBet_accepts_iff (now : Z) (u : Id) (input : PlaceBetInput) (s : Store) :
  (isOk (placeBet now u input s).1 = true
   ↔ ∃ event, events s !! pb_eventId input = Some event
              ∧ Event.status event = EventStatus.active
              ∧ (∀ t, Event.lockTime event = Some t → (now < t)%Z)
              ∧ is_Some (findChoice (pb_choiceLetter input) (Event.choices event))
              ∧ pb_amount input <= totalChips (getUserBalances s u))
  ∧ (∀ event t, events s !! pb_eventId input = Some event →
                Event.status event = EventStatus.active →
                Event.lockTime event = Some t → (t ≤ now)%Z →
                placeBet now u input s = (Throw (mkAppError BettingLocked 400), s)).
Proof.
  split.
  - rewrite placeBet_isOk. apply placeBet_check_ok_iff.
  - intros event t Hev Hact Hlock Hle. unfold placeBet, placeBet_check.
    rewrite Hev, Hlock. rewrite bool_decide_eq_true_2 by done. simpl.
    by rewrite bool_decide_eq_true_2 by done.
Qed.

(** A call that throws has written nothing, with one exception: when the
    transfer of a withdrawal fails, [processWithdrawal] rejects the request
    and appends the compensating credit before it throws with status 500. *)
Theorem failed_calls_write_nothing (s : Store) :
  (∀ now u input, isOk (placeBet now u input s).1 = false →
                  (placeBet now u input s).2 = s)
  ∧ (∀ e input, isOk (updateEvent e input s).1 = false → (updateEvent e input s).2 = s)
  ∧ (∀ e, isOk (cancelEvent e s).1 = false → (cancelEvent e s).2 = s)
  ∧ (∀ e w a, isOk (resolveEvent e w a s).1 = false → (resolveEvent e w a s).2 = s)
  ∧ (∀ e a, isOk (distributePayouts e a s).1 = false → (distributePayouts e a s).2 = s)
  ∧ (∀ e, isOk (refundEvent e s).1 = false → (refundEvent e s).2 = s)
  ∧ (∀ chain u input, isOk (requestWithdrawal chain u input s).1 = false →
                      (requestWithdrawal chain u input s).2 = s)
  ∧ (∀ chain r a err, (processWithdrawal chain r a s).1 = Throw err →
                      (statusCode err ≠ 500%Z ∧ (processWithdrawal chain r a s).2 = s)
                      ∨ (err = mkAppError WithdrawalFailedRefunded 500
                         ∧ length (ledger (processWithdrawal chain r a s).2)
                           = S (length (ledger s)))).
Proof.
  split.
  { intros now u input. unfold placeBet.
    destruct (placeBet_check now u input s); [|done].
    by destruct (placeBet_commit _ _ _ _). }
  split.
  { intros e input. unfold updateEvent. destruct (events s !! e); [|done].
    by destruct (bool_decide _). }
  split.
  { intros e. unfold cancelEvent. destruct (events s !! e); [|done].
    by destruct (bool_decide _). }
  split.
  { intros e w a. unfold resolveEvent. destruct (events s !! e) as [event|]; [|done].
    destruct (Event.status event); simpl; try done;
      by destruct (calculatePayouts e w s). }
  split.
  { intros e a. unfold distributePayouts. destruct (bool_decide _); [done|].
    by destruct (foldl _ _ _). }
  split.
  { intros e. unfold refundEvent. destruct (events s !! e); [|done].
    destruct (bool_decide _); [done|]. destruct (bool_decide _); [done|].
    by destruct (foldl _ _ _). }
  split.
  { intros chain u input. unfold requestWithdrawal. cbv zeta.
    destruct (Qltb _ _); [done|].
    by destruct (if bool_decide _ then _ else _). }
  intros chain r a err. unfold processWithdrawal.
  destruct (cashOutRequests s !! r) as [request|];
    [|intros [= <-]; left; by split].
  destruct (bool_decide _); [intros [= <-]; left; by split|].
  destruct (transfer chain request); [done|].
  intros [= <-]. right. split; [done|]. simpl. rewrite length_app. simpl. lia.
Qed.

(** ** Sums over the bet table *)

Lemma Qsum_Permutation (l l' : list Q) : l ≡ₚ l' → Qsum l == Qsum l'.
Proof.
  induction 1 as [|x l l' _ IH|x y l|l l' l'' _ IH1 _ IH2].
  - reflexivity.
  - rewrite !Qsum_cons, IH. reflexivity.
  - rewrite !Qsum_cons. ring.
  - by rewrite IH1.
Qed.

Lemma sumOver_insert (P : Bet.t → Prop) `{∀ b, Decision (P b)} (m : gmap Id Bet.t)
    (k : Id) (b : Bet.t) :
  m !! k = None →
  sumOver P (<[k:=b]> m) == sumOver P m + (if decide (P b) then Bet.amount b else 0).
Proof.
  intros Hk. unfold sumOver.
  rewrite (Qsum_Permutation _ (Bet.amount <$> filter P ((k, b) :: map_to_list m).*2)).
  2:{ by rewrite (map_to_list_insert m k b Hk). }
  rewrite fmap_cons, filter_cons. simpl.
  destruct (decide (P b)).
  - rewrite fmap_cons, Qsum_cons. ring.
  - ring.
Qed.

Lemma filter_terms (P : Bet.t → Prop) `{∀ b, Decision (P b)}
    (P' : Id * Id * Letter.t * Q → Prop) `{∀ t, Decision (P' t)} (l : list Bet.t) :
  (∀ b, P b ↔ P' (betTerms b)) →
  Bet.amount <$> filter P l = snd <$> filter P' (betTerms <$> l).
Proof.
  intros HP. induction l as [|b l IH]; [done|].
  rewrite fmap_cons, !filter_cons.
  destruct (decide (P b)) as [Hb|Hb].
  - rewrite decide_True by (by apply HP). by rewrite !fmap_cons, IH.
  - rewrite decide_False by (by rewrite <- HP). exact IH.
Qed.

(** A sum that looks at the terms of the bets only does not see a change
    of status. *)
Lemma sumOver_terms (P : Bet.t → Prop) `{∀ b, Decision (P b)}
    (P' : Id * Id * Letter.t * Q → Prop) `{∀ t, Decision (P' t)} (m m' : gmap Id Bet.t) :
  (∀ b, P b ↔ P' (betTerms b)) →
  (∀ k, betTerms <$> m' !! k = betTerms <$> m !! k) →
  sumOver P m' = sumOver P m.
Proof.
  intros HP Hsame. unfold sumOver.
  rewrite !(filter_terms P P' _ HP).
  assert (Hmaps : betTerms <$> m' = betTerms <$> m).
  { apply map_eq. intros k. by rewrite !lookup_fmap. }
  assert (Hlist : ∀ m0 : gmap Id Bet.t,
             betTerms <$> (map_to_list m0).*2 = (map_to_list (betTerms <$> m0)).*2).
  { intros m0. rewrite map_to_list_fmap, <- !list_fmap_compose.
    apply list_fmap_ext. by intros _ [k b] _. }
  by rewrite !Hlist, Hmaps.
Qed.

Lemma stakes_terms (s s' : Store) (e : Id) (l : Letter.t) :
  (∀ k, betTerms <$> eventBets s' !! k = betTerms <$> eventBets s !! k) →
  stakes s' e l = stakes s e l.
Proof.
  intros Hsame. unfold stakes.
  apply (sumOver_terms _ (λ t, t.1.1.1 = e ∧ t.1.2 = l)); [|exact Hsame].
  intros b. unfold betTerms. simpl. tauto.
Qed.

(** ** The bet table under every call *)

Lemma settledOnce_refl (b : Bet.t) : settledOnce b b.
Proof. by split. Qed.

Lemma settledOnce_trans (b1 b2 b3 : Bet.t) :
  settledOnce b1 b2 → settledOnce b2 b3 → settledOnce b1 b3.
Proof.
  intros [Ht1 Hs1] [Ht2 Hs2]. split; [congruence|].
  intros Hst. specialize (Hs1 Hst). subst b2. by apply Hs2.
Qed.

Lemma settledOnce_active (b : Bet.t) (st : BetStatus.t) :
  Bet.status b = BetStatus.active → settledOnce b (Bet.with_status st b).
Proof. intros Hact. split; [done|]. by rewrite Hact. Qed.

Lemma calculatePayouts_refund_keys (e : Id) (w : Letter.t) (s : Store)
    (calc : PayoutCalculation) (k : Id) :
  calculatePayouts e w s = Ok calc →
  k ∈ ri_betId <$> refunds calc → k ∈ (activeBetsOf s e).*1.
Proof.
  unfold calculatePayouts. destruct (events s !! e) as [event|]; [|discriminate].
  destruct (findChoice w (Event.choices event)) as [choice|]; [|discriminate].
  cbv zeta. destruct (Qeq_bool _ _); intros [= <-]; simpl.
  - by rewrite <- list_fmap_compose.
  - intros Hin. by apply elem_of_nil in Hin.
Qed.

Lemma resolveEvent_bets (e : Id) (w : Letter.t) (adminId : Id) (s : Store)
    (calc : PayoutCalculation) (k : Id) :
  calculatePayouts e w s = Ok calc →
  let s' := foldl markRefunded
              (foldl (createPayout e adminId)
                 (set_eventBets (fmap (markLost e w))
                    (set_eventBets (fmap (markWon e w))
                       (set_events
                          (alter (λ ev, Event.with_winningSide (Some w)
                                          (Event.with_status EventStatus.completed ev)) e)
                          s)))
                 (payouts calc))
              (refunds calc) in
  match eventBets s !! k with
  | Some b => ∃ b', eventBets s' !! k = Some b' ∧ settledOnce b b'
  | None => eventBets s' !! k = None
  end.
Proof.
  intros Hcalc. cbv zeta. rewrite foldl_markRefunded. simpl.
  match goal with
  | |- context [foldl (createPayout e adminId) ?st ?ps] =>
      destruct (foldl_createPayout_frame e adminId st ps) as (_ & _ & -> & _ & _)
  end.
  simpl. rewrite (lookup_foldl_alter _ ri_betId) by (by intros []).
  rewrite !lookup_fmap.
  destruct (eventBets s !! k) as [b|] eqn:Hb; simpl; [|by destruct (decide _)].
  destruct (markLost_markWon_inactive e w b) as [_ Hsame].
  destruct (decide (k ∈ ri_betId <$> refunds calc)) as [Hin|Hnin].
  - apply (calculatePayouts_refund_keys e w s calc k Hcalc), activeBetsOf_key in Hin
      as (b0 & Hb0 & _ & Hact).
    rewrite Hb in Hb0. injection Hb0 as <-.
    eexists. split; [reflexivity|]. rewrite with_status_markLost_markWon.
    by apply settledOnce_active.
  - eexists. split; [reflexivity|]. split.
    + unfold markLost, markWon. repeat (destruct (decide _); simpl); done.
    + intros Hst. apply Hsame. tauto.
Qed.

Lemma exec_bets_step (s : Store) (c : Call) (k : Id) :
  match eventBets s !! k with
  | Some b => ∃ b', eventBets (exec s c) !! k = Some b' ∧ settledOnce b b'
  | None =>
      eventBets (exec s c) !! k = None
      ∨ ∃ now u input,
          c = CallPlaceBet now u input
          ∧ k = fresh (dom (eventBets s))
          ∧ eventBets (exec s c) !! k
            = Some (Bet.mk (pb_eventId input) u (pb_choiceLetter input) (pb_amount input)
                           BetStatus.active)
  end.
Proof.
  assert (Hsame : ∀ s', eventBets s' = eventBets s →
            match eventBets s !! k with
            | Some b => ∃ b', eventBets s' !! k = Some b' ∧ settledOnce b b'
            | None => eventBets s' !! k = None
            end).
  { intros s' ->. destruct (eventBets s !! k) as [b|]; [|done].
    exists b. split; [done|apply settledOnce_refl]. }
  assert (Hweak : ∀ s',
            match eventBets s !! k with
            | Some b => ∃ b', eventBets s' !! k = Some b' ∧ settledOnce b b'
            | None => eventBets s' !! k = None
            end →
            match eventBets s !! k with
            | Some b => ∃ b', eventBets s' !! k = Some b' ∧ settledOnce b b'
            | None => eventBets s' !! k = None
                      ∨ ∃ now u input, c = CallPlaceBet now u input
                          ∧ k = fresh (dom (eventBets s))
                          ∧ eventBets s' !! k
                            = Some (Bet.mk (pb_eventId input) u (pb_choiceLetter input)
                                           (pb_amount input) BetStatus.active)
            end).
  { intros s' H. destruct (eventBets s !! k); [done|by left]. }
  destruct c as [now u input|e' input|e'|e' w a|e' a|e'|chain u input|chain rid a]; simpl.
  - destruct (placeBet_shape now u input s)
      as [->|(event & debit & _ & _ & _ & _ & ->)]; [by apply Hweak, Hsame|].
    simpl. destruct (decide (k = fresh (dom (eventBets s)))) as [->|Hne].
    + assert (Hnone : eventBets s !! fresh (dom (eventBets s)) = None)
        by (apply not_elem_of_dom, is_fresh).
      rewrite Hnone. right. exists now, u, input.
      by rewrite lookup_insert_eq.
    + rewrite lookup_insert_ne by done.
      destruct (eventBets s !! k) as [b|]; [|by left].
      exists b. split; [done|apply settledOnce_refl].
  - apply Hweak.
    by destruct (updateEvent_shape e' input s) as [->|(event & _ & _ & _ & ->)];
      apply Hsame.
  - apply Hweak.
    by destruct (cancelEvent_shape e' s) as [->|(event & _ & _ & _ & _ & ->)];
      apply Hsame.
  - apply Hweak.
    destruct (resolveEvent_shape e' w a s) as [->|(event & calc & _ & _ & Hcalc & ->)];
      [by apply Hsame|].
    apply (resolveEvent_bets e' w a s calc k Hcalc).
  - apply Hweak. by destruct (distributePayouts_shape e' a s) as [->| ->]; apply Hsame.
  - apply Hweak.
    destruct (refundEvent_shape e' s) as [->|(event & _ & _ & ->)]; [by apply Hsame|].
    simpl. rewrite (lookup_foldl_alter _ fst) by (by intros []).
    destruct (eventBets s !! k) as [b|] eqn:Hb; [|by destruct (decide _)].
    destruct (decide (k ∈ (activeBetsOf s e').*1)) as [Hin|Hnin].
    + apply activeBetsOf_key in Hin as (b0 & Hb0 & _ & Hact).
      rewrite Hb in Hb0. injection Hb0 as <-.
      eexists. split; [reflexivity|]. by apply settledOnce_active.
    + exists b. split; [done|apply settledOnce_refl].
  - apply Hweak.
    by destruct (requestWithdrawal_shape chain u input s)
      as [->|(rq & debit & _ & _ & ->)]; apply Hsame.
  - apply Hweak.
    by destruct (processWithdrawal_shape chain rid a s)
      as [->|[(f & ->)|(f & credit & _ & _ & ->)]]; apply Hsame.
Qed.

(** Bet rows are never deleted, and never rewritten except for their
    status: whatever calls run, a bet keeps its event, user, choice and
    amount, and a bet that has left the active status (won, lost or
    refunded) stays exactly as it is. *)
Theorem bets_settle_once (s : Store) (calls : list Call) (k : Id) (b : Bet.t) :
  eventBets s !! k = Some b →
  ∃ b', eventBets (execAll s calls) !! k = Some b'
        ∧ Bet.eventId b' = Bet.eventId b ∧ Bet.userId b' = Bet.userId b
        ∧ Bet.choiceLetter b' = Bet.choiceLetter b ∧ Bet.amount b' = Bet.amount b
        ∧ (Bet.status b ≠ BetStatus.active → b' = b).
Proof.
  intros Hb.
  assert (Hgen : ∃ b', eventBets (execAll s calls) !! k = Some b' ∧ settledOnce b b').
  { revert s b Hb. induction calls as [|c calls IH]; intros s b Hb.
    - exists b. split; [done|apply settledOnce_refl].
    - unfold execAll. cbn [foldl]. fold (execAll (exec s c) calls).
      pose proof (exec_bets_step s c k) as Hstep. rewrite Hb in Hstep.
      destruct Hstep as (b1 & Hb1 & Hs1).
      destruct (IH (exec s c) b1 Hb1) as (b2 & Hb2 & Hs2).
      exists b2. split; [done|]. by apply (settledOnce_trans b b1 b2). }
  destruct Hgen as (b' & Hb' & [Hterms Hfinal]).
  exists b'. unfold betTerms in Hterms. injection Hterms as He Hu Hl Ha.
  repeat split; done.
Qed.

Lemma bets_settle_once_witness :
  eventBets (execAll Scenario.settled
               [CallCancelEvent Scenario.coinFlipId; CallRefundEvent Scenario.coinFlipId;
                CallDistributePayouts Scenario.coinFlipId Scenario.admin]) !! 2%positive
  = Some (Bet.mk Scenario.coinFlipId Scenario.bob Letter.B 500 BetStatus.lost).
Proof.
  assert (Hb : eventBets Scenario.settled !! 2%positive
               = Some (Bet.mk Scenario.coinFlipId Scenario.bob Letter.B 500 BetStatus.lost))
    by (vm_compute; reflexivity).
  destruct (bets_settle_once Scenario.settled
              [CallCancelEvent Scenario.coinFlipId; CallRefundEvent Scenario.coinFlipId;
               CallDistributePayouts Scenario.coinFlipId Scenario.admin]
              2%positive _ Hb) as (b' & Hb' & _ & _ & _ & _ & Hsame).
  rewrite Hb'. f_equal. by apply Hsame.
Defined.

(** ** Pools and stakes *)

Lemma lookup_alter_choices (f : Event.t → Event.t) (e e0 : Id) (m : gmap Id Event.t)
    (ev0 : Event.t) :
  (∀ ev, Event.choices (f ev) = Event.choices ev) →
  alter f e m !! e0 = Some ev0 →
  ∃ ev, m !! e0 = Some ev ∧ Event.choices ev0 = Event.choices ev.
Proof.
  intros Hf. rewrite lookup_alter. destruct (decide (e = e0)) as [->|_].
  - destruct (m !! e0) as [ev|]; [|done]. intros [= <-]. exists ev. by rewrite Hf.
  - intros Hev. by exists ev0.
Qed.

Lemma applyUpdate_choices (input : UpdateEventInput) (ev : Event.t) :
  Event.choices (applyUpdate input ev) = Event.choices ev.
Proof.
  unfold applyUpdate. by destruct (ue_lockTime input), (ue_status input).
Qed.

(** Only [placeBet] writes to the choices of an event. *)
Lemma exec_events_choices (s : Store) (c : Call) (e0 : Id) (ev0 : Event.t) :
  (∀ now u input, c ≠ CallPlaceBet now u input) →
  events (exec s c) !! e0 = Some ev0 →
  ∃ ev, events s !! e0 = Some ev ∧ Event.choices ev0 = Event.choices ev.
Proof.
  intros Hnot.
  assert (Hsame : ∀ s', events s' = events s → events s' !! e0 = Some ev0 →
                        ∃ ev, events s !! e0 = Some ev
                              ∧ Event.choices ev0 = Event.choices ev).
  { intros s' -> Hev. by exists ev0. }
  destruct c as [now u input|e' input|e'|e' w a|e' a|e'|chain u input|chain rid a]; simpl.
  - by destruct (Hnot now u input).
  - destruct (updateEvent_shape e' input s) as [->|(event & _ & _ & _ & ->)];
      [by apply Hsame|].
    apply lookup_alter_choices, applyUpdate_choices.
  - destruct (cancelEvent_shape e' s) as [->|(event & _ & _ & _ & _ & ->)];
      [by apply Hsame|].
    by apply lookup_alter_choices.
  - destruct (resolveEvent_shape e' w a s) as [->|(event & calc & _ & _ & _ & ->)];
      [by apply Hsame|].
    destruct (resolveEvent_written e' w a s calc) as (-> & _ & _).
    by apply lookup_alter_choices.
  - destruct (distributePayouts_shape e' a s) as [->| ->]; [by apply Hsame|].
    by apply lookup_alter_choices.
  - destruct (refundEvent_shape e' s) as [->|(event & _ & _ & ->)]; by apply Hsame.
  - destruct (requestWithdrawal_shape chain u input s)
      as [->|(rq & debit & _ & _ & ->)]; by apply Hsame.
  - destruct (processWithdrawal_shape chain rid a s)
      as [->|[(f & ->)|(f & credit & _ & _ & ->)]]; by apply Hsame.
Qed.

Lemma exec_keeps_pools (s : Store) (c : Call) :
  poolsMatchStakes s → poolsMatchStakes (exec s c).
Proof.
  intros Hinv.
  destruct c as [now u input|e' input|e'|e' w a|e' a|e'|chain u input|chain rid a].
  1:{ simpl.
      destruct (placeBet_shape now u input s)
        as [->|(event & debit & Hev & _ & _ & _ & ->)]; [done|].
      intros e0 ev0 c0 Hev0 Hc0. simpl in Hev0.
      assert (Hfresh : eventBets s !! fresh (dom (eventBets s)) = None)
        by (apply not_elem_of_dom, is_fresh).
      unfold stakes. simpl. rewrite sumOver_insert by exact Hfresh. simpl.
      rewrite lookup_alter in Hev0.
      destruct (decide (pb_eventId input = e0)) as [<-|Hne].
      - rewrite Hev in Hev0. injection Hev0 as <-. simpl in Hc0.
        apply list_elem_of_In, in_map_iff in Hc0 as (c1 & <- & Hc1).
        apply list_elem_of_In in Hc1.
        pose proof (Hinv _ _ _ Hev Hc1) as Hpool. unfold stakes in Hpool.
        destruct (decide (Choice.choiceLetter c1 = pb_choiceLetter input)) as [Hl|Hl].
        + simpl. rewrite decide_True by done. rewrite Hl in *. by rewrite Hpool.
        + rewrite decide_False by (intros [_ Heq]; by apply Hl). rewrite Hpool. ring.
      - rewrite decide_False by (intros [Heq _]; by apply Hne).
        rewrite (Hinv _ _ _ Hev0 Hc0). unfold stakes. ring. }
  all: intros e0 ev0 c0 Hev0 Hc0;
    apply exec_events_choices in Hev0 as (ev & Hev & Hch); [|done];
    rewrite Hch in Hc0; rewrite (Hinv _ _ _ Hev Hc0);
    match goal with
    | |- context [exec ?s0 ?c] =>
        rewrite (stakes_terms s0 (exec s0 c) e0 (Choice.choiceLetter c0));
        [reflexivity|]; intros k; pose proof (exec_bets_step s0 c k) as Hstep
    end;
    (destruct (eventBets s !! k) as [b|];
     [ destruct Hstep as (b' & -> & [Hterms _]); simpl; by rewrite Hterms
     | destruct Hstep as [->|(? & ? & ? & Habs & _)]; [done|discriminate] ]).
Qed.

(** Every pool total equals the chips staked on its choice, and stays so
    whatever calls run: [placeBet] is the only writer of pools, and it adds
    to the pool what the new bet row carries. *)
Theorem pools_always_match_stakes (s : Store) (calls : list Call) :
  poolsMatchStakes s → poolsMatchStakes (execAll s calls).
Proof.
  revert s. induction calls as [|c calls IH]; intros s Hinv; [done|].
  unfold execAll. cbn [foldl]. fold (execAll (exec s c) calls).
  by apply IH, exec_keeps_pools.
Qed.

Lemma pools_always_match_stakes_witness :
  poolsMatchStakes
    (execAll Scenario.opened
       [CallPlaceBet 0 Scenario.alice (mkPlaceBet Scenario.coinFlipId Letter.A 1000);
        CallPlaceBet 0 Scenario.bob (mkPlaceBet Scenario.coinFlipId Letter.B 500);
        CallResolveEvent Scenario.coinFlipId Letter.A Scenario.admin;
        CallDistributePayouts Scenario.coinFlipId Scenario.admin]).
Proof.
  apply pools_always_match_stakes.
  intros e ev c Hev Hc. simpl in Hev.
  apply lookup_singleton_Some in Hev as [<- <-].
  simpl in Hc. apply elem_of_cons in Hc as [->|Hc]; [by vm_compute|].
  apply elem_of_cons in Hc as [->|Hc]; [by vm_compute|].
  by apply elem_of_nil in Hc.
Defined.

Lemma placeBet_accepts_iff_witness :
  isOk (placeBet 0 Scenario.alice Scenario.sixty (Scenario.holding 100)).1 = true
  ∧ placeBet 5 Scenario.alice Scenario.sixty
      (exec (Scenario.holding 100)
            (CallUpdateEvent Scenario.coinFlipId (mkUpdateEvent (Some 5%Z) None)))
    = (Throw (mkAppError BettingLocked 400),
       exec (Scenario.holding 100)
            (CallUpdateEvent Scenario.coinFlipId (mkUpdateEvent (Some 5%Z) None))).
Proof.
  split.
  - apply (placeBet_accepts_iff 0 Scenario.alice Scenario.sixty (Scenario.holding 100)).
    exists Scenario.coinFlip.
    repeat split; try done; try (by exists (Choice.mk Letter.A 0)); by vm_compute.
  - apply (placeBet_accepts_iff 5 Scenario.alice Scenario.sixty _)
      with (event := Event.with_lockTime (Some 5%Z) Scenario.coinFlip) (t := 5%Z);
      by vm_compute.
Defined.

Lemma failed_calls_write_nothing_witness :
  (placeBet 0 Scenario.alice Scenario.sixty (Scenario.holding 5)).2 = Scenario.holding 5
  ∧ (resolveEvent Scenario.coinFlipId Letter.C Scenario.admin Scenario.staked).2
    = Scenario.staked
  ∧ length (ledger (processWithdrawal Scenario.offline 1%positive Scenario.admin
                      (exec (Scenario.winner 100)
                            (CallRequestWithdrawal Scenario.online Scenario.alice
                                                   Scenario.forty))).2)
    = 3%nat.
Proof.
  split; [|split].
  - by apply (failed_calls_write_nothing (Scenario.holding 5)).
  - by apply (failed_calls_write_nothing Scenario.staked).
  - destruct (failed_calls_write_nothing
                (exec (Scenario.winner 100)
                      (CallRequestWithdrawal Scenario.online Scenario.alice Scenario.forty)))
      as (_ & _ & _ & _ & _ & _ & _ & Hp).
    destruct (Hp Scenario.offline 1%positive Scenario.admin
                 (mkAppError WithdrawalFailedRefunded 500)) as [[Hne _]|[_ Hlen]].
    + by vm_compute.
    + by destruct Hne.
    + exact Hlen.
Defined.

(** ** What a bet does to the balances *)

Lemma findChoice_incrementPool (l l' : Letter.t) (a : Q) (ev : Event.t) :
  is_Some (findChoice l (Event.choices ev)) →
  is_Some (findChoice l (Event.choices (incrementPool l' a ev))).
Proof.
  unfold incrementPool, findChoice. simpl.
  induction (Event.choices ev) as [|c cs IH]; simpl; [done|].
  destruct (decide (Choice.choiceLetter c = l')); simpl;
    destruct (bool_decide (Choice.choiceLetter c = l)); try done; by intros _.
Qed.

Lemma classify_bet_placed (acc : Buckets) (tx : Ledger.t) :
  Ledger.transactionType tx = TxType.bet_placed →
  b_purchased (classify acc tx) = b_purchased acc
  ∧ b_won (classify acc tx) = b_won acc
  ∧ b_free (classify acc tx) = b_free acc.
Proof.
  intros Hty. unfold classify. rewrite Hty. by destruct (Qltb _ _).
Qed.

Lemma placeBet_ok (now : Z) (u : Id) (input : PlaceBetInput) (s s' : Store)
    (r : PlaceBetResult) :
  placeBet now u input s = (Ok r, s') →
  ∃ total,
    placeBet_check now u input s = Ok total
    ∧ pbr_betId r = fresh (dom (eventBets s))
    ∧ pbr_balances r = getUserBalances s' u
    ∧ s' = mkStore (users s)
                   (alter (incrementPool (pb_choiceLetter input) (pb_amount input))
                          (pb_eventId input) (events s))
                   (<[fresh (dom (eventBets s)) :=
                        Bet.mk (pb_eventId input) u (pb_choiceLetter input)
                               (pb_amount input) BetStatus.active]> (eventBets s))
                   (eventPayouts s) (cashOutRequests s)
                   (ledger s ++
                      [Ledger.mk u Currency.chips (- pb_amount input) total
                                 (total - pb_amount input) TxType.bet_placed
                                 (Some "event_bet"%string)
                                 (Some (fresh (dom (eventBets s))))]).
Proof.
  unfold placeBet. destruct (placeBet_check now u input s) as [total|err]; [|done].
  unfold placeBet_commit. cbv zeta. intros [= <- <-]. by exists total.
Qed.

(** A bet that is accepted takes nothing off the balance that admits bets:
    for every user the purchased, won and free chips and their total are
    after the call what they were before; only the bettor's active stakes
    grow, by the amount of the bet.  So the same bet is accepted again. *)
Theorem placeBet_never_spends (now : Z) (u : Id) (input : PlaceBetInput) (s s' : Store)
    (r : PlaceBetResult) :
  placeBet now u input s = (Ok r, s') →
  (∀ v, purchasedChips (getUserBalances s' v) = purchasedChips (getUserBalances s v)
        ∧ wonChips (getUserBalances s' v) = wonChips (getUserBalances s v)
        ∧ freeChips (getUserBalances s' v) = freeChips (getUserBalances s v)
        ∧ totalChips (getUserBalances s' v) = totalChips (getUserBalances s v))
  ∧ totalChips (pbr_balances r) = totalChips (getUserBalances s u)
  ∧ activeBetsSum s' u == activeBetsSum s u + pb_amount input
  ∧ isOk (placeBet now u input s').1 = true.
Proof.
  intros Hok. destruct (placeBet_ok now u input s s' r Hok) as (total & Hcheck & _ & Hr & Hs').
  assert (Hbal : ∀ v, purchasedChips (getUserBalances s' v)
                      = purchasedChips (getUserBalances s v)
                      ∧ wonChips (getUserBalances s' v) = wonChips (getUserBalances s v)
                      ∧ freeChips (getUserBalances s' v) = freeChips (getUserBalances s v)
                      ∧ totalChips (getUserBalances s' v)
                        = totalChips (getUserBalances s v)).
  { intros v. unfold getUserBalances, purchasedChips, wonChips, freeChips, totalChips.
    assert (Htx : ∃ tail, chipTransactions s' v = chipTransactions s v ++ tail
                          ∧ Forall (λ tx, Ledger.transactionType tx = TxType.bet_placed) tail).
    { rewrite Hs'. unfold chipTransactions. simpl. rewrite filter_app.
      eexists. split; [reflexivity|]. rewrite filter_cons.
      destruct (decide _); simpl; repeat constructor. }
    destruct Htx as (tail & -> & Htail). rewrite foldl_app.
    generalize (foldl classify (mkBuckets 0 0 0 0) (chipTransactions s v)). intros acc.
    assert (Hsame : b_purchased (foldl classify acc tail) = b_purchased acc
                    ∧ b_won (foldl classify acc tail) = b_won acc
                    ∧ b_free (foldl classify acc tail) = b_free acc).
    { revert acc. induction Htail as [|tx tail Hty _ IH]; intros acc; [done|].
      simpl. destruct (IH (classify acc tx)) as (-> & -> & ->).
      by apply classify_bet_placed. }
    destruct Hsame as (-> & -> & ->). done. }
  split; [exact Hbal|]. split; [rewrite Hr; apply Hbal|]. split.
  - rewrite Hs'. unfold activeBetsSum. simpl.
    pose proof (sumOver_insert (λ b, Bet.userId b = u ∧ Bet.status b = BetStatus.active)
                  (eventBets s) (fresh (dom (eventBets s)))
                  (Bet.mk (pb_eventId input) u (pb_choiceLetter input) (pb_amount input)
                          BetStatus.active)) as Hins.
    unfold sumOver in Hins. rewrite Hins by (apply not_elem_of_dom, is_fresh).
    simpl. by rewrite decide_True.
  - rewrite placeBet_isOk. apply placeBet_check_ok_iff.
    assert (Hwas : isOk (placeBet_check now u input s) = true) by (by rewrite Hcheck).
    apply placeBet_check_ok_iff in Hwas as (event & Hev & Hact & Hlock & Hch & Hamt).
    exists (incrementPool (pb_choiceLetter input) (pb_amount input) event).
    split; [rewrite Hs'; simpl; by rewrite lookup_alter_eq, Hev|].
    split; [done|]. split; [exact Hlock|].
    split; [by apply findChoice_incrementPool|].
    destruct (Hbal u) as (_ & _ & _ & ->). exact Hamt.
Qed.

Lemma placeBet_never_spends_witness :
  totalChips (getUserBalances
                (exec (Scenario.holding 100)
                      (CallPlaceBet 0 Scenario.alice Scenario.sixty)) Scenario.alice)
  = totalChips (getUserBalances (Scenario.holding 100) Scenario.alice)
  ∧ isOk (placeBet 0 Scenario.alice Scenario.sixty
            (exec (Scenario.holding 100)
                  (CallPlaceBet 0 Scenario.alice Scenario.sixty))).1 = true.
Proof.
  assert (Hok : placeBet 0 Scenario.alice Scenario.sixty (Scenario.holding 100)
                = (Ok match (placeBet 0 Scenario.alice Scenario.sixty
                               (Scenario.holding 100)).1 with
                      | Ok r => r
                      | Throw _ => mkPlaceBetResult 1%positive zeroBalances
                      end,
                   exec (Scenario.holding 100)
                        (CallPlaceBet 0 Scenario.alice Scenario.sixty)))
    by (vm_compute; reflexivity).
  destruct (placeBet_never_spends _ _ _ _ _ _ Hok) as (Hbal & _ & _ & Hagain).
  split; [apply Hbal|exact Hagain].
Defined.

(** ** The ledger under every call *)

(** The ledger is append-only: whatever calls run, the rows that were there
    stay where they are, and every row that is added satisfies
    [balanceAfter == balanceBefore + amount]. *)
Theorem ledger_append_only (s : Store) (calls : list Call) :
  ∃ added, ledger (execAll s calls) = ledger s ++ added
           ∧ Forall (λ tx, Ledger.balanceAfter tx
                           == Ledger.balanceBefore tx + Ledger.amount tx) added.
Proof.
  revert s. induction calls as [|c calls IH]; intros s.
  - exists []. split; [by rewrite app_nil_r|constructor].
  - unfold execAll. cbn [foldl]. fold (execAll (exec s c) calls).
    destruct (exec_appends_balanced_rows s c) as (added1 & Hl1 & Hb1).
    destruct (IH (exec s c)) as (added2 & Hl2 & Hb2).
    exists (added1 ++ added2). split; [by rewrite Hl2, Hl1, app_assoc|].
    apply Forall_app. split; [|exact Hb2].
    apply Forall_forall. intros tx Htx.
    apply Qeq_bool_iff.
    rewrite forallb_forall in Hb1. apply Hb1. by apply list_elem_of_In.
Qed.

(** ** Refunds of a cancelled event *)

Lemma activeBetsOf_NoDup (s : Store) (e : Id) : NoDup (activeBetsOf s e).*1.
Proof.
  apply (sublist_NoDup _ (map_to_list (eventBets s)).*1).
  - apply NoDup_fst_map_to_list.
  - apply fmap_sublist, sublist_filter.
Qed.

Lemma refundCredit_count (committed : Store) (bs : list (Id * Bet.t)) (k : Id) :
  NoDup bs.*1 →
  length (filter (λ tx, Ledger.referenceType tx = Some "event_refund"%string
                        ∧ Ledger.referenceId tx = Some k)
                 (refundCredit committed <$> bs))
  = if decide (k ∈ bs.*1) then 1%nat else 0%nat.
Proof.
  induction bs as [|kb bs IH]; intros Hnd; [done|].
  rewrite !fmap_cons in *. apply NoDup_cons in Hnd as [Hfresh Hnd].
  rewrite filter_cons. simpl. specialize (IH Hnd).
  destruct (decide (kb.1 = k)) as [<-|Hne].
  - rewrite decide_True by done. simpl. rewrite IH.
    rewrite decide_False by exact Hfresh.
    by rewrite decide_True by (apply elem_of_cons; by left).
  - rewrite decide_False by (intros [_ [=]]; done). rewrite IH.
    destruct (decide (k ∈ bs.*1)) as [Hin|Hnin].
    + by rewrite decide_True by (apply elem_of_cons; by right).
    + rewrite decide_False; [done|].
      intros Hin. apply elem_of_cons in Hin as [->|Hin]; done.
Qed.

Lemma refundEvent_cancelled (e : Id) (s : Store) (event : Event.t) :
  events s !! e = Some event → Event.status event = EventStatus.cancelled →
  let bs := activeBetsOf s e in
  refundEvent e s
  = (Ok (mkRefundResult (length bs) (Qsum (Bet.amount <$> bs.*2))),
     mkStore (users s) (events s)
             (foldl (λ m kb, alter (Bet.with_status BetStatus.refunded) kb.1 m)
                    (eventBets s) bs)
             (eventPayouts s) (cashOutRequests s)
             (ledger s ++ (refundCredit s <$> bs))).
Proof.
  intros Hev Hst bs. unfold refundEvent. rewrite Hev.
  rewrite bool_decide_eq_false_2 by (intros Hne; by apply Hne).
  fold bs. destruct bs as [|kb bs'] eqn:Hbs.
  - simpl. rewrite app_nil_r. by destruct s.
  - rewrite bool_decide_eq_false_2 by done.
    rewrite foldl_refundOne. cbv beta iota zeta. rewrite app_nil_l.
    rewrite length_fmap. do 3 f_equal.
    rewrite <- !list_fmap_compose. done.
Qed.

(** On a cancelled event [refundEvent] credits every bet that is still
    active exactly once, with its stake, and marks it refunded; no other bet
    is touched or credited.  After that no bet of the event is active, and
    a second invocation returns "0 refunds" and writes nothing. *)
Theorem refundEvent_refunds_each_bet_once (e : Id) (s : Store) (event : Event.t) :
  events s !! e = Some event → Event.status event = EventStatus.cancelled →
  ∃ r s1,
    refundEvent e s = (Ok r, s1)
    ∧ refundsProcessed r = length (activeBetsOf s e)
    ∧ rr_totalAmount r = Qsum (Bet.amount <$> (activeBetsOf s e).*2)
    ∧ ledger s1 = ledger s ++ (refundCredit s <$> activeBetsOf s e)
    ∧ (∀ k b, (k, b) ∈ activeBetsOf s e →
              eventBets s1 !! k = Some (Bet.with_status BetStatus.refunded b)
              ∧ ∃ credit, credit ∈ refundsOfBet s1 k
                          ∧ Ledger.userId credit = Bet.userId b
                          ∧ Ledger.amount credit = Bet.amount b
                          ∧ Ledger.transactionType credit = TxType.bet_won)
    ∧ (∀ k, length (refundsOfBet s1 k)
            = (length (refundsOfBet s k)
               + if decide (k ∈ (activeBetsOf s e).*1) then 1 else 0)%nat)
    ∧ (∀ k, k ∉ (activeBetsOf s e).*1 → eventBets s1 !! k = eventBets s !! k)
    ∧ activeBetsOf s1 e = []
    ∧ refundEvent e s1 = (Ok (mkRefundResult 0 0), s1).
Proof.
  intros Hev Hst. pose proof (refundEvent_cancelled e s event Hev Hst) as Hre.
  cbv zeta in Hre. set (bs := activeBetsOf s e) in *.
  eexists _, _. split; [exact Hre|]. simpl.
  assert (Hlook : ∀ k, foldl (λ m kb, alter (Bet.with_status BetStatus.refunded) kb.1 m)
                             (eventBets s) bs !! k
                       = if decide (k ∈ bs.*1)
                         then Bet.with_status BetStatus.refunded <$> eventBets s !! k
                         else eventBets s !! k).
  { intros k. by apply (lookup_foldl_alter (Bet.with_status BetStatus.refunded) fst). }
  split; [done|]. split; [done|]. split; [done|]. split.
  { intros k b Hin.
    assert (Hk : k ∈ bs.*1) by (apply list_elem_of_fmap; by exists (k, b)).
    pose proof Hin as Hin'. apply activeBetsOf_elem in Hin' as (Hb & _ & _).
    split; [by rewrite Hlook, decide_True, Hb by exact Hk|].
    exists (refundCredit s (k, b)). split; [|done].
    unfold refundsOfBet. simpl. rewrite filter_app. apply elem_of_app. right.
    apply list_elem_of_filter. split; [done|].
    apply list_elem_of_fmap. by exists (k, b). }
  split.
  { intros k. unfold refundsOfBet. simpl. rewrite filter_app, length_app.
    by rewrite (refundCredit_count s bs k (activeBetsOf_NoDup s e)). }
  split.
  { intros k Hk. by rewrite Hlook, decide_False by exact Hk. }
  assert (Hnone : activeBetsOf
                    (mkStore (users s) (events s)
                       (foldl (λ m kb, alter (Bet.with_status BetStatus.refunded) kb.1 m)
                              (eventBets s) bs)
                       (eventPayouts s) (cashOutRequests s)
                       (ledger s ++ (refundCredit s <$> bs))) e = []).
  { apply filter_none. intros [k b'] Hin [He Hact]. simpl in *.
    apply elem_of_map_to_list in Hin. rewrite Hlook in Hin.
    destruct (decide _) as [Hk|Hk].
    - destruct (eventBets s !! k); [|done]. injection Hin as <-. done.
    - apply Hk, list_elem_of_fmap. exists (k, b'). split; [done|].
      by apply activeBetsOf_elem. }
  split; [exact Hnone|].
  unfold refundEvent. simpl. rewrite Hev.
  rewrite bool_decide_eq_false_2 by (intros Hne; by apply Hne).
  by rewrite Hnone.
Qed.

Lemma refundEvent_refunds_each_bet_once_witness :
  ∃ r s1,
    refundEvent Scenario.coinFlipId
      (execAll Scenario.staked [CallCancelEvent Scenario.coinFlipId]) = (Ok r, s1)
    ∧ refundsProcessed r = 2%nat
    ∧ refundEvent Scenario.coinFlipId s1 = (Ok (mkRefundResult 0 0), s1).
Proof.
  destruct (refundEvent_refunds_each_bet_once Scenario.coinFlipId
              (execAll Scenario.staked [CallCancelEvent Scenario.coinFlipId])
              (Event.with_status EventStatus.cancelled
                 (Event.with_choices [Choice.mk Letter.A 1000; Choice.mk Letter.B 500]
                    Scenario.coinFlip)))
    as (r & s1 & Hre & Hn & _ & _ & _ & _ & _ & _ & Hagain).
  - by vm_compute.
  - reflexivity.
  - exists r, s1. split; [exact Hre|]. split; [|exact Hagain].
    rewrite Hn. by vm_compute.
Defined.

(** ** Payout rows under every call *)

Lemma creditsOfPayout_added (s s2 : Store) (added : list Ledger.t) (k : Id) :
  ledger s2 = ledger s ++ added →
  (∀ tx, tx ∈ added → Ledger.referenceType tx ≠ Some "event_payout"%string) →
  creditsOfPayout s2 k = creditsOfPayout s k.
Proof.
  intros Hl Hnone. unfold creditsOfPayout. rewrite Hl, filter_app.
  rewrite (filter_none _ added); [apply app_nil_r|].
  intros tx Hin [Href _]. by apply (Hnone tx Hin).
Qed.

Lemma foldl_createPayout_lookup (e adminId : Id) (st : Store) (ps : list PayoutItem)
    (k : Id) (p : Payout.t) :
  eventPayouts st !! k = Some p →
  eventPayouts (foldl (createPayout e adminId) st ps) !! k = Some p.
Proof.
  revert st. induction ps as [|item ps IH]; intros st Hp; [done|].
  simpl. apply IH. unfold createPayout. simpl.
  rewrite lookup_insert_ne; [done|].
  intros Heq. apply (is_fresh (dom (eventPayouts st))).
  rewrite Heq. apply elem_of_dom. by exists p.
Qed.

(** One call either leaves a payout row and its credits alone, or (only
    [distributePayouts], only on a pending row) completes it and appends
    one credit. *)
Lemma exec_payouts_step (s : Store) (c : Call) (k : Id) (p : Payout.t) :
  eventPayouts s !! k = Some p →
  ∃ p', eventPayouts (exec s c) !! k = Some p'
        ∧ ((p' = p ∧ creditsOfPayout (exec s c) k = creditsOfPayout s k)
           ∨ (Payout.status p = PayoutStatus.pending
              ∧ (∃ a, p' = Payout.complete a p)
              ∧ length (creditsOfPayout (exec s c) k)
                = S (length (creditsOfPayout s k)))).
Proof.
  intros Hp.
  assert (Hsame : ∀ s', eventPayouts s' = eventPayouts s →
                        (∃ added, ledger s' = ledger s ++ added
                                  ∧ ∀ tx, tx ∈ added →
                                          Ledger.referenceType tx
                                          ≠ Some "event_payout"%string) →
                        ∃ p', eventPayouts s' !! k = Some p'
                              ∧ ((p' = p ∧ creditsOfPayout s' k = creditsOfPayout s k)
                                 ∨ (Payout.status p = PayoutStatus.pending
                                    ∧ (∃ a, p' = Payout.complete a p)
                                    ∧ length (creditsOfPayout s' k)
                                      = S (length (creditsOfPayout s k))))).
  { intros s' Hpay (added & Hl & Hnone). exists p. split; [by rewrite Hpay|].
    left. split; [done|]. by apply (creditsOfPayout_added s s' added). }
  assert (Hrefl : ∃ added, ledger s = ledger s ++ added
                           ∧ ∀ tx, tx ∈ added →
                                   Ledger.referenceType tx ≠ Some "event_payout"%string).
  { exists []. split; [by rewrite app_nil_r|]. intros tx Hin. by apply elem_of_nil in Hin. }
  assert (Hone : ∀ tx, Ledger.referenceType tx ≠ Some "event_payout"%string →
                       ∃ added, ledger s ++ [tx] = ledger s ++ added
                                ∧ ∀ tx', tx' ∈ added →
                                         Ledger.referenceType tx'
                                         ≠ Some "event_payout"%string).
  { intros tx Hty. exists [tx]. split; [done|].
    intros tx' Hin. apply list_elem_of_singleton in Hin. by subst tx'. }
  destruct c as [now u input|e' input|e'|e' w a|e' a|e'|chain u input|chain rid a]; simpl.
  - destruct (placeBet_shape now u input s)
      as [->|(event & debit & _ & _ & Hty & _ & ->)]; [by apply Hsame|].
    apply Hsame; [done|]. simpl. apply Hone. by rewrite Hty.
  - destruct (updateEvent_shape e' input s) as [->|(event & _ & _ & _ & ->)];
      by apply Hsame.
  - destruct (cancelEvent_shape e' s) as [->|(event & _ & _ & _ & _ & ->)];
      by apply Hsame.
  - destruct (resolveEvent_shape e' w a s) as [->|(event & calc & _ & _ & _ & ->)];
      [by apply Hsame|].
    destruct (resolveEvent_written e' w a s calc) as (_ & Hl & _).
    exists p. split.
    + rewrite foldl_markRefunded. simpl. by apply foldl_createPayout_lookup.
    + left. split; [done|]. unfold creditsOfPayout. by rewrite Hl.
  - destruct (distributePayouts_shape e' a s) as [->| ->]; [by apply Hsame|].
    simpl.
    assert (Hlook : foldl (λ m kp, alter (Payout.complete a) kp.1 m)
                          (eventPayouts s) (pendingPayouts s e') !! k
                    = if decide (k ∈ (pendingPayouts s e').*1)
                      then Payout.complete a <$> eventPayouts s !! k
                      else eventPayouts s !! k).
    { apply (lookup_foldl_alter (Payout.complete a) fst). apply complete_idempotent. }
    assert (Hcount : length (creditsOfPayout
                               (mkStore (users s)
                                  (alter (Event.with_status EventStatus.paid_out) e'
                                         (events s))
                                  (eventBets s)
                                  (foldl (λ m kp, alter (Payout.complete a) kp.1 m)
                                         (eventPayouts s) (pendingPayouts s e'))
                                  (cashOutRequests s)
                                  (ledger s ++ (payoutCredit s <$> pendingPayouts s e'))) k)
                     = (length (creditsOfPayout s k)
                        + if decide (k ∈ (pendingPayouts s e').*1) then 1 else 0)%nat).
    { unfold creditsOfPayout. simpl. rewrite filter_app, length_app.
      by rewrite (payoutCredit_count s _ k (pendingPayouts_NoDup s e')). }
    rewrite Hlook, Hp. destruct (decide (k ∈ (pendingPayouts s e').*1)) as [Hk|Hk].
    + exists (Payout.complete a p). split; [done|]. right.
      apply list_elem_of_fmap in Hk as ([k' p0] & -> & Hin).
      apply pendingPayouts_elem in Hin as (Hp0 & _ & Hpend). simpl in *.
      rewrite Hp in Hp0. injection Hp0 as <-.
      split; [done|]. split; [by exists a|]. rewrite Hcount. lia.
    + exists p. split; [done|]. left. split; [done|].
      unfold creditsOfPayout in *. simpl in *.
      rewrite filter_app. rewrite filter_app, length_app in Hcount.
      assert (Hnil : filter (λ tx, Ledger.referenceType tx = Some "event_payout"%string
                                   ∧ Ledger.referenceId tx = Some k)
                            (payoutCredit s <$> pendingPayouts s e') = []).
      { apply length_zero_iff_nil. lia. }
      rewrite Hnil. apply app_nil_r.
  - destruct (refundEvent_shape e' s) as [->|(event & _ & _ & ->)]; [by apply Hsame|].
    apply Hsame; [done|]. simpl. eexists. split; [reflexivity|].
    intros tx Hin. apply list_elem_of_fmap in Hin as (kb & -> & _). done.
  - destruct (requestWithdrawal_shape chain u input s)
      as [->|(rq & debit & Hty & _ & ->)]; [by apply Hsame|].
    apply Hsame; [done|]. simpl. apply Hone. by rewrite Hty.
  - destruct (processWithdrawal_shape chain rid a s)
      as [->|[(f & ->)|(f & credit & Hty & _ & ->)]]; [by apply Hsame..|].
    apply Hsame; [done|]. simpl. apply Hone. by rewrite Hty.
Qed.

(** Payout rows are never deleted, and whatever calls run a payout is
    credited at most once more: its event, user and amount stay as they
    are, and a payout that is not pending any more (completed or rejected)
    stays exactly as it is and is never credited again. *)
Theorem payouts_credited_at_most_once (s : Store) (calls : list Call) (k : Id)
    (p : Payout.t) :
  eventPayouts s !! k = Some p →
  ∃ p', eventPayouts (execAll s calls) !! k = Some p'
        ∧ Payout.eventId p' = Payout.eventId p
        ∧ Payout.userId p' = Payout.userId p
        ∧ Payout.payoutAmount p' = Payout.payoutAmount p
        ∧ (length (creditsOfPayout (execAll s calls) k)
           ≤ S (length (creditsOfPayout s k)))%nat
        ∧ (Payout.status p ≠ PayoutStatus.pending →
           p' = p ∧ creditsOfPayout (execAll s calls) k = creditsOfPayout s k).
Proof.
  intros Hp.
  assert (Hgen : ∃ p', eventPayouts (execAll s calls) !! k = Some p'
                       ∧ ((p' = p
                           ∧ creditsOfPayout (execAll s calls) k = creditsOfPayout s k)
                          ∨ (Payout.status p = PayoutStatus.pending
                             ∧ (∃ a, p' = Payout.complete a p)
                             ∧ length (creditsOfPayout (execAll s calls) k)
                               = S (length (creditsOfPayout s k))))).
  { revert s p Hp. induction calls as [|c calls IH]; intros s p Hp.
    - exists p. split; [done|]. by left.
    - unfold execAll. cbn [foldl]. fold (execAll (exec s c) calls).
      destruct (exec_payouts_step s c k p Hp) as (p1 & Hp1 & Hstep).
      destruct (IH (exec s c) p1 Hp1) as (p2 & Hp2 & Hrest).
      exists p2. split; [done|].
      destruct Hstep as [[-> Hc1]|(Hpend & (a & ->) & Hc1)].
      + destruct Hrest as [[-> Hc2]|(Hpend & Ha & Hc2)].
        * left. split; [done|]. by rewrite Hc2.
        * right. split; [done|]. split; [done|]. by rewrite Hc2, Hc1.
      + destruct Hrest as [[-> Hc2]|(Habs & _)]; [|done].
        right. split; [done|]. split; [by exists a|]. by rewrite Hc2. }
  destruct Hgen as (p' & Hp' & [[-> Hc]|(Hpend & (a & ->) & Hc)]).
  - exists p. repeat split; try done. rewrite Hc. lia.
  - exists (Payout.complete a p). repeat split; try done. rewrite Hc. lia.
Qed.

Lemma payouts_credited_at_most_once_witness :
  length (creditsOfPayout
            (execAll Scenario.settled
               [CallDistributePayouts Scenario.coinFlipId Scenario.admin;
                CallDistributePayouts Scenario.coinFlipId Scenario.admin;
                CallResolveEvent Scenario.coinFlipId Letter.A Scenario.admin;
                CallDistributePayouts Scenario.coinFlipId Scenario.bob]) 1%positive)
  = 1%nat.
Proof.
  assert (Hp : eventPayouts (exec Scenario.settled
                               (CallDistributePayouts Scenario.coinFlipId Scenario.admin))
               !! 1%positive
               = Some match eventPayouts
                              (exec Scenario.settled
                                 (CallDistributePayouts Scenario.coinFlipId Scenario.admin))
                              !! 1%positive with
                      | Some p => p
                      | None => Payout.mk 1 1 0 PayoutStatus.pending None
                      end).
  { vm_compute. reflexivity. }
  destruct (payouts_credited_at_most_once _
              [CallDistributePayouts Scenario.coinFlipId Scenario.admin;
               CallResolveEvent Scenario.coinFlipId Letter.A Scenario.admin;
               CallDistributePayouts Scenario.coinFlipId Scenario.bob]
              1%positive _ Hp) as (p' & _ & _ & _ & _ & _ & Hfinal).
  destruct Hfinal as [_ Hc]; [by vm_compute|].
  change (execAll Scenario.settled
            (CallDistributePayouts Scenario.coinFlipId Scenario.admin
             :: [CallDistributePayouts Scenario.coinFlipId Scenario.admin;
                 CallResolveEvent Scenario.coinFlipId Letter.A Scenario.admin;
                 CallDistributePayouts Scenario.coinFlipId Scenario.bob]))
    with (execAll (exec Scenario.settled
                     (CallDistributePayouts Scenario.coinFlipId Scenario.admin))
            [CallDistributePayouts Scenario.coinFlipId Scenario.admin;
             CallResolveEvent Scenario.coinFlipId Letter.A Scenario.admin;
             CallDistributePayouts Scenario.coinFlipId Scenario.bob]).
  rewrite Hc. by vm_compute.
Defined.

(** ** Withdrawal requests under every call *)

(** A call leaves a withdrawal request in place; a request that is not
    pending is left exactly as it is. *)
Lemma exec_cashOut_step (s : Store) (c : Call) (k : Id) (rq : CashOut.t) :
  cashOutRequests s !! k = Some rq →
  ∃ rq', cashOutRequests (exec s c) !! k = Some rq'
         ∧ (∃ st, rq' = CashOut.with_status st rq)
         ∧ (CashOut.status rq ≠ CashOutStatus.pending → rq' = rq).
Proof.
  intros Hrq.
  assert (Hsame : ∀ s', cashOutRequests s' = cashOutRequests s →
                        ∃ rq', cashOutRequests s' !! k = Some rq'
                               ∧ (∃ st, rq' = CashOut.with_status st rq)
                               ∧ (CashOut.status rq ≠ CashOutStatus.pending → rq' = rq)).
  { intros s' ->. exists rq. split; [done|]. split; [|done].
    exists (CashOut.status rq). by destruct rq. }
  destruct c as [now u input|e' input|e'|e' w a|e' a|e'|chain u input|chain rid a]; simpl.
  - destruct (placeBet_shape now u input s)
      as [->|(event & debit & _ & _ & _ & _ & ->)]; by apply Hsame.
  - destruct (updateEvent_shape e' input s) as [->|(event & _ & _ & _ & ->)];
      by apply Hsame.
  - destruct (cancelEvent_shape e' s) as [->|(event & _ & _ & _ & _ & ->)];
      by apply Hsame.
  - destruct (resolveEvent_shape e' w a s) as [->|(event & calc & _ & _ & _ & ->)];
      [by apply Hsame|].
    apply Hsame. rewrite foldl_markRefunded. simpl.
    by destruct (foldl_createPayout_frame e' a
                   (set_eventBets (fmap (markLost e' w))
                      (set_eventBets (fmap (markWon e' w))
                         (set_events
                            (alter (λ ev, Event.with_winningSide (Some w)
                                            (Event.with_status EventStatus.completed ev)) e')
                            s)))
                   (payouts calc)) as (_ & _ & _ & -> & _).
  - destruct (distributePayouts_shape e' a s) as [->| ->]; by apply Hsame.
  - destruct (refundEvent_shape e' s) as [->|(event & _ & _ & ->)]; by apply Hsame.
  - destruct (requestWithdrawal_shape chain u input s)
      as [->|(request & debit & _ & _ & ->)]; [by apply Hsame|].
    simpl. exists rq. split; [|split; [exists (CashOut.status rq); by destruct rq|done]].
    rewrite lookup_insert_ne; [done|].
    intros Heq. apply (is_fresh (dom (cashOutRequests s))).
    rewrite Heq. apply elem_of_dom. by exists rq.
  - unfold processWithdrawal.
    destruct (cashOutRequests s !! rid) as [request|] eqn:Hreq; [|by apply Hsame].
    destruct (bool_decide (CashOut.status request ≠ CashOutStatus.pending)) eqn:Hpend;
      [by apply Hsame|].
    apply bool_decide_eq_false in Hpend.
    assert (Hp : CashOut.status request = CashOutStatus.pending).
    { by destruct (decide (CashOut.status request = CashOutStatus.pending)). }
    destruct (transfer chain request); simpl; rewrite lookup_alter;
      (destruct (decide (rid = k)) as [->|Hne];
       [ rewrite Hrq; simpl; eexists; split; [done|]; split; [by eexists|];
         rewrite Hreq in Hrq; injection Hrq as ->; by intros []
       | rewrite Hrq; exists rq; split; [done|];
         split; [exists (CashOut.status rq); by destruct rq|done] ]).
Qed.

(** A pending withdrawal request is processed once: [processWithdrawal]
    leaves it completed when the transfer went through and rejected when it
    failed; from then on, whatever calls follow, the request stays as it
    is, and every further [processWithdrawal] on it is refused with status
    400 and writes nothing (no second transfer, no second compensation). *)
Theorem withdrawals_processed_once (chain : Chain) (requestId adminId : Id) (s : Store)
    (request : CashOut.t) (calls : list Call) :
  cashOutRequests s !! requestId = Some request →
  CashOut.status request = CashOutStatus.pending →
  let s1 := (processWithdrawal chain requestId adminId s).2 in
  let later := execAll s1 calls in
  cashOutRequests s1 !! requestId
  = Some (CashOut.with_status
            (match transfer chain request with
             | Some _ => CashOutStatus.completed
             | None => CashOutStatus.rejected
             end) request)
  ∧ cashOutRequests later !! requestId = cashOutRequests s1 !! requestId
  ∧ ∀ chain' adminId',
      processWithdrawal chain' requestId adminId' later
      = (Throw (mkAppError WithdrawalAlreadyProcessed 400), later).
Proof.
  intros Hrq Hpend s1 later.
  assert (H1 : cashOutRequests s1 !! requestId
               = Some (CashOut.with_status
                         (match transfer chain request with
                          | Some _ => CashOutStatus.completed
                          | None => CashOutStatus.rejected
                          end) request)).
  { unfold s1, processWithdrawal. rewrite Hrq.
    rewrite bool_decide_eq_false_2 by (intros Hne; by apply Hne).
    destruct (transfer chain request); simpl; by rewrite lookup_alter_eq, Hrq. }
  assert (Hfinal : ∀ st rq, cashOutRequests st !! requestId = Some rq →
                            CashOut.status rq ≠ CashOutStatus.pending →
                            cashOutRequests (execAll st calls) !! requestId = Some rq).
  { induction calls as [|c calls' IH]; intros st rq Hst Hne; [done|].
    unfold execAll. cbn [foldl]. fold (execAll (exec st c) calls').
    destruct (exec_cashOut_step st c requestId rq Hst) as (rq' & Hrq' & _ & Hkeep).
    rewrite (Hkeep Hne) in Hrq'. by apply IH. }
  assert (Hlater : cashOutRequests later !! requestId = cashOutRequests s1 !! requestId).
  { rewrite H1. apply Hfinal; [exact H1|]. by destruct (transfer chain request). }
  split; [exact H1|]. split; [exact Hlater|].
  intros chain' adminId'. unfold processWithdrawal. rewrite Hlater, H1.
  rewrite bool_decide_eq_true_2; [done|]. by destruct (transfer chain request).
Qed.

Lemma withdrawals_processed_once_witness :
  processWithdrawal Scenario.online 1%positive Scenario.admin
    (execAll
       (processWithdrawal Scenario.offline 1%positive Scenario.admin
          (exec (Scenario.winner 100)
                (CallRequestWithdrawal Scenario.online Scenario.alice Scenario.forty))).2
       [CallRequestWithdrawal Scenario.online Scenario.alice Scenario.forty])
  = (Throw (mkAppError WithdrawalAlreadyProcessed 400),
     execAll
       (processWithdrawal Scenario.offline 1%positive Scenario.admin
          (exec (Scenario.winner 100)
                (CallRequestWithdrawal Scenario.online Scenario.alice Scenario.forty))).2
       [CallRequestWithdrawal Scenario.online Scenario.alice Scenario.forty]).
Proof.
  apply (withdrawals_processed_once Scenario.offline 1%positive Scenario.admin
           (exec (Scenario.winner 100)
                 (CallRequestWithdrawal Scenario.online Scenario.alice Scenario.forty))
           (CashOut.mk Scenario.alice 40 Currency.usdc "wallet" CashOutStatus.pending)
           [CallRequestWithdrawal Scenario.online Scenario.alice Scenario.forty]).
  - by vm_compute.
  - reflexivity.
Defined.

(** ** A run of withdrawal requests *)

Lemma requestWithdrawal_hold (chain : Chain) (u : Id) (input : WithdrawalRequestInput)
    (s s1 : Store) (receipt : WithdrawalReceipt) :
  0 <= wi_amount input →
  requestWithdrawal chain u input s = (Ok receipt, s1) →
  wi_amount input <= wonChips (getUserBalances s u)
  ∧ wonChips (getUserBalances s1 u) == wonChips (getUserBalances s u) - wi_amount input.
Proof.
  intros Hnn Hreq.
  destruct (requestWithdrawal_ok chain u input s s1 receipt Hreq) as (Hle & _ & Hs1 & _).
  split; [exact Hle|].
  assert (Hwon1 : wonScan s1 u
                  = if Qltb (- wi_amount input) 0
                    then wonScan s u + - wi_amount input else wonScan s u).
  { rewrite Hs1, wonScan_ledger_create, classify_cashout_won by done. simpl.
    fold (wonScan (set_cashOutRequests
                     (insert (fresh (dom (cashOutRequests s)))
                        (CashOut.mk u (wi_amount input)
                           (if bool_decide (wi_currency input = Currency.sol)
                            then Currency.sol else Currency.usdc)
                           (wi_walletAddress input) CashOutStatus.pending)) s) u).
    by rewrite wonScan_set_cashOutRequests. }
  rewrite !wonChips_scan, Hwon1.
  apply hold_won; [exact Hnn|]. rewrite <- wonChips_scan. exact Hle.
Qed.

Lemma requestWithdrawal_throw (chain : Chain) (u : Id) (input : WithdrawalRequestInput)
    (s s1 : Store) (err : AppError) :
  requestWithdrawal chain u input s = (Throw err, s1) → s1 = s.
Proof.
  unfold requestWithdrawal. cbv zeta.
  destruct (Qltb _ _); [by intros [= _ <-]|].
  destruct (if bool_decide (wi_currency input = Currency.sol)
            then usdToSOL chain (wi_amount input) else Some (wi_amount input));
    [discriminate|by intros [= _ <-]].
Qed.

(** In exact arithmetic, withdrawals cannot overdraw the won chips:
    however many requests a user makes, and whatever becomes of them later,
    the amounts of the accepted ones add up to at most the won balance the
    user started with, and the won balance left is the difference.  (Every
    single request is checked against the won balance [getUserBalances]
    returns, in whatever arithmetic; that the checks add up is a statement
    about exact sums.) *)
Theorem withdrawals_never_exceed_won (u : Id) (s : Store)
    (requests : list (Chain * WithdrawalRequestInput)) :
  Forall (λ cr, 0 <= wi_amount cr.2) requests →
  0 <= (requestAll u s requests).1
  ∧ (requestAll u s requests).1 <= wonChips (getUserBalances s u)
  ∧ wonChips (getUserBalances (requestAll u s requests).2 u)
    == wonChips (getUserBalances s u) - (requestAll u s requests).1.
Proof.
  intros Hnn. unfold requestAll.
  set (step := λ (acc : Q * Store) (cr : Chain * WithdrawalRequestInput),
                 match requestWithdrawal cr.1 u cr.2 acc.2 with
                 | (Ok _, s') => (acc.1 + wi_amount cr.2, s')
                 | (Throw _, s') => (acc.1, s')
                 end).
  assert (Hgen : ∀ h st,
             0 <= (foldl step (h, st) requests).1 - h
             ∧ (foldl step (h, st) requests).1 - h <= wonChips (getUserBalances st u)
             ∧ wonChips (getUserBalances (foldl step (h, st) requests).2 u)
               == wonChips (getUserBalances st u) - ((foldl step (h, st) requests).1 - h)).
  { induction Hnn as [|cr rest Ha _ IH]; intros h st.
    - simpl. split; [lra|]. split; [|lra].
      rewrite wonChips_scan. pose proof (Q.le_max_l 0 (wonScan st u)). lra.
    - cbn [foldl].
      assert (Hs : step (h, st) cr
                   = match requestWithdrawal cr.1 u cr.2 st with
                     | (Ok _, s') => (h + wi_amount cr.2, s')
                     | (Throw _, s') => (h, s')
                     end) by reflexivity.
      rewrite Hs. clear Hs.
      destruct (requestWithdrawal cr.1 u cr.2 st) as [[receipt|err] st'] eqn:Hreq.
      + destruct (requestWithdrawal_hold _ _ _ _ _ _ Ha Hreq) as (Hle & Hheld).
        destruct (IH (h + wi_amount cr.2) st') as (H0 & H1 & H2).
        rewrite Hheld in H1, H2. split; [lra|]. split; [lra|]. rewrite H2. lra.
      + apply requestWithdrawal_throw in Hreq as ->. apply IH. }
  destruct (Hgen 0 s) as (H0 & H1 & H2). split; [lra|]. split; [lra|]. rewrite H2. lra.
Qed.

Lemma withdrawals_never_exceed_won_witness :
  (requestAll Scenario.alice (Scenario.winner 100)
     [(Scenario.online, Scenario.forty); (Scenario.online, Scenario.forty);
      (Scenario.online, Scenario.forty)]).1 <= 100.
Proof.
  assert (Hnn : Forall (λ cr : Chain * WithdrawalRequestInput, 0 <= wi_amount cr.2)
                  [(Scenario.online, Scenario.forty); (Scenario.online, Scenario.forty);
                   (Scenario.online, Scenario.forty)]).
  { repeat constructor; by vm_compute. }
  destruct (withdrawals_never_exceed_won Scenario.alice (Scenario.winner 100) _ Hnn)
    as (_ & Hle & _).
  assert (Hwon : wonChips (getUserBalances (Scenario.winner 100) Scenario.alice) == 100)
    by (by vm_compute).
  by rewrite Hwon in Hle.
Defined.

(** ** What a resolution pays out *)

Lemma findChoice_Some (l : Letter.t) (cs : list Choice.t) (c : Choice.t) :
  findChoice l cs = Some c → c ∈ cs ∧ Choice.choiceLetter c = l.
Proof.
  unfold findChoice. intros Hfind. apply find_some in Hfind as [Hin Hl].
  split; [by apply list_elem_of_In|]. by apply bool_decide_eq_true in Hl.
Qed.

Lemma winners_are_the_stakes (e : Id) (w : Letter.t) (l : list (Id * Bet.t)) :
  (∀ kb, kb ∈ l → Bet.eventId kb.2 = e → Bet.choiceLetter kb.2 = w →
         Bet.status kb.2 = BetStatus.active) →
  (filter (λ kb : Id * Bet.t, Bet.choiceLetter kb.2 = w)
          (filter (λ kb : Id * Bet.t,
                     Bet.eventId kb.2 = e ∧ Bet.status kb.2 = BetStatus.active) l)).*2
  = filter (λ b, Bet.eventId b = e ∧ Bet.choiceLetter b = w) l.*2.
Proof.
  induction l as [|kb l IH]; intros Hact; [done|].
  assert (IH' := IH (λ kb' Hin, Hact kb' (proj2 (elem_of_cons _ _ _) (or_intror Hin)))).
  assert (Hhd := Hact kb (proj2 (elem_of_cons _ _ _) (or_introl eq_refl))).
  rewrite fmap_cons, !filter_cons.
  destruct (decide (Bet.eventId kb.2 = e ∧ Bet.choiceLetter kb.2 = w)) as [[He Hw]|Hno].
  - rewrite decide_True by (split; [done|by apply Hhd]).
    rewrite filter_cons, decide_True by done. by rewrite fmap_cons, IH'.
  - destruct (decide (Bet.eventId kb.2 = e ∧ Bet.status kb.2 = BetStatus.active))
      as [[He Hs]|_]; [|exact IH'].
    rewrite filter_cons, decide_False by (intros Hw; by apply Hno). exact IH'.
Qed.

(** When every pool is the sum of its stakes and every bet on the winning
    choice is still active, a resolution with a positive winning pool pays
    out the distribution pool exactly: what is paid to the winners, the
    event rake and the prize-pool rake add up to the total pool. *)
Theorem resolution_conserves_the_pool (s : Store) (e : Id) (w : Letter.t)
    (event : Event.t) (choice : Choice.t) :
  poolsMatchStakes s →
  events s !! e = Some event →
  findChoice w (Event.choices event) = Some choice →
  0 < Choice.totalPool choice →
  (∀ k b, eventBets s !! k = Some b → Bet.eventId b = e → Bet.choiceLetter b = w →
          Bet.status b = BetStatus.active) →
  ∃ calc eventRake,
    calculatePayouts e w s = Ok calc
    ∧ eventRakeAmount calc = Some eventRake
    ∧ Qsum (pi_payout <$> payouts calc) == totalPaid calc
    ∧ totalPaid calc + eventRake + prizePoolRake calc == poolTotal (Event.choices event).
Proof.
  intros Hinv Hev Hch Hpos Hact.
  destruct (calculatePayouts_winners s e w event choice Hev Hch Hpos)
    as (calc & Hcalc & Hrake & Hprize & _ & _ & _ & Hsum).
  destruct (findChoice_Some _ _ _ Hch) as [Hin Hl].
  assert (Hstakes : Qsum (Bet.amount <$>
                            (filter (λ kb : Id * Bet.t, Bet.choiceLetter kb.2 = w)
                                    (activeBetsOf s e)).*2)
                    == Choice.totalPool choice).
  { rewrite (Hinv e event choice Hev Hin), Hl. unfold stakes, sumOver, activeBetsOf.
    rewrite winners_are_the_stakes; [reflexivity|].
    intros [k b] Hkb. apply elem_of_map_to_list in Hkb. simpl.
    intros He Hw. by apply (Hact k b). }
  destruct (Hsum Hstakes) as [Hpaid Hpayouts].
  exists calc, (r_eventRakeAmount
                  (rakeStagesQ (poolTotal (Event.choices event))
                               (Event.creatorCommission event))).
  split; [exact Hcalc|]. split; [exact Hrake|]. split; [by rewrite Hpaid, Hpayouts|].
  rewrite Hpaid, Hprize.
  destruct (rakeStagesQ_spec (poolTotal (Event.choices event))
                             (Event.creatorCommission event)) as (_ & _ & _ & _ & Hall).
  cbv zeta in Hall. lra.
Qed.

Lemma staked_pools : poolsMatchStakes Scenario.staked.
Proof.
  unfold Scenario.staked, execAll. cbn [foldl].
  do 2 apply exec_keeps_pools.
  intros e ev c Hev Hc. simpl in Hev.
  apply lookup_singleton_Some in Hev as [<- <-].
  simpl in Hc. apply elem_of_cons in Hc as [->|Hc]; [by vm_compute|].
  apply elem_of_cons in Hc as [->|Hc]; [by vm_compute|].
  by apply elem_of_nil in Hc.
Qed.

Lemma resolution_conserves_the_pool_witness :
  ∃ calc eventRake,
    calculatePayouts Scenario.coinFlipId Letter.A Scenario.staked = Ok calc
    ∧ eventRakeAmount calc = Some eventRake
    ∧ totalPaid calc + eventRake + prizePoolRake calc == 1500.
Proof.
  destruct (resolution_conserves_the_pool Scenario.staked Scenario.coinFlipId Letter.A
              (Event.with_choices [Choice.mk Letter.A 1000; Choice.mk Letter.B 500]
                 Scenario.coinFlip)
              (Choice.mk Letter.A 1000) staked_pools)
    as (calc & eventRake & Hcalc & Hrake & _ & Hall).
  - by vm_compute.
  - reflexivity.
  - by vm_compute.
  - intros k b Hb. vm_compute in Hb.
    destruct k as [[k|k|]|[k|k|]|]; try discriminate; by injection Hb as <-.
  - exists calc, eventRake. split; [exact Hcalc|]. split; [exact Hrake|].
    rewrite Hall. by vm_compute.
Defined.

(** A winner is paid [distributionPool * (stake / winningPool)], by that
    division and that multiplication, and the profit reported is that minus
    the stake.  In exact arithmetic this is [stake * (totalPool /
    winningPool) * (1 - rake) * 0.975]; so, in exact arithmetic, when
    nobody staked another outcome, every winner gets back less than the
    stake: both rakes are taken from the winners' own chips. *)
Theorem winner_payout_formula (s : Store) (e : Id) (w : Letter.t)
    (event : Event.t) (choice : Choice.t) (calc : PayoutCalculation) :
  events s !! e = Some event →
  findChoice w (Event.choices event) = Some choice →
  0 < Choice.totalPool choice →
  calculatePayouts e w s = Ok calc →
  let T := poolTotal (Event.choices event) in
  let W := Choice.totalPool choice in
  let rake := Event.creatorCommission event in
  let distributionPool := r_distributionPool (rakeStagesQ T rake) in
  ∀ p, p ∈ payouts calc →
       (* as computed *)
       pi_payout p = distributionPool * (pi_betAmount p / W)
       ∧ pi_profit p = pi_payout p - pi_betAmount p
       (* in exact arithmetic *)
       ∧ pi_payout p == pi_betAmount p * (T / W) * (1 - rake) * 0.975
       ∧ (T == W → 0 <= rake → rake <= 1 → 0 < pi_betAmount p →
          pi_payout p < pi_betAmount p ∧ pi_profit p < 0).
Proof.
  intros Hev Hch Hpos Hcalc T W rake distributionPool p Hp.
  destruct (calculatePayouts_winners s e w event choice Hev Hch Hpos)
    as (calc' & Hcalc' & _ & _ & _ & Hpay & Hall & _).
  rewrite Hcalc in Hcalc'. injection Hcalc' as <-.
  rewrite Forall_forall in Hall. specialize (Hall p Hp). cbv beta in Hall.
  destruct (rakeStagesQ_spec T rake) as (Hr1 & _ & Hr3 & Hr4 & _). cbv zeta in *.
  fold T rake in Hall. fold W in Hall.
  assert (Hformula : pi_payout p == pi_betAmount p * (T / W) * (1 - rake) * 0.975).
  { rewrite Hall, Hr4, Hr3, Hr1. fold W in Hpos. clearbody T W rake. field.
    intros HW. rewrite HW in Hpos. by apply Qlt_irrefl in Hpos. }
  assert (Hprofit : pi_profit p = pi_payout p - pi_betAmount p).
  { rewrite Hpay in Hp. apply list_elem_of_fmap in Hp as (kb & -> & _). done. }
  assert (Hcomputed : pi_payout p = distributionPool * (pi_betAmount p / W)).
  { rewrite Hpay in Hp. apply list_elem_of_fmap in Hp as (kb & -> & _). done. }
  split; [exact Hcomputed|]. split; [exact Hprofit|]. split; [exact Hformula|].
  intros HTW Hr0 Hr1' Hamt.
  assert (Hless : pi_payout p < pi_betAmount p).
  { rewrite Hformula, HTW.
    assert (Hone : W / W == 1).
    { fold W in Hpos. clearbody W. field.
      intros HW. rewrite HW in Hpos. by apply Qlt_irrefl in Hpos. }
    rewrite Hone.
    assert (Hfac : pi_betAmount p * 1 * (1 - rake) * 0.975
                   == pi_betAmount p - pi_betAmount p * (0.025 + 0.975 * rake)) by ring.
    rewrite Hfac.
    assert (Hprod : 0 < pi_betAmount p * (0.025 + 0.975 * rake)).
    { apply Qmult_lt_0_compat; [exact Hamt|]. lra. }
    lra. }
  split; [exact Hless|]. rewrite Hprofit. lra.
Qed.

Lemma winner_payout_formula_witness :
  Forall (λ p, pi_payout p < pi_betAmount p)
         match calculatePayouts Scenario.coinFlipId Letter.A
                 (exec (Scenario.holding 100)
                       (CallPlaceBet 0 Scenario.alice Scenario.sixty)) with
         | Ok calc => payouts calc
         | Throw _ => []
         end.
Proof.
  apply Forall_forall. intros p Hp.
  assert (Hcalc : calculatePayouts Scenario.coinFlipId Letter.A
                    (exec (Scenario.holding 100)
                          (CallPlaceBet 0 Scenario.alice Scenario.sixty))
                  = Ok match calculatePayouts Scenario.coinFlipId Letter.A
                               (exec (Scenario.holding 100)
                                     (CallPlaceBet 0 Scenario.alice Scenario.sixty)) with
                       | Ok calc => calc
                       | Throw _ => mkCalculation [] [] 0 None 0
                       end)
    by (vm_compute; reflexivity).
  rewrite Hcalc in Hp.
  destruct (winner_payout_formula
              (exec (Scenario.holding 100) (CallPlaceBet 0 Scenario.alice Scenario.sixty))
              Scenario.coinFlipId Letter.A
              (Event.with_choices [Choice.mk Letter.A (0 + 60); Choice.mk Letter.B 0]
                 Scenario.coinFlip)
              (Choice.mk Letter.A (0 + 60)) _
              ltac:(by vm_compute) ltac:(reflexivity) ltac:(by vm_compute) Hcalc p Hp)
    as (_ & _ & _ & Hless).
  apply Hless; try (by vm_compute).
  vm_compute in Hp. apply list_elem_of_singleton in Hp. subst p. by vm_compute.
Defined.

(** ** deductChips *)

Lemma Qsum_app (l1 l2 : list Q) : Qsum (l1 ++ l2) == Qsum l1 + Qsum l2.
Proof.
  unfold Qsum. rewrite foldl_app, foldl_Qplus_acc. reflexivity.
Qed.

Lemma taken_snoc (ty ty' : ChipBalanceType.t) (ds : list (ChipBalanceType.t * Q)) (d : Q) :
  taken ty' (ds ++ [(ty, d)]) == taken ty' ds + (if decide (ty = ty') then d else 0).
Proof.
  unfold taken. rewrite filter_app, fmap_app, Qsum_app.
  rewrite filter_cons. simpl. destruct (decide (ty = ty')); simpl.
  - rewrite Qsum_cons. unfold Qsum at 2. simpl. ring.
  - reflexivity.
Qed.

Lemma taken_cons (ty ty' : ChipBalanceType.t) (ds : list (ChipBalanceType.t * Q)) (d : Q) :
  taken ty' ((ty, d) :: ds) == (if decide (ty = ty') then d else 0) + taken ty' ds.
Proof.
  unfold taken. rewrite filter_cons. simpl. destruct (decide (ty = ty')).
  - by rewrite fmap_cons, Qsum_cons.
  - lra.
Qed.

(** One block of [deductChips] takes [min remaining balance] from its
    balance, whether it is entered or not. *)
Lemma deductFrom_spec (ty : ChipBalanceType.t) (balance remaining : Q)
    (ds : list (ChipBalanceType.t * Q)) :
  0 <= remaining → 0 <= balance →
  let r := deductFrom 0 Qltb Qminus Qmin ty balance (ds, remaining) in
  r.2 == remaining - Qmin remaining balance
  ∧ 0 <= r.2
  ∧ (∀ ty', taken ty' r.1
            == taken ty' ds + (if decide (ty = ty') then Qmin remaining balance else 0))
  ∧ (Forall (λ d, 0 < d.2) ds → Forall (λ d, 0 < d.2) r.1)
  ∧ (remaining <= 0 → r.1 = ds).
Proof.
  intros Hrem Hbal. unfold deductFrom.
  destruct (Qltb 0 remaining) eqn:H1; [apply Qltb_lt in H1|apply Qltb_ge in H1];
    (destruct (Qltb 0 balance) eqn:H2; [apply Qltb_lt in H2|apply Qltb_ge in H2]); simpl.
  - split; [reflexivity|].
    split; [destruct (Q.min_spec remaining balance) as [[? Hm]|[? Hm]]; lra|].
    split; [intros ty'; apply taken_snoc|].
    split; [|lra].
    intros Hall. apply Forall_app. split; [done|].
    apply Forall_cons. split; [|constructor]. simpl.
    destruct (Q.min_spec remaining balance) as [[? Hm]|[? Hm]]; lra.
  - assert (Hm : Qmin remaining balance == 0)
      by (destruct (Q.min_spec remaining balance) as [[? Hm]|[? Hm]]; lra).
    split; [lra|]. split; [lra|].
    split; [intros ty'; destruct (decide (ty = ty')); lra|]. done.
  - assert (Hm : Qmin remaining balance == 0)
      by (destruct (Q.min_spec remaining balance) as [[? Hm]|[? Hm]]; lra).
    split; [lra|]. split; [lra|].
    split; [intros ty'; destruct (decide (ty = ty')); lra|]. done.
  - assert (Hm : Qmin remaining balance == 0)
      by (destruct (Q.min_spec remaining balance) as [[? Hm]|[? Hm]]; lra).
    split; [lra|]. split; [lra|].
    split; [intros ty'; destruct (decide (ty = ty')); lra|]. done.
Qed.

(** In exact arithmetic [deductChips] is refused exactly when the amount
    exceeds the total, never reaches its second check, and otherwise splits
    the amount over the balances in the order free, purchased, won: each
    balance gives what is still missing, as far as it goes, and the
    deductions add up to the amount.  The balances it returns are those it
    read: nothing is written. *)
Theorem deductChips_splits_by_priority (u : Id) (amount : Q) (s : Store) :
  let b := getUserBalances s u in
  (totalChips b < amount → deductChips u amount s = inl InsufficientChipBalance)
  ∧ (amount <= totalChips b →
     ∃ ds, deductChips u amount s = inr (mkDeduction ds b)
           ∧ Forall (λ d, 0 < d.2) ds
           ∧ (amount <= 0 → ds = [])
           ∧ (0 <= amount →
              taken ChipBalanceType.free ds == Qmin amount (freeChips b)
              ∧ taken ChipBalanceType.purchased ds
                == Qmin (amount - taken ChipBalanceType.free ds) (purchasedChips b)
              ∧ taken ChipBalanceType.won ds
                == amount - taken ChipBalanceType.free ds
                   - taken ChipBalanceType.purchased ds
              ∧ Qsum ds.*2 == amount)).
Proof.
  intros b. split.
  { intros Hlt. unfold deductChips. fold b. apply Qltb_lt in Hlt. by rewrite Hlt. }
  intros Hle. unfold deductChips. fold b.
  rewrite (proj2 (Qltb_ge _ _)) by exact Hle.
  assert (Hp : 0 <= purchasedChips b) by apply Q.le_max_l.
  assert (Hw : 0 <= wonChips b) by apply Q.le_max_l.
  assert (Hf : 0 <= freeChips b) by apply Q.le_max_l.
  assert (Htot : totalChips b = purchasedChips b + wonChips b + freeChips b) by reflexivity.
  unfold deductStepsQ, deductSteps. rewrite Htot in Hle. clear Htot.
  set (f := freeChips b) in *. set (p := purchasedChips b) in *.
  set (w := wonChips b) in *. clearbody f p w.
  destruct (Qlt_le_dec amount 0) as [Hneg|Hnn].
  { (* nothing to deduct *)
    assert (Hsteps : deductFrom 0 Qltb Qminus Qmin ChipBalanceType.won w
                       (deductFrom 0 Qltb Qminus Qmin ChipBalanceType.purchased p
                          (deductFrom 0 Qltb Qminus Qmin ChipBalanceType.free f
                             ([], amount)))
                     = ([], amount)).
    { unfold deductFrom.
      repeat (rewrite (proj2 (Qltb_ge 0 amount)) by lra; simpl). done. }
    rewrite Hsteps. rewrite (proj2 (Qltb_ge 0 amount)) by lra.
    exists []. split; [done|]. split; [constructor|]. split; [done|]. lra. }
  pose proof (deductFrom_spec ChipBalanceType.free f amount [] Hnn Hf) as H1.
  cbv zeta in H1.
  destruct (deductFrom 0 Qltb Qminus Qmin ChipBalanceType.free f ([], amount))
    as [ds1 rem1]. cbn [fst snd] in H1. destruct H1 as (Hr1 & Hr1nn & Ht1 & Hpos1 & Hz1).
  pose proof (deductFrom_spec ChipBalanceType.purchased p rem1 ds1
                Hr1nn Hp) as H2.
  cbv zeta in H2.
  destruct (deductFrom 0 Qltb Qminus Qmin ChipBalanceType.purchased p
              (ds1, rem1)) as [ds2 rem2].
  cbn [fst snd] in H2. destruct H2 as (Hr2 & Hr2nn & Ht2 & Hpos2 & Hz2).
  pose proof (deductFrom_spec ChipBalanceType.won w rem2 ds2 Hr2nn Hw) as H3.
  cbv zeta in H3.
  destruct (deductFrom 0 Qltb Qminus Qmin ChipBalanceType.won w (ds2, rem2))
    as [ds3 rem3].
  cbn [fst snd] in H3. destruct H3 as (Hr3 & Hr3nn & Ht3 & Hpos3 & Hz3).
  assert (Htf : taken ChipBalanceType.free ds3 == Qmin amount f).
  { rewrite Ht3, Ht2, Ht1. simpl. unfold taken, Qsum. simpl. ring. }
  assert (Htp : taken ChipBalanceType.purchased ds3 == Qmin rem1 p).
  { rewrite Ht3, Ht2, Ht1. simpl. unfold taken, Qsum. simpl. ring. }
  assert (Htw : taken ChipBalanceType.won ds3 == Qmin rem2 w).
  { rewrite Ht3, Ht2, Ht1. simpl. unfold taken, Qsum. simpl. ring. }
  assert (Hdone : rem3 == 0).
  {     destruct (Q.min_spec amount f) as [[_ Hm1]|[_ Hm1]];
      destruct (Q.min_spec rem1 p) as [[_ Hm2]|[_ Hm2]];
      destruct (Q.min_spec rem2 w) as [[_ Hm3]|[Hm3' Hm3]]; lra. }
  rewrite (proj2 (Qltb_ge 0 rem3)) by lra.
  exists ds3. split; [done|]. split; [by apply Hpos3, Hpos2, Hpos1|].
  split.
  { intros Hz.
    assert (Hz1' : rem1 <= 0)
      by (destruct (Q.min_spec amount f) as [[? Hm]|[? Hm]]; lra).
    assert (Hz2' : rem2 <= 0)
      by (destruct (Q.min_spec rem1 p) as [[? Hm]|[? Hm]]; lra).
    by rewrite (Hz3 Hz2'), (Hz2 Hz1'), (Hz1 Hz). }
  intros _. split; [exact Htf|]. split.
  { rewrite Htp, Htf. apply Q.min_compat; [lra|reflexivity]. }
  split; [rewrite Htw, Htp, Htf; lra|].
  assert (Hsum : ∀ ds : list (ChipBalanceType.t * Q),
             Qsum ds.*2 == taken ChipBalanceType.free ds
                           + taken ChipBalanceType.purchased ds
                           + taken ChipBalanceType.won ds).
  { induction ds as [|[ty d] ds IH]; [by vm_compute|].
    rewrite fmap_cons, Qsum_cons, IH, !taken_cons.
    destruct ty; simpl; lra. }
  rewrite Hsum, Htw, Htp, Htf. lra.
Qed.

Lemma deductChips_splits_by_priority_witness :
  let s := mkStore {[Scenario.alice]} ∅ ∅ ∅ ∅
             [Ledger.mk Scenario.alice Currency.chips 1 0 1 TxType.referral_reward None None;
              Ledger.mk Scenario.alice Currency.chips 10 1 11 TxType.deposit None None;
              Ledger.mk Scenario.alice Currency.chips 5 11 16 TxType.bet_won None None] in
  ∃ ds, deductChips Scenario.alice 12 s
        = inr (mkDeduction ds (getUserBalances s Scenario.alice))
        ∧ taken ChipBalanceType.free ds == 1
        ∧ taken ChipBalanceType.purchased ds == 10
        ∧ taken ChipBalanceType.won ds == 1.
Proof.
  intros s.
  destruct (deductChips_splits_by_priority Scenario.alice 12 s) as [_ Hok].
  destruct Hok as (ds & Hd & _ & _ & Hsplit); [by vm_compute|].
  destruct Hsplit as (Hf & Hp & Hw & _); [by vm_compute|].
  exists ds. split; [exact Hd|].
  assert (Hf' : taken ChipBalanceType.free ds == 1) by (rewrite Hf; by vm_compute).
  assert (Hp' : taken ChipBalanceType.purchased ds == 10)
    by (rewrite Hp, Hf'; by vm_compute).
  split; [exact Hf'|]. split; [exact Hp'|]. rewrite Hw, Hf', Hp'. by vm_compute.
Defined.

(** At binary64 the second check of [deductChips] ("should never happen",
    status 500) is reachable: with 0.1 purchased, 0.2 won and 0.3 free
    chips the total is 0.6000000000000001; asking for exactly that passes
    the first check, and after the three deductions 8.3e-17 remains. *)
Theorem deductChips_binary64_second_check_reachable :
  ∃ purchased won free : float,
    let total := Binary64Balance.totalChipsF purchased won free in
    let '(ds, remaining) := Binary64Balance.deductStepsF free purchased won total in
    PrimFloat.ltb total total = false
    ∧ ds.*1 = [ChipBalanceType.free; ChipBalanceType.purchased; ChipBalanceType.won]
    ∧ PrimFloat.ltb 0 remaining = true.
Proof.
  exists 0x1.999999999999ap-4%float, 0x1.999999999999ap-3%float,
         0x1.3333333333333p-2%float.
  vm_compute. done.
Qed.

(** ** UUID keys *)

Lemma fromHex_toHex_byte (b : Byte.byte) (rest : list ascii) :
  Uuid.fromHex (Uuid.hexDigit (Byte.to_N b / 16) :: Uuid.hexDigit (Byte.to_N b mod 16) :: rest)
  = b :: Uuid.fromHex rest.
Proof. destruct b; reflexivity. Qed.

Lemma fromHex_toHex (buffer : list Byte.byte) : Uuid.fromHex (Uuid.toHex buffer) = buffer.
Proof.
  induction buffer as [|b buffer IH]; [done|].
  unfold Uuid.toHex. cbn [flat_map app]. fold (Uuid.toHex buffer).
  by rewrite fromHex_toHex_byte, IH.
Qed.

Lemma hexDigit_not_dash (n : N) : Uuid.hexDigit n ≠ "-"%char.
Proof.
  unfold Uuid.hexDigit.
  generalize (nth_in_or_default (N.to_nat n) (list_ascii_of_string "0123456789abcdef")
                "0"%char).
  generalize (nth (N.to_nat n) (list_ascii_of_string "0123456789abcdef") "0"%char).
  intros c [Hin| ->]; [|done]. simpl in Hin. intros ->.
  repeat (destruct Hin as [Hin|Hin]; [discriminate|]). done.
Qed.

Lemma toHex_no_dash (buffer : list Byte.byte) : Forall (λ c, c ≠ "-"%char) (Uuid.toHex buffer).
Proof.
  induction buffer as [|b buffer IH]; [constructor|].
  unfold Uuid.toHex. cbn [flat_map app]. fold (Uuid.toHex buffer).
  repeat (constructor; [apply hexDigit_not_dash|]). exact IH.
Qed.

Lemma filter_Forall_id {A} (P : A → Prop) `{∀ x, Decision (P x)} (l : list A) :
  Forall P l → filter P l = l.
Proof.
  induction 1 as [|x l Hx _ IH]; [done|]. by rewrite filter_cons, decide_True, IH.
Qed.

Lemma take_toHex (n : nat) (buffer : list Byte.byte) :
  take (2 * n) (Uuid.toHex buffer) = Uuid.toHex (take n buffer).
Proof.
  revert buffer. induction n as [|n IH]; intros buffer; [done|].
  destruct buffer as [|b buffer]; [done|].
  replace (2 * S n)%nat with (S (S (2 * n))) by lia.
  unfold Uuid.toHex. cbn [flat_map app take]. fold (Uuid.toHex buffer) (Uuid.toHex (take n buffer)).
  by rewrite IH.
Qed.

Lemma take_drop_next {A} (l : list A) (a n m : nat) :
  take n (drop a l) ++ take m (drop (a + n) l) = take (n + m) (drop a l).
Proof. by rewrite <- drop_drop, take_take_drop. Qed.

Lemma pieces_are_a_prefix (hex : list ascii) :
  Uuid.substring 0 8 hex ++ Uuid.substring 8 12 hex ++ Uuid.substring 12 16 hex
  ++ Uuid.substring 16 20 hex ++ Uuid.substring 20 32 hex = take 32 hex.
Proof.
  unfold Uuid.substring. cbn [Nat.sub]. rewrite drop_0.
  change (take 32 hex) with (take (8 + (4 + (4 + (4 + 12)))) hex).
  rewrite <- !take_take_drop, !drop_drop. reflexivity.
Qed.

Lemma substring_Forall (P : ascii → Prop) (a b : nat) (s : list ascii) :
  Forall P s → Forall P (Uuid.substring a b s).
Proof. intros Hs. unfold Uuid.substring. by apply Forall_take, Forall_drop. Qed.

Lemma filter_join5 (p1 p2 p3 p4 p5 : list ascii) :
  Forall (λ c, c ≠ "-"%char) (p1 ++ p2 ++ p3 ++ p4 ++ p5) →
  filter (λ c, c ≠ "-"%char) (Uuid.join "-" [p1; p2; p3; p4; p5])
  = p1 ++ p2 ++ p3 ++ p4 ++ p5.
Proof.
  intros Hall. cbn [Uuid.join].
  repeat (rewrite filter_app, filter_cons, decide_False by (intros Hne; by apply Hne)).
  rewrite <- !filter_app. by apply filter_Forall_id.
Qed.

(** Decoding what [Uuid.bufferToUuid] wrote gives back the first sixteen bytes
    of the buffer: the buffer itself when it is a BINARY(16) key. *)
Theorem uuidToBuffer_bufferToUuid (buffer : list Byte.byte) :
  Uuid.uuidToBuffer (Uuid.bufferToUuid buffer) = take 16 buffer.
Proof.
  unfold Uuid.uuidToBuffer, Uuid.bufferToUuid. cbv zeta.
  rewrite filter_join5.
  - rewrite pieces_are_a_prefix. rewrite (take_toHex 16). apply fromHex_toHex.
  - rewrite pieces_are_a_prefix. apply Forall_take, toHex_no_dash.
Qed.

Lemma unhex_lower (c : ascii) (n : N) :
  Uuid.unhex c = Some n → (n < 16)%N ∧ Uuid.hexDigit n = Uuid.lower c.
Proof.
  destruct c as [[] [] [] [] [] [] [] []]; vm_compute; intros [= <-]; done.
Qed.

Lemma fromHex_pair (c1 c2 : ascii) (rest : list ascii) :
  is_Some (Uuid.unhex c1) → is_Some (Uuid.unhex c2) →
  ∃ x, Uuid.fromHex (c1 :: c2 :: rest) = x :: Uuid.fromHex rest
       ∧ Uuid.hexDigit (Byte.to_N x / 16) = Uuid.lower c1
       ∧ Uuid.hexDigit (Byte.to_N x mod 16) = Uuid.lower c2.
Proof.
  intros [a Ha] [b Hb]. cbn [Uuid.fromHex]. rewrite Ha, Hb.
  apply unhex_lower in Ha as [Ha <-]. apply unhex_lower in Hb as [Hb <-].
  destruct (Byte.of_N (16 * a + b)) as [x|] eqn:Hx.
  - exists x. split; [done|]. apply Byte.to_of_N in Hx. rewrite Hx.
    rewrite <- (N.div_unique (16 * a + b) 16 a b Hb eq_refl).
    by rewrite <- (N.mod_unique (16 * a + b) 16 a b Hb eq_refl).
  - apply Byte.of_N_None_iff in Hx. lia.
Qed.

Lemma toHex_fromHex (n : nat) (hex : list ascii) :
  length hex = (2 * n)%nat → Forall (λ c, is_Some (Uuid.unhex c)) hex →
  Uuid.toHex (Uuid.fromHex hex) = Uuid.lower <$> hex ∧ length (Uuid.fromHex hex) = n.
Proof.
  revert hex. induction n as [|n IH]; intros hex Hlen Hall.
  - destruct hex; [done|discriminate].
  - destruct hex as [|c1 [|c2 rest]]; [discriminate|simpl in Hlen; lia|].
    apply Forall_cons in Hall as [H1 Hall]. apply Forall_cons in Hall as [H2 Hall].
    destruct (fromHex_pair c1 c2 rest H1 H2) as (x & -> & Hx1 & Hx2).
    destruct (IH rest) as [IH1 IH2]; [simpl in Hlen; lia|done|].
    split; [|simpl; by rewrite IH2].
    unfold Uuid.toHex. cbn [flat_map app]. fold (Uuid.toHex (Uuid.fromHex rest)).
    by rewrite Hx1, Hx2, IH1.
Qed.

Lemma substring_app (pre rest : list ascii) (a b : nat) :
  length pre = a → Uuid.substring a b (pre ++ rest) = take (b - a) rest.
Proof. intros <-. unfold Uuid.substring. by rewrite drop_app_length. Qed.

(** A well-formed UUID survives the way into a BINARY(16) key and back, up
    to the case of its digits; the key has sixteen bytes. *)
Theorem bufferToUuid_uuidToBuffer (uuid : list ascii) :
  Uuid.wellFormed uuid →
  length (Uuid.uuidToBuffer uuid) = 16%nat
  ∧ Uuid.bufferToUuid (Uuid.uuidToBuffer uuid) = Uuid.lower <$> uuid.
Proof.
  intros (p1 & p2 & p3 & p4 & p5 & -> & H1 & H2 & H3 & H4 & H5 & Hhex).
  unfold Uuid.uuidToBuffer, Uuid.bufferToUuid. cbv zeta.
  rewrite filter_join5.
  2:{ eapply Forall_impl; [exact Hhex|]. intros c [n Hn] ->. discriminate. }
  destruct (toHex_fromHex 16 (p1 ++ p2 ++ p3 ++ p4 ++ p5)) as [Hround Hlen];
    [rewrite !length_app; lia|exact Hhex|].
  split; [exact Hlen|]. rewrite Hround, !fmap_app.
  set (q1 := Uuid.lower <$> p1). set (q2 := Uuid.lower <$> p2). set (q3 := Uuid.lower <$> p3).
  set (q4 := Uuid.lower <$> p4). set (q5 := Uuid.lower <$> p5).
  assert (L1 : length q1 = 8%nat) by (unfold q1; by rewrite length_fmap).
  assert (L2 : length q2 = 4%nat) by (unfold q2; by rewrite length_fmap).
  assert (L3 : length q3 = 4%nat) by (unfold q3; by rewrite length_fmap).
  assert (L4 : length q4 = 4%nat) by (unfold q4; by rewrite length_fmap).
  assert (L5 : length q5 = 12%nat) by (unfold q5; by rewrite length_fmap).
  assert (S1 : Uuid.substring 0 8 (q1 ++ q2 ++ q3 ++ q4 ++ q5) = q1).
  { unfold Uuid.substring. rewrite drop_0. by apply take_app_length'. }
  assert (S2 : Uuid.substring 8 12 (q1 ++ q2 ++ q3 ++ q4 ++ q5) = q2).
  { rewrite (substring_app q1 _ 8 12 L1). by apply take_app_length'. }
  assert (S3 : Uuid.substring 12 16 (q1 ++ q2 ++ q3 ++ q4 ++ q5) = q3).
  { rewrite (app_assoc q1 q2).
    rewrite (substring_app (q1 ++ q2) _ 12 16) by (rewrite length_app; lia).
    by apply take_app_length'. }
  assert (S4 : Uuid.substring 16 20 (q1 ++ q2 ++ q3 ++ q4 ++ q5) = q4).
  { rewrite (app_assoc q1 q2), (app_assoc (q1 ++ q2) q3).
    rewrite (substring_app ((q1 ++ q2) ++ q3) _ 16 20) by (rewrite !length_app; lia).
    by apply take_app_length'. }
  assert (S5 : Uuid.substring 20 32 (q1 ++ q2 ++ q3 ++ q4 ++ q5) = q5).
  { rewrite (app_assoc q1 q2), (app_assoc (q1 ++ q2) q3), (app_assoc _ q4).
    rewrite (substring_app (((q1 ++ q2) ++ q3) ++ q4) _ 20 32)
      by (rewrite !length_app; lia).
    apply take_ge. lia. }
  rewrite S1, S2, S3, S4, S5. cbn [Uuid.join]. subst q1 q2 q3 q4 q5.
  repeat (rewrite fmap_app || rewrite fmap_cons). reflexivity.
Qed.

Lemma bufferToUuid_uuidToBuffer_witness :
  let uuid := list_ascii_of_string "550E8400-e29b-41d4-A716-446655440000" in
  Uuid.bufferToUuid (Uuid.uuidToBuffer uuid)
  = list_ascii_of_string "550e8400-e29b-41d4-a716-446655440000".
Proof.
  intros uuid.
  assert (Hwf : Uuid.wellFormed uuid).
  { exists (list_ascii_of_string "550E8400"), (list_ascii_of_string "e29b"),
           (list_ascii_of_string "41d4"), (list_ascii_of_string "A716"),
           (list_ascii_of_string "446655440000").
    repeat (split; [reflexivity|]).
    repeat (apply Forall_cons; split; [by eexists|]). constructor. }
  destruct (bufferToUuid_uuidToBuffer uuid Hwf) as [_ ->]. reflexivity.
Defined.

Lemma fromHex_hexPrefix (hex : list ascii) :
  let good := hexPrefix hex in
  length (Uuid.fromHex hex) = (length good / 2)%nat
  ∧ Uuid.toHex (Uuid.fromHex hex) = Uuid.lower <$> take (2 * (length good / 2)) good
  ∧ Uuid.fromHex hex = Uuid.fromHex (take (2 * (length good / 2)) good).
Proof.
  remember (length hex) as n eqn:Hn. revert hex Hn.
  induction n as [n IH] using lt_wf_ind. intros hex Hn.
  destruct hex as [|c1 [|c2 rest]].
  - done.
  - simpl. by destruct (Uuid.unhex c1).
  - cbn [hexPrefix].
    destruct (Uuid.unhex c1) as [a|] eqn:H1; [|cbn [Uuid.fromHex]; by rewrite H1].
    destruct (Uuid.unhex c2) as [b|] eqn:H2; [|cbn [Uuid.fromHex]; by rewrite H1, H2].
    destruct (fromHex_pair c1 c2 rest) as (x & Hx & Hx1 & Hx2); [by rewrite H1|by rewrite H2|].
    destruct (IH (length rest)) with (hex := rest) as (IH1 & IH2 & IH3);
      [simpl in Hn; lia|done|].
    cbv zeta. cbn [length].
    replace (S (S (length (hexPrefix rest))) / 2)%nat
      with (S (length (hexPrefix rest) / 2))
      by (replace (S (S (length (hexPrefix rest)))) with (length (hexPrefix rest) + 1 * 2)%nat
            by lia; rewrite Nat.div_add by done; lia).
    replace (2 * S (length (hexPrefix rest) / 2))%nat
      with (S (S (2 * (length (hexPrefix rest) / 2)))) by lia.
    cbn [take]. rewrite Hx. split; [simpl; by rewrite IH1|]. split.
    + unfold Uuid.toHex. cbn [flat_map app]. fold (Uuid.toHex (Uuid.fromHex rest)).
      by rewrite Hx1, Hx2, IH2, !fmap_cons.
    + destruct (fromHex_pair c1 c2 (take (2 * (length (hexPrefix rest) / 2))
                                         (hexPrefix rest)))
        as (y & Hy & Hy1 & Hy2); [by rewrite H1|by rewrite H2|].
      rewrite Hy, <- IH3. f_equal.
      cbn [Uuid.fromHex] in Hx, Hy. rewrite H1, H2 in Hx, Hy.
      destruct (Byte.of_N (16 * a + b)); [|discriminate].
      injection Hx as <-. by injection Hy as <-.
Qed.

(** [uuidToBuffer] never fails, whatever the string: once the hyphens are
    removed it decodes the digits two by two up to the first character that
    is not a hexadecimal digit and silently drops the rest.  With [good] the
    digits in front of that character, the key has [length good / 2] bytes
    and reads, in hexadecimal, as the first [2 * (length good / 2)] of them
    in lower case: when an odd number of digits comes first, the last of
    them is dropped as well.  So the key is empty when the string starts
    with such a character, and shorter than sixteen bytes when fewer than
    thirty-two digits come first. *)
Theorem uuidToBuffer_truncates (uuid : list ascii) :
  let hex := filter (λ c, c ≠ "-"%char) uuid in
  let good := hexPrefix hex in
  let decoded := take (2 * (length good / 2)) good in
  length (Uuid.uuidToBuffer uuid) = (length good / 2)%nat
  ∧ Uuid.toHex (Uuid.uuidToBuffer uuid) = Uuid.lower <$> decoded
  ∧ Uuid.uuidToBuffer uuid = Uuid.fromHex decoded
  ∧ (good = [] → Uuid.uuidToBuffer uuid = [])
  ∧ (length good < 32 → length (Uuid.uuidToBuffer uuid) < 16)%nat.
Proof.
  intros hex good decoded. unfold Uuid.uuidToBuffer. cbv zeta. fold hex.
  destruct (fromHex_hexPrefix hex) as (Hlen & Hhex & Hdec). cbv zeta in *.
  fold good in Hlen, Hhex, Hdec. fold decoded in Hhex, Hdec.
  split; [exact Hlen|]. split; [exact Hhex|]. split; [exact Hdec|]. split.
  - intros Hnil. apply length_zero_iff_nil. rewrite Hlen, Hnil. done.
  - intros Hshort. rewrite Hlen.
    apply Nat.Div0.div_lt_upper_bound; lia.
Qed.

Lemma uuidToBuffer_truncates_witness :
  let odd := list_ascii_of_string "550e8z00-e29b-41d4-a716-446655440000" in
  let even := list_ascii_of_string "550e84zz-e29b-41d4-a716-446655440000" in
  (Uuid.toHex (Uuid.uuidToBuffer odd) = list_ascii_of_string "550e"
   ∧ Uuid.uuidToBuffer odd = [Byte.x55; Byte.x0e])
  ∧ (Uuid.toHex (Uuid.uuidToBuffer even) = list_ascii_of_string "550e84"
     ∧ Uuid.uuidToBuffer even = [Byte.x55; Byte.x0e; Byte.x84])
  ∧ Uuid.uuidToBuffer (list_ascii_of_string "not-a-uuid") = [].
Proof.
  intros odd even. split; [|split].
  - destruct (uuidToBuffer_truncates odd) as (_ & -> & -> & _). by vm_compute.
  - destruct (uuidToBuffer_truncates even) as (_ & -> & -> & _). by vm_compute.
  - destruct (uuidToBuffer_truncates (list_ascii_of_string "not-a-uuid"))
      as (_ & _ & _ & Hnil & _).
    apply Hnil. by vm_compute.
Defined.

(** ** The price oracle *)

Lemma getSOLPrice_nonzero (network : PriceOracle.Network) (answer : PriceOracle.PythAnswer)
    (price : Q) :
  PriceOracle.getSOLPrice network answer = Some price → ¬ price == 0.
Proof.
  unfold PriceOracle.getSOLPrice.
  destruct answer as [| | |p]; try (destruct (bool_decide _); intros [= <-]; done).
  destruct (Qeq_bool p 0) eqn:Hz.
  - destruct (bool_decide _); intros [= <-]; done.
  - intros [= <-]. intros Hp. apply Qeq_bool_iff in Hp. congruence.
Qed.

Lemma getSOLPrice_devnet (answer : PriceOracle.PythAnswer) :
  is_Some (PriceOracle.getSOLPrice PriceOracle.devnet answer).
Proof.
  unfold PriceOracle.getSOLPrice.
  destruct answer as [| | |p]; simpl; try done. by destruct (Qeq_bool p 0).
Qed.

(** [getSOLPrice] never returns zero, so neither conversion divides by it;
    on devnet it never fails (the fallback price is 100), elsewhere it
    fails exactly when the feed delivers no price or the price 0; and a
    dollar amount converted to SOL and back is the amount again. *)
Theorem getSOLPrice_safe_to_divide_by (network : PriceOracle.Network)
    (answer : PriceOracle.PythAnswer) :
  (∀ price, PriceOracle.getSOLPrice network answer = Some price → ¬ price == 0)
  ∧ (network = PriceOracle.devnet → is_Some (PriceOracle.getSOLPrice network answer))
  ∧ (network ≠ PriceOracle.devnet →
     (PriceOracle.getSOLPrice network answer = None
      ↔ ∀ price, answer = PriceOracle.Price price → price == 0))
  ∧ (∀ usd sol, PriceOracle.usdToSOL network answer usd = Some sol →
                ∃ back, PriceOracle.solToUSD network answer sol = Some back
                        ∧ back == usd).
Proof.
  split; [intros price; apply getSOLPrice_nonzero|]. split; [|split].
  - intros ->. apply getSOLPrice_devnet.
  - intros Hnet. unfold PriceOracle.getSOLPrice.
    rewrite (bool_decide_eq_false_2 _ Hnet).
    destruct answer as [| | |p]; try (split; [intros _ price [=]|done]).
    destruct (Qeq_bool p 0) eqn:Hz.
    + split; [|done]. intros _ price [= <-]. by apply Qeq_bool_iff.
    + split; [done|]. intros Hall. specialize (Hall p eq_refl).
      apply Qeq_bool_iff in Hall. congruence.
  - intros usd sol. unfold PriceOracle.usdToSOL, PriceOracle.solToUSD.
    destruct (PriceOracle.getSOLPrice network answer) as [price|] eqn:Hprice; [|done].
    intros [= <-]. eexists. split; [reflexivity|].
    field. by apply (getSOLPrice_nonzero network answer).
Qed.

Lemma getSOLPrice_safe_to_divide_by_witness :
  PriceOracle.getSOLPrice PriceOracle.mainnet_beta (PriceOracle.Price 0) = None
  ∧ ∃ back, PriceOracle.solToUSD PriceOracle.devnet PriceOracle.FeedMissing (40 / 100)
            = Some back ∧ back == 40.
Proof.
  destruct (getSOLPrice_safe_to_divide_by PriceOracle.mainnet_beta (PriceOracle.Price 0))
    as (_ & _ & Hfail & _).
  split.
  - apply Hfail; [done|]. by intros price [= <-].
  - destruct (getSOLPrice_safe_to_divide_by PriceOracle.devnet PriceOracle.FeedMissing)
      as (_ & _ & _ & Hround).
    apply (Hround 40 (40 / 100)). reflexivity.
Defined.

(** Whatever the cache holds and whatever the feed answers, a price that
    [getSOLPriceCached] returns is the price in the cache after the call,
    and that entry is less than thirty seconds old by the caller's clock; a
    call that fails leaves the cache as it was, and happens only off devnet
    with a cache that is empty or at least thirty seconds old. *)
Theorem getSOLPriceCached_serves_recent_prices (network : PriceOracle.Network)
    (answer : PriceOracle.PythAnswer) (now : Z) (cachedPrice : option PriceOracle.Cached) :
  let r := PriceOracle.getSOLPriceCached network answer now cachedPrice in
  (∀ price, r.1 = Some price →
            ∃ c, r.2 = Some c ∧ PriceOracle.c_price c = price
                 ∧ (now - PriceOracle.c_timestamp c < 30000)%Z
                 ∧ (cachedPrice = Some c
                    ∨ (PriceOracle.getSOLPrice network answer = Some price
                       ∧ PriceOracle.c_timestamp c = now)))
  ∧ (r.1 = None →
     r.2 = cachedPrice ∧ network ≠ PriceOracle.devnet
     ∧ ∀ c, cachedPrice = Some c → (30000 ≤ now - PriceOracle.c_timestamp c)%Z)
  ∧ (∀ c, cachedPrice = Some c → (now - PriceOracle.c_timestamp c < 30000)%Z →
          r = (Some (PriceOracle.c_price c), cachedPrice)).
Proof.
  intros r. unfold r, PriceOracle.getSOLPriceCached, PriceOracle.CACHE_DURATION.
  assert (Hdev : PriceOracle.getSOLPrice network answer = None →
                 network ≠ PriceOracle.devnet).
  { intros Hnone ->. destruct (getSOLPrice_devnet answer) as [p Hp]. congruence. }
  destruct cachedPrice as [c|].
  - destruct (bool_decide (now - PriceOracle.c_timestamp c < 30 * 1000)%Z) eqn:Hfresh.
    + apply bool_decide_eq_true in Hfresh. simpl. split; [|split].
      * intros price [= <-]. exists c. repeat split; try done. by left.
      * done.
      * by intros c' [= <-] _.
    + apply bool_decide_eq_false in Hfresh.
      destruct (PriceOracle.getSOLPrice network answer) as [p|] eqn:Hp; simpl.
      * split; [|split]; [|done|].
        -- intros price [= <-]. eexists. split; [reflexivity|]. simpl.
           split; [done|]. split; [lia|]. by right.
        -- intros c' [= <-] Hlt. lia.
      * split; [done|]. split.
        -- intros _. split; [done|]. split; [by apply Hdev|].
           intros c' [= <-]. lia.
        -- intros c' [= <-] Hlt. lia.
  - destruct (PriceOracle.getSOLPrice network answer) as [p|] eqn:Hp; simpl.
    + split; [|split]; [|done|done].
      intros price [= <-]. eexists. split; [reflexivity|]. simpl.
      split; [done|]. split; [lia|]. by right.
    + split; [done|]. split; [|done].
      intros _. split; [done|]. split; [by apply Hdev|]. done.
Qed.

Lemma getSOLPriceCached_serves_recent_prices_witness :
  PriceOracle.getSOLPriceCached PriceOracle.mainnet_beta PriceOracle.ClientThrows 29999
    (Some (PriceOracle.mkCached 150 0))
  = (Some 150, Some (PriceOracle.mkCached 150 0)).
Proof.
  destruct (getSOLPriceCached_serves_recent_prices PriceOracle.mainnet_beta
              PriceOracle.ClientThrows 29999 (Some (PriceOracle.mkCached 150 0)))
    as (_ & _ & Hserve).
  apply (Hserve (PriceOracle.mkCached 150 0)); [reflexivity|]. simpl. lia.
Defined.

(** With the oracle behind [usdToSOL]: a withdrawal request in SOL is
    answered with status 500, and holds nothing, when the user has the won
    chips but the oracle has no price (off devnet only); on devnet a
    request is accepted exactly when the won chips [getUserBalances]
    returns cover it; the crypto amount of an accepted request in SOL is
    what [usdToSOL] returns for the chip amount, the one division [amount /
    price] by the oracle's price, which is not zero.  Requests in USDC
    never consult the oracle: their crypto amount is the chip amount. *)
Theorem withdrawals_and_the_oracle (network : PriceOracle.Network)
    (answer : PriceOracle.PythAnswer) (sendSOL sendUSDC : string → Q → option string)
    (u : Id) (input : WithdrawalRequestInput) (s : Store) :
  let chain := PriceOracle.chain network answer sendSOL sendUSDC in
  (wi_currency input = Currency.sol →
   wi_amount input <= wonChips (getUserBalances s u) →
   PriceOracle.getSOLPrice network answer = None →
   requestWithdrawal chain u input s = (Throw collaboratorFailure, s))
  ∧ (wi_currency input ≠ Currency.sol ∨ network = PriceOracle.devnet →
     (isOk (requestWithdrawal chain u input s).1 = true
      ↔ wi_amount input <= wonChips (getUserBalances s u)))
  ∧ (∀ receipt s1,
       requestWithdrawal chain u input s = (Ok receipt, s1) →
       if bool_decide (wi_currency input = Currency.sol)
       then PriceOracle.usdToSOL network answer (wi_amount input)
            = Some (wr_cryptoAmount receipt)
            ∧ ∃ price, PriceOracle.getSOLPrice network answer = Some price
                       ∧ ¬ price == 0
                       ∧ wr_cryptoAmount receipt = wi_amount input / price
       else wr_cryptoAmount receipt = wi_amount input).
Proof.
  intros chain. split; [|split].
  - intros Hsol Hle Hnone. unfold requestWithdrawal. cbv zeta.
    rewrite (proj2 (Qltb_ge _ _)) by exact Hle.
    rewrite bool_decide_eq_true_2 by exact Hsol.
    simpl. unfold PriceOracle.usdToSOL. by rewrite Hnone.
  - intros Hcase. unfold requestWithdrawal. cbv zeta.
    destruct (Qltb (wonChips (getUserBalances s u)) (wi_amount input)) eqn:Hlt.
    + apply Qltb_lt in Hlt. simpl. split; [done|]. intros Hle. lra.
    + apply Qltb_ge in Hlt.
      assert (Hconv : is_Some (if bool_decide (wi_currency input = Currency.sol)
                               then usdToSOL chain (wi_amount input)
                               else Some (wi_amount input))).
      { destruct (bool_decide (wi_currency input = Currency.sol)) eqn:Hsol; [|done].
        apply bool_decide_eq_true in Hsol.
        destruct Hcase as [Hne| ->]; [done|].
        simpl. unfold PriceOracle.usdToSOL.
        by destruct (getSOLPrice_devnet answer) as [p ->]. }
      destruct Hconv as [crypto ->]. simpl. done.
  - intros receipt s1 Hreq.
    unfold requestWithdrawal in Hreq. cbv zeta in Hreq.
    destruct (Qltb _ _); [discriminate|].
    destruct (bool_decide (wi_currency input = Currency.sol)).
    + simpl in Hreq. unfold PriceOracle.usdToSOL in *.
      destruct (PriceOracle.getSOLPrice network answer) as [price|] eqn:Hprice;
        [|discriminate].
      injection Hreq as <- _. simpl. split; [done|].
      exists price. split; [done|]. split; [|done].
      by apply (getSOLPrice_nonzero network answer).
    + by injection Hreq as <- _.
Qed.

Lemma withdrawals_and_the_oracle_witness :
  requestWithdrawal
    (PriceOracle.chain PriceOracle.mainnet_beta PriceOracle.FeedMissing
                       (λ _ _, Some "sig"%string) (λ _ _, Some "sig"%string))
    Scenario.alice (mkWithdrawalInput 40 Currency.sol "wallet") (Scenario.winner 100)
  = (Throw collaboratorFailure, Scenario.winner 100).
Proof.
  apply (withdrawals_and_the_oracle PriceOracle.mainnet_beta PriceOracle.FeedMissing
           (λ _ _, Some "sig"%string) (λ _ _, Some "sig"%string)
           Scenario.alice (mkWithdrawalInput 40 Currency.sol "wallet")
           (Scenario.winner 100)).
  - reflexivity.
  - by vm_compute.
  - reflexivity.
Defined.

(** ** Creating an event *)

Lemma findChoice_fresh_choices (letter : Letter.t) (letters : list Letter.t) :
  letter ∈ letters →
  is_Some (findChoice letter ((λ l, Choice.mk l 0) <$> letters)).
Proof.
  unfold findChoice. induction letters as [|l letters IH]; intros Hin.
  - by apply elem_of_nil in Hin.
  - rewrite fmap_cons. cbn [find]. simpl.
    destruct (bool_decide (l = letter)) eqn:Hl; [by eexists|].
    apply bool_decide_eq_false in Hl.
    apply elem_of_cons in Hin as [->|Hin]; [done|]. by apply IH.
Qed.

(** [createEvent] answers an unknown category with "not found" and writes
    nothing.  Otherwise it adds one event under a key that was not in use
    and touches nothing else: the event is active, every pool is zero, it
    keeps pools and stakes matched, and a bet on one of its choices before
    the lock time is accepted from anyone whose chips cover it. *)
Theorem createEvent_opens_a_fresh_event (categories : list (list Byte.byte)) (adminId : Id)
    (input : CreateEventInput) (s : Store) :
  (Uuid.uuidToBuffer (ce_categoryId input) ∉ categories →
   createEvent categories adminId input s = (inl CategoryNotFound, s))
  ∧ (Uuid.uuidToBuffer (ce_categoryId input) ∈ categories →
     ∃ e ev s',
       createEvent categories adminId input s = (inr (e, ev), s')
       ∧ events s !! e = None ∧ events s' !! e = Some ev
       ∧ (∀ e', e' ≠ e → events s' !! e' = events s !! e')
       ∧ eventBets s' = eventBets s ∧ eventPayouts s' = eventPayouts s
       ∧ cashOutRequests s' = cashOutRequests s ∧ ledger s' = ledger s
       ∧ Event.status ev = EventStatus.active
       ∧ Event.creatorCommission ev = ce_eventRake input
       ∧ Choice.choiceLetter <$> Event.choices ev = ce_choices input
       ∧ Forall (λ c, Choice.totalPool c = 0) (Event.choices ev)
       ∧ (betsReferToEvents s → poolsMatchStakes s →
          betsReferToEvents s' ∧ poolsMatchStakes s')
       ∧ (∀ now u letter amount,
            (now < ce_lockTime input)%Z → letter ∈ ce_choices input →
            amount <= totalChips (getUserBalances s u) →
            isOk (placeBet now u (mkPlaceBet e letter amount) s').1 = true)).
Proof.
  split.
  { intros Hno. unfold createEvent. cbv zeta. by rewrite bool_decide_eq_false_2. }
  intros Hyes. unfold createEvent. cbv zeta. rewrite bool_decide_eq_true_2 by exact Hyes.
  set (e := fresh (dom (events s))).
  set (ev := Event.mk EventStatus.active (Some (ce_lockTime input)) None
                      (ce_eventRake input)
                      ((λ letter, Choice.mk letter 0) <$> ce_choices input)).
  assert (Hfresh : events s !! e = None) by (apply not_elem_of_dom, is_fresh).
  exists e, ev, (set_events (insert e ev) s).
  split; [done|]. split; [exact Hfresh|]. split; [apply lookup_insert_eq|].
  split; [intros e' Hne; simpl; by rewrite lookup_insert_ne|].
  do 4 (split; [done|]). split; [done|]. split; [done|]. split.
  { simpl. rewrite <- list_fmap_compose. apply list_fmap_id. }
  split.
  { simpl. apply Forall_fmap, Forall_forall. done. }
  split.
  - intros Hrefs Hinv. split.
    + intros k b Hb. simpl in *. destruct (Hrefs k b Hb) as [ev' Hev'].
      destruct (decide (Bet.eventId b = e)) as [Heq|Hne].
      * rewrite Heq. rewrite lookup_insert_eq. by eexists.
      * rewrite lookup_insert_ne by done. by eexists.
    + intros e0 ev0 c0 Hev0 Hc0. simpl in Hev0.
      destruct (decide (e = e0)) as [<-|Hne].
      * rewrite lookup_insert_eq in Hev0. injection Hev0 as <-. simpl in Hc0.
        apply list_elem_of_fmap in Hc0 as (l & -> & _). simpl.
        unfold stakes, sumOver. simpl. rewrite filter_none; [reflexivity|].
        intros b Hb [He _]. apply list_elem_of_fmap in Hb as ([k b'] & -> & Hkb).
        apply elem_of_map_to_list in Hkb. destruct (Hrefs k b' Hkb) as [ev' Hev'].
        simpl in He. rewrite He in Hev'. congruence.
      * rewrite lookup_insert_ne in Hev0 by done.
        exact (Hinv e0 ev0 c0 Hev0 Hc0).
  - intros now u letter amount Hnow Hletter Hamount.
    rewrite placeBet_isOk. apply placeBet_check_ok_iff.
    exists ev. split; [simpl; by rewrite lookup_insert_eq|].
    split; [done|]. split; [by intros t [= <-]|].
    split; [by apply findChoice_fresh_choices|]. exact Hamount.
Qed.

Lemma createEvent_opens_a_fresh_event_witness :
  let category := Uuid.uuidToBuffer
                    (list_ascii_of_string "550e8400-e29b-41d4-a716-446655440000") in
  let input := mkCreateEvent
                 (list_ascii_of_string "550E8400-E29B-41D4-A716-446655440000")
                 [Letter.A; Letter.B; Letter.C] 1000 0.02 in
  ∃ e ev s',
    createEvent [category] Scenario.admin input Scenario.staked = (inr (e, ev), s')
    ∧ poolsMatchStakes s'
    ∧ isOk (placeBet 999 Scenario.alice (mkPlaceBet e Letter.C 250) s').1 = true.
Proof.
  intros category input.
  destruct (createEvent_opens_a_fresh_event [category] Scenario.admin input
              Scenario.staked) as [_ Hok].
  destruct Hok as (e & ev & s' & Hcreate & _ & _ & _ & _ & _ & _ & _ & _ & _ & _ & _
                   & Hinv & Hbet).
  { apply list_elem_of_singleton. by vm_compute. }
  exists e, ev, s'. split; [exact Hcreate|]. split.
  - apply Hinv; [|exact staked_pools].
    intros k b Hb. vm_compute in Hb.
    destruct k as [[k|k|]|[k|k|]|]; try discriminate; injection Hb as <-;
      by eexists.
  - apply Hbet; [by vm_compute|..].
    + apply elem_of_cons. right. apply elem_of_cons. right. apply elem_of_cons. by left.
    + by vm_compute.
Defined.

(** ** What no call changes of an event *)

Lemma with_status_same (ev : Event.t) : Event.with_status (Event.status ev) ev = ev.
Proof. by destruct ev. Qed.

(** A call changes nothing of a resolved event but, at most, its status
    from completed to paid out. *)
Lemma exec_resolved_frozen (s : Store) (c : Call) (e : Id) (ev : Event.t) :
  events s !! e = Some ev → resolved ev →
  ∃ st, events (exec s c) !! e = Some (Event.with_status st ev)
        ∧ (st = EventStatus.completed ∨ st = EventStatus.paid_out)
        ∧ (Event.status ev = EventStatus.paid_out → st = EventStatus.paid_out).
Proof.
  intros Hev Hres.
  assert (Hsame : ∀ s', events s' = events s →
                        ∃ st, events s' !! e = Some (Event.with_status st ev)
                              ∧ (st = EventStatus.completed ∨ st = EventStatus.paid_out)
                              ∧ (Event.status ev = EventStatus.paid_out
                                 → st = EventStatus.paid_out)).
  { intros s' ->. exists (Event.status ev). by rewrite with_status_same. }
  assert (Hother : ∀ s' e' (f : Event.t → Event.t),
            e' ≠ e → events s' = alter f e' (events s) →
            ∃ st, events s' !! e = Some (Event.with_status st ev)
                  ∧ (st = EventStatus.completed ∨ st = EventStatus.paid_out)
                  ∧ (Event.status ev = EventStatus.paid_out
                     → st = EventStatus.paid_out)).
  { intros s' e' f Hne ->. exists (Event.status ev).
    by rewrite with_status_same, lookup_alter_ne. }
  assert (Hunres : ∀ e' ev0, events s !! e' = Some ev0 → ¬ resolved ev0 → e' ≠ e).
  { intros e' ev0 Hev0 Hno ->. rewrite Hev in Hev0. by injection Hev0 as <-. }
  destruct c as [now u input|e' input|e'|e' w a|e' a|e'|chain u input|chain rid a]; simpl.
  - destruct (placeBet_shape now u input s) as [->|(event & debit & Hev' & Hact & _ & _ & ->)];
      [by apply Hsame|].
    apply (Hother _ (pb_eventId input) (incrementPool (pb_choiceLetter input)
                                                      (pb_amount input))); [|done].
    apply (Hunres _ event Hev'). unfold resolved. rewrite Hact. by intros [|].
  - destruct (updateEvent_shape e' input s) as [->|(event & Hev' & Hc & Hp & ->)];
      [by apply Hsame|].
    apply (Hother _ e' (applyUpdate input)); [|done].
    apply (Hunres _ event Hev'). unfold resolved. tauto.
  - destruct (cancelEvent_shape e' s) as [->|(event & Hev' & Hc & Hp & _ & ->)];
      [by apply Hsame|].
    apply (Hother _ e' (Event.with_status EventStatus.cancelled)); [|done].
    apply (Hunres _ event Hev'). unfold resolved. tauto.
  - destruct (resolveEvent_shape e' w a s) as [->|(event & calc & Hev' & Hst & _ & ->)];
      [by apply Hsame|].
    destruct (resolveEvent_written e' w a s calc) as (Hevents & _ & _).
    eapply (Hother _ e'); [|exact Hevents].
    apply (Hunres _ event Hev'). unfold resolved. by destruct Hst as [-> | ->]; intros [|].
  - destruct (distributePayouts_shape e' a s) as [->| ->]; [by apply Hsame|]. simpl.
    destruct (decide (e' = e)) as [->|Hne].
    + exists EventStatus.paid_out. rewrite lookup_alter_eq, Hev. simpl. tauto.
    + exists (Event.status ev). by rewrite with_status_same, lookup_alter_ne.
  - destruct (refundEvent_shape e' s) as [->|(event & _ & _ & ->)]; by apply Hsame.
  - destruct (requestWithdrawal_shape chain u input s) as [->|(rq & debit & _ & _ & ->)];
      by apply Hsame.
  - destruct (processWithdrawal_shape chain rid a s)
      as [->|[(f & ->)|(f & credit & _ & _ & ->)]]; by apply Hsame.
Qed.

(** The result of a resolved event is final: whatever calls follow, the
    event keeps its winning side, its pools, its rake and its lock time,
    and only its status may still move, from completed to paid out; no bet
    joins or leaves it, and every further [resolveEvent] on it is refused
    with status 400 and writes nothing. *)
Theorem resolution_is_final (s : Store) (calls : list Call) (e : Id) (ev : Event.t) :
  events s !! e = Some ev → resolved ev →
  let later := execAll s calls in
  (∃ st, events later !! e = Some (Event.with_status st ev)
         ∧ (st = EventStatus.completed ∨ st = EventStatus.paid_out)
         ∧ (Event.status ev = EventStatus.paid_out → st = EventStatus.paid_out))
  ∧ (∀ k, betEvent later k = Some e ↔ betEvent s k = Some e)
  ∧ (∀ w a, ∃ err, resolveEvent e w a later = (Throw err, later) ∧ statusCode err = 400%Z).
Proof.
  intros Hev Hres later.
  assert (Hfrozen : ∃ st, events later !! e = Some (Event.with_status st ev)
                          ∧ (st = EventStatus.completed ∨ st = EventStatus.paid_out)
                          ∧ (Event.status ev = EventStatus.paid_out
                             → st = EventStatus.paid_out)).
  { unfold later. clear later. revert s ev Hev Hres.
    induction calls as [|c calls IH]; intros s ev Hev Hres.
    - exists (Event.status ev). rewrite with_status_same. by split.
    - unfold execAll. cbn [foldl]. fold (execAll (exec s c) calls).
      destruct (exec_resolved_frozen s c e ev Hev Hres) as (st1 & Hev1 & Hst1 & Hpaid1).
      destruct (IH (exec s c) (Event.with_status st1 ev) Hev1) as (st2 & Hev2 & Hst2 & Hpaid2).
      { unfold resolved. simpl. exact Hst1. }
      exists st2. split; [exact Hev2|]. split; [exact Hst2|].
      intros Hpaid. apply Hpaid2. simpl. by apply Hpaid1. }
  split; [exact Hfrozen|]. split.
  - by destruct (execAll_resolved e calls s ev Hev Hres) as (_ & Hbets & _).
  - intros w a. destruct Hfrozen as (st & Hlater & Hst & _).
    apply (resolveEvent_refused e w a later _ Hlater); simpl;
      by destruct Hst as [-> | ->].
Qed.

Lemma resolution_is_final_witness :
  (Event.winningSide <$>
     events (execAll Scenario.settled
               [CallUpdateEvent Scenario.coinFlipId
                                (mkUpdateEvent None (Some EventStatus.active));
                CallPlaceBet 0 Scenario.bob (mkPlaceBet Scenario.coinFlipId Letter.B 100);
                CallResolveEvent Scenario.coinFlipId Letter.B Scenario.admin;
                CallDistributePayouts Scenario.coinFlipId Scenario.admin])
     !! Scenario.coinFlipId)
  = Some (Some Letter.A).
Proof.
  assert (Hev : events Scenario.settled !! Scenario.coinFlipId
                = Some match events Scenario.settled !! Scenario.coinFlipId with
                       | Some ev => ev
                       | None => Scenario.coinFlip
                       end) by (vm_compute; reflexivity).
  destruct (resolution_is_final Scenario.settled
              [CallUpdateEvent Scenario.coinFlipId
                               (mkUpdateEvent None (Some EventStatus.active));
               CallPlaceBet 0 Scenario.bob (mkPlaceBet Scenario.coinFlipId Letter.B 100);
               CallResolveEvent Scenario.coinFlipId Letter.B Scenario.admin;
               CallDistributePayouts Scenario.coinFlipId Scenario.admin]
              Scenario.coinFlipId _ Hev) as ((st & Hlater & _) & _).
  - left. by vm_compute.
  - rewrite Hlater. by vm_compute.
Defined.

Lemma lookup_alter_keeps {W} (g : Event.t → W) (f : Event.t → Event.t) (e e0 : Id)
    (m : gmap Id Event.t) (ev : Event.t) :
  (∀ x, g (f x) = g x) → m !! e0 = Some ev →
  ∃ ev', alter f e m !! e0 = Some ev' ∧ g ev' = g ev.
Proof.
  intros Hg Hev. rewrite lookup_alter. destruct (decide (e = e0)) as [->|_].
  - rewrite Hev. simpl. eexists. split; [done|]. apply Hg.
  - by exists ev.
Qed.

Lemma incrementPool_letters (l : Letter.t) (a : Q) (ev : Event.t) :
  Choice.choiceLetter <$> Event.choices (incrementPool l a ev)
  = Choice.choiceLetter <$> Event.choices ev.
Proof.
  unfold incrementPool. simpl.
  induction (Event.choices ev) as [|c cs IH]; [done|].
  simpl. f_equal; [|exact IH]. by destruct (decide _).
Qed.

Lemma exec_event_terms (s : Store) (c : Call) (e : Id) (ev : Event.t) :
  events s !! e = Some ev →
  ∃ ev', events (exec s c) !! e = Some ev'
         ∧ (Event.creatorCommission ev', Choice.choiceLetter <$> Event.choices ev')
           = (Event.creatorCommission ev, Choice.choiceLetter <$> Event.choices ev).
Proof.
  intros Hev.
  set (g := λ x : Event.t,
              (Event.creatorCommission x, Choice.choiceLetter <$> Event.choices x)).
  assert (Hsame : ∀ s', events s' = events s →
                        ∃ ev', events s' !! e = Some ev' ∧ g ev' = g ev).
  { intros s' ->. by exists ev. }
  destruct c as [now u input|e' input|e'|e' w a|e' a|e'|chain u input|chain rid a]; simpl.
  - destruct (placeBet_shape now u input s) as [->|(event & debit & _ & _ & _ & _ & ->)];
      [by apply Hsame|].
    simpl. apply (lookup_alter_keeps g); [|done].
    intros x. unfold g. by rewrite incrementPool_letters.
  - destruct (updateEvent_shape e' input s) as [->|(event & _ & _ & _ & ->)];
      [by apply Hsame|].
    simpl. apply (lookup_alter_keeps g); [|done].
    intros x. unfold g, applyUpdate. by destruct (ue_lockTime input), (ue_status input).
  - destruct (cancelEvent_shape e' s) as [->|(event & _ & _ & _ & _ & ->)];
      [by apply Hsame|].
    simpl. by apply (lookup_alter_keeps g).
  - destruct (resolveEvent_shape e' w a s) as [->|(event & calc & _ & _ & _ & ->)];
      [by apply Hsame|].
    destruct (resolveEvent_written e' w a s calc) as (-> & _ & _).
    by apply (lookup_alter_keeps g).
  - destruct (distributePayouts_shape e' a s) as [->| ->]; [by apply Hsame|].
    simpl. by apply (lookup_alter_keeps g).
  - destruct (refundEvent_shape e' s) as [->|(event & _ & _ & ->)]; by apply Hsame.
  - destruct (requestWithdrawal_shape chain u input s) as [->|(rq & debit & _ & _ & ->)];
      by apply Hsame.
  - destruct (processWithdrawal_shape chain rid a s)
      as [->|[(f & ->)|(f & credit & _ & _ & ->)]]; by apply Hsame.
Qed.

(** Events are never deleted, and the terms of an event are fixed when it
    is created: whatever calls run, its rake and the letters of its choices
    stay as they are (no call adds, removes or renames a choice). *)
Theorem events_keep_rake_and_choices (s : Store) (calls : list Call) (e : Id)
    (ev : Event.t) :
  events s !! e = Some ev →
  ∃ ev', events (execAll s calls) !! e = Some ev'
         ∧ Event.creatorCommission ev' = Event.creatorCommission ev
         ∧ Choice.choiceLetter <$> Event.choices ev'
           = Choice.choiceLetter <$> Event.choices ev.
Proof.
  revert s ev. induction calls as [|c calls IH]; intros s ev Hev.
  - by exists ev.
  - unfold execAll. cbn [foldl]. fold (execAll (exec s c) calls).
    destruct (exec_event_terms s c e ev Hev) as (ev1 & Hev1 & Hterms1).
    destruct (IH (exec s c) ev1 Hev1) as (ev2 & Hev2 & Hrake2 & Hletters2).
    injection Hterms1 as Hrake1 Hletters1.
    exists ev2. split; [exact Hev2|]. split; congruence.
Qed.

Lemma events_keep_rake_and_choices_witness :
  ∃ ev', events (execAll Scenario.staked
                   [CallUpdateEvent Scenario.coinFlipId
                                    (mkUpdateEvent (Some 7%Z) (Some EventStatus.draft));
                    CallCancelEvent Scenario.coinFlipId;
                    CallRefundEvent Scenario.coinFlipId]) !! Scenario.coinFlipId
         = Some ev'
         ∧ Event.creatorCommission ev' = 0.01
         ∧ Choice.choiceLetter <$> Event.choices ev' = [Letter.A; Letter.B].
Proof.
  assert (Hev : events Scenario.staked !! Scenario.coinFlipId
                = Some match events Scenario.staked !! Scenario.coinFlipId with
                       | Some ev => ev
                       | None => Scenario.coinFlip
                       end) by (vm_compute; reflexivity).
  destruct (events_keep_rake_and_choices Scenario.staked
              [CallUpdateEvent Scenario.coinFlipId
                               (mkUpdateEvent (Some 7%Z) (Some EventStatus.draft));
               CallCancelEvent Scenario.coinFlipId;
               CallRefundEvent Scenario.coinFlipId]
              Scenario.coinFlipId _ Hev) as (ev' & Hev' & Hrake & Hletters).
  exists ev'. split; [exact Hev'|]. split.
  - rewrite Hrake. reflexivity.
  - rewrite Hletters. reflexivity.
Defined.

(** ** Event statistics *)

Lemma toFixed2_close (x : Q) : Qabs (inject_Z (toFixed2 x) - x * 100) <= 1 # 2.
Proof.
  unfold toFixed2. destruct (Qltb x 0).
  - pose proof (Qfloor_le (- x * 100 + (1 # 2))) as Hle.
    pose proof (Qlt_floor (- x * 100 + (1 # 2))) as Hlt.
    rewrite inject_Z_plus in Hlt. change (inject_Z 1) with 1 in Hlt.
    rewrite inject_Z_opp. apply Qabs_Qle_condition. split; lra.
  - pose proof (Qfloor_le (x * 100 + (1 # 2))) as Hle.
    pose proof (Qlt_floor (x * 100 + (1 # 2))) as Hlt.
    rewrite inject_Z_plus in Hlt. change (inject_Z 1) with 1 in Hlt.
    apply Qabs_Qle_condition. split; lra.
Qed.

(** Each bet on a listed choice is counted for exactly one choice when the
    letters of the choices are distinct. *)
Lemma betsCount_add_up (letters : list Letter.t) (bets : list (Id * Bet.t)) :
  NoDup letters →
  (∀ kb, kb ∈ bets → Bet.choiceLetter kb.2 ∈ letters) →
  sum_list ((λ l, length (filter (λ kb : Id * Bet.t, Bet.choiceLetter kb.2 = l) bets))
            <$> letters)
  = length bets.
Proof.
  intros Hnd. induction bets as [|kb bets IH]; intros Hin.
  - clear Hnd Hin. induction letters as [|l letters IHl]; [done|].
    rewrite fmap_cons. simpl. exact IHl.
  - assert (Hone : ∀ ls, NoDup ls →
               sum_list ((λ l, length (filter (λ kb' : Id * Bet.t,
                                                 Bet.choiceLetter kb'.2 = l) (kb :: bets)))
                         <$> ls)
               = ((if decide (Bet.choiceLetter kb.2 ∈ ls) then 1 else 0)
                  + sum_list ((λ l, length (filter (λ kb' : Id * Bet.t,
                                                      Bet.choiceLetter kb'.2 = l) bets))
                              <$> ls))%nat).
    { induction ls as [|l ls IHl]; intros Hnd'; [done|].
      apply NoDup_cons in Hnd' as [Hfresh Hnd'].
      rewrite !fmap_cons. cbn [sum_list sum_list_with]. rewrite (IHl Hnd').
      rewrite filter_cons.
      destruct (decide (Bet.choiceLetter kb.2 ∈ l :: ls)) as [Hcons|Hcons];
        destruct (decide (Bet.choiceLetter kb.2 ∈ ls)) as [Hin'|Hnin];
        destruct (decide (Bet.choiceLetter kb.2 = l)) as [Heq|Hne];
        simpl; try lia; exfalso.
      - apply Hfresh. by rewrite <- Heq.
      - apply elem_of_cons in Hcons as [?|?]; done.
      - apply Hfresh. by rewrite <- Heq.
      - apply Hcons, elem_of_cons. by right.
      - apply Hcons, elem_of_cons. by left. }
    rewrite (Hone letters Hnd).
    rewrite decide_True by (apply Hin, elem_of_cons; by left).
    rewrite IH; [done|]. intros kb' Hkb'. apply Hin, elem_of_cons. by right.
Qed.

(** [getEventStats] answers an unknown event with "not found".  Otherwise
    it reports the sum of the pools, the number of active bets, and for
    every choice, in order, its letter, its pool, its number of active bets
    and a percentage.  It never divides by zero: the percentage is 0.00
    unless the total pool is positive.  When it is positive the percentage
    is, in exact arithmetic, [pool / totalPool * 100] as [toFixed(2)]
    prints it: in hundredths, at most half a hundredth from that quotient.
    The per-choice counts add up to the number of bets when the letters of
    the choices are distinct and every active bet is on one of them. *)
Theorem getEventStats_figures (e : Id) (s : Store) :
  (events s !! e = None → getEventStats e s = Throw (mkAppError EventNotFound 404))
  ∧ (∀ event, events s !! e = Some event →
       ∃ stats,
         let T := poolTotal (Event.choices event) in
         getEventStats e s = Ok stats
         ∧ es_totalPool stats = T
         ∧ es_totalBets stats = length (activeBetsOf s e)
         ∧ Forall2 (λ c choice,
                      let percentage :=
                        if Qltb 0 T then Choice.totalPool choice / T * 100 else 0 in
                      cs_letter c = Choice.choiceLetter choice
                      ∧ cs_pool c = Choice.totalPool choice
                      ∧ cs_betsCount c
                        = length (filter (λ kb : Id * Bet.t,
                                            Bet.choiceLetter kb.2 = Choice.choiceLetter choice)
                                         (activeBetsOf s e))
                      ∧ cs_percentage c = toFixed2 percentage
                      ∧ Qabs (inject_Z (cs_percentage c) - percentage * 100) <= 1 # 2)
                   (es_choices stats) (Event.choices event)
         ∧ (T <= 0 → Forall (λ c, cs_percentage c = 0%Z) (es_choices stats))
         ∧ (NoDup (Choice.choiceLetter <$> Event.choices event) →
            (∀ k b, eventBets s !! k = Some b → Bet.eventId b = e →
                    Bet.status b = BetStatus.active →
                    Bet.choiceLetter b ∈ Choice.choiceLetter <$> Event.choices event) →
            sum_list (cs_betsCount <$> es_choices stats) = es_totalBets stats)).
Proof.
  split.
  { intros Hnone. unfold getEventStats. by rewrite Hnone. }
  intros event Hev. unfold getEventStats. rewrite Hev. cbv zeta.
  eexists. split; [reflexivity|]. cbn [es_totalPool es_totalBets es_choices].
  set (T := poolTotal (Event.choices event)).
  split; [done|]. split; [done|].
  split; [|split].
  - apply Forall2_fmap_l, Forall_Forall2_diag, Forall_forall. intros c _. simpl.
    repeat split. apply toFixed2_close.
  - intros Hle. apply Forall_fmap, Forall_forall. intros c _. simpl.
    by rewrite (proj2 (Qltb_ge 0 T)).
  - intros Hnd Hlisted. rewrite <- list_fmap_compose.
    rewrite <- (betsCount_add_up (Choice.choiceLetter <$> Event.choices event)
                  (activeBetsOf s e) Hnd).
    + by rewrite <- list_fmap_compose.
    + intros [k b] Hkb. apply activeBetsOf_elem in Hkb as (Hb & He & Hact).
      by apply (Hlisted k b).
Qed.

Lemma getEventStats_figures_witness :
  ∃ stats, getEventStats Scenario.coinFlipId Scenario.staked = Ok stats
           ∧ cs_percentage <$> es_choices stats = [6667%Z; 3333%Z]
           ∧ sum_list (cs_betsCount <$> es_choices stats) = 2%nat.
Proof.
  destruct (getEventStats_figures Scenario.coinFlipId Scenario.staked) as [_ Hok].
  destruct (Hok (Event.with_choices [Choice.mk Letter.A 1000; Choice.mk Letter.B 500]
                   Scenario.coinFlip))
    as (stats & Hstats & Htotal & Hbets & Heach & _ & Hcount);
    [by vm_compute|].
  exists stats. split; [exact Hstats|]. split.
  - cbv zeta in Heach.
    destruct (es_choices stats) as [|c1 [|c2 [|c3 rest]]];
      try (exfalso; apply Forall2_length in Heach; discriminate).
    apply Forall2_cons in Heach as [(_ & _ & _ & H1 & _) Heach].
    apply Forall2_cons in Heach as [(_ & _ & _ & H2 & _) _].
    simpl. rewrite H1, H2. by vm_compute.
  - rewrite Hcount, Hbets; [by vm_compute|..].
    + simpl. compute_done.
    + intros k b Hb. vm_compute in Hb.
      destruct k as [[k|k|]|[k|k|]|]; try discriminate; injection Hb as <-;
        intros _ _; simpl; compute_done.
Defined.

(** ** Deposits *)

Lemma prefix_refl (s : string) : String.prefix s s = true.
Proof.
  induction s as [|c s IH]; [done|]. simpl. by destruct (ascii_dec c c).
Qed.

Lemma contains_cons (needle : string) (c : ascii) (rest : string) :
  contains needle (String c rest)
  = String.prefix needle (String c rest) || contains needle rest.
Proof. reflexivity. Qed.

Lemma contains_refl (s : string) : contains s s = true.
Proof.
  destruct s as [|c s]; [done|].
  by rewrite contains_cons, (prefix_refl (String c s)).
Qed.

Lemma contains_append (needle pre hay : string) :
  contains needle hay = true → contains needle (String.append pre hay) = true.
Proof.
  intros Hin. induction pre as [|c pre IH]; [done|].
  change (String.append (String c pre) hay) with (String c (String.append pre hay)).
  rewrite contains_cons, IH. apply orb_true_r.
Qed.

Lemma existingDeposit_snoc (env : DepositEnv) (u : Id) (sig : string) (s s' : Store)
    (rows : list DepositRow) (v : Id) (description : string) :
  existingDeposit env u sig (mkWalletState s' (rows ++ [mkDepositRow v description]))
  = existingDeposit env u sig (mkWalletState s rows)
    || (bool_decide (v = u) && matches env sig description).
Proof.
  unfold existingDeposit. simpl. rewrite existsb_app. simpl. by rewrite orb_false_r.
Qed.

(** What a deposit that went through has written. *)
Lemma deposit_ok (env : DepositEnv) (u : Id) (sig : string) (a : Q) (w w1 : WalletState)
    (r : DepositReceipt) :
  depositUSDC env u sig a w = (inr r, w1) ∨ depositSOL env u sig a w = (inr r, w1) →
  existingDeposit env u sig w = false
  ∧ verifyTransaction env sig = Some true
  ∧ ∃ description,
      contains sig description = true
      ∧ w1 = mkWalletState
               (ledger_create
                  (Ledger.mk u Currency.chips (dp_chips r)
                             (totalChips (getUserBalances (ws_store w) u))
                             (totalChips (getUserBalances (ws_store w) u) + dp_chips r)
                             TxType.deposit None None)
                  (ws_store w))
               (ws_deposits w ++ [mkDepositRow u description])
      ∧ dp_balances r = getUserBalances (ws_store w1) u.
Proof.
  intros [Hd|Hd].
  - unfold depositUSDC in Hd. destruct (existingDeposit env u sig w); [discriminate|].
    destruct (verifyTransaction env sig) as [[|]|]; try discriminate.
    cbv zeta in Hd. injection Hd as <- <-. split; [done|]. split; [done|].
    eexists. split; [|split; reflexivity].
    apply contains_append, contains_refl.
  - unfold depositSOL in Hd. destruct (existingDeposit env u sig w); [discriminate|].
    destruct (verifyTransaction env sig) as [[|]|]; try discriminate.
    destruct (PriceOracle.solToUSD (network env) (pyth env) a) as [usd|]; [|discriminate].
    cbv zeta in Hd. injection Hd as <- <-. split; [done|]. split; [done|].
    eexists. split; [|split; reflexivity].
    do 3 apply contains_append. apply contains_refl.
Qed.

(** The replay check of the deposits holds per user only.  Once a deposit
    with a transaction signature went through for a user, every further
    deposit of that user with the same signature, in USDC or in SOL, is
    refused with status 400 and writes nothing; but the same signature is
    accepted, and credited once more, for any other user who has not
    used it. *)
Theorem deposit_replay_is_blocked_per_user (env : DepositEnv) (u : Id) (sig : string)
    (a : Q) (w w1 : WalletState) (r : DepositReceipt) :
  (∀ needle hay, contains needle hay = true → matches env needle hay = true) →
  depositUSDC env u sig a w = (inr r, w1) ∨ depositSOL env u sig a w = (inr r, w1) →
  (∀ a', depositUSDC env u sig a' w1 = (inl TransactionAlreadyProcessed, w1))
  ∧ (∀ a', depositSOL env u sig a' w1 = (inl TransactionAlreadyProcessed, w1))
  ∧ (∀ v a', v ≠ u → existingDeposit env v sig w = false →
             ∃ w2, depositUSDC env v sig a' w1
                   = (inr (mkDepositReceipt a' (getUserBalances (ws_store w2) v)), w2)
                   ∧ ∃ credit, ledger (ws_store w2) = ledger (ws_store w1) ++ [credit]
                               ∧ Ledger.userId credit = v ∧ Ledger.amount credit = a'
                               ∧ Ledger.transactionType credit = TxType.deposit).
Proof.
  intros Hmatch Hd.
  destruct (deposit_ok env u sig a w w1 r Hd) as (_ & Hverify & description & Hin & Hw1 & _).
  assert (Hseen : existingDeposit env u sig w1 = true).
  { rewrite Hw1. destruct w as [s rows]. simpl.
    rewrite (existingDeposit_snoc env u sig s). rewrite bool_decide_eq_true_2 by done.
    rewrite (Hmatch _ _ Hin). apply orb_true_r. }
  split; [|split].
  - intros a'. unfold depositUSDC. by rewrite Hseen.
  - intros a'. unfold depositSOL. by rewrite Hseen.
  - intros v a' Hne Hfresh.
    assert (Hnot : existingDeposit env v sig w1 = false).
    { rewrite Hw1. destruct w as [s rows]. simpl.
      rewrite (existingDeposit_snoc env v sig s). simpl in Hfresh. rewrite Hfresh.
      by rewrite bool_decide_eq_false_2 by (intros Heq; by apply Hne). }
    unfold depositUSDC. rewrite Hnot, Hverify. cbv zeta.
    eexists (mkWalletState _ _). split; [reflexivity|]. simpl.
    eexists. split; [reflexivity|]. done.
Qed.

Lemma deposit_replay_is_blocked_per_user_witness :
  let env := mkDepositEnv contains (λ _, Some true) PriceOracle.devnet
                          PriceOracle.FeedMissing (λ _ _, "0.5 SOL (~$50.00)"%string) in
  let w1 := (depositSOL env Scenario.alice "5VERv8NMvz" (1 # 2)
                        (mkWalletState Scenario.opened [])).2 in
  depositUSDC env Scenario.alice "5VERv8NMvz" 70 w1 = (inl TransactionAlreadyProcessed, w1)
  ∧ ∃ w2, depositUSDC env Scenario.bob "5VERv8NMvz" 70 w1
          = (inr (mkDepositReceipt 70 (getUserBalances (ws_store w2) Scenario.bob)), w2).
Proof.
  intros env w1.
  assert (Hd : depositSOL env Scenario.alice "5VERv8NMvz" (1 # 2)
                 (mkWalletState Scenario.opened [])
               = (inr match (depositSOL env Scenario.alice "5VERv8NMvz" (1 # 2)
                               (mkWalletState Scenario.opened [])).1 with
                      | inr r => r
                      | inl _ => mkDepositReceipt 0 zeroBalances
                      end, w1)) by (vm_compute; reflexivity).
  destruct (deposit_replay_is_blocked_per_user env Scenario.alice "5VERv8NMvz" (1 # 2)
              (mkWalletState Scenario.opened []) w1 _ (λ _ _ H, H) (or_intror Hd))
    as (Hagain & _ & Hother).
  split; [apply Hagain|].
  destruct (Hother Scenario.bob 70) as (w2 & Hw2 & _); [done|reflexivity|].
  by exists w2.
Defined.

Lemma deposit_row_balances (s : Store) (u : Id) (chips before after : Q) :
  let s1 := ledger_create
              (Ledger.mk u Currency.chips chips before after TxType.deposit None None) s in
  purchasedScan s1 u = purchasedScan s u + chips
  ∧ (∀ v, wonChips (getUserBalances s1 v) = wonChips (getUserBalances s v)
          ∧ freeChips (getUserBalances s1 v) = freeChips (getUserBalances s v)
          ∧ lockedChips (getUserBalances s1 v) = lockedChips (getUserBalances s v))
  ∧ (∀ v, v ≠ u → getUserBalances s1 v = getUserBalances s v).
Proof.
  intros s1. split; [|split].
  - unfold purchasedScan, s1. rewrite chipTransactions_snoc.
    rewrite decide_True by done. by rewrite foldl_snoc.
  - intros v. unfold getUserBalances, wonChips, freeChips, lockedChips, s1.
    rewrite chipTransactions_snoc. simpl.
    destruct (decide (u = v ∧ Currency.chips = Currency.chips)); [|by rewrite app_nil_r].
    by rewrite foldl_snoc.
  - intros v Hne. unfold getUserBalances, s1. rewrite chipTransactions_snoc. simpl.
    rewrite decide_False by (intros [Heq _]; by apply Hne). by rewrite app_nil_r.
Qed.

(** [depositUSDC] goes through exactly when the user has no deposit whose
    description matches the signature and [verifyTransaction] answers
    true; the amount is not compared with anything: what the caller states
    is credited.  The credit is one ledger row of type deposit; it leaves
    the won, free and locked chips of everyone and all balances of the
    other users as they are and, for a non-negative amount on a
    non-negative purchased balance, raises the purchased chips by the
    amount; the new total is the new purchased chips plus the won and the
    free chips as they were. *)
Theorem depositUSDC_credits_purchased_chips (env : DepositEnv) (u : Id) (sig : string)
    (a : Q) (w : WalletState) :
  let out := depositUSDC env u sig a w in
  (match out.1 with inr _ => true | inl _ => false end = true
   ↔ existingDeposit env u sig w = false ∧ verifyTransaction env sig = Some true)
  ∧ (∀ r w1, out = (inr r, w1) →
       let s := ws_store w in
       let s1 := ws_store w1 in
       dp_chips r = a
       ∧ dp_balances r = getUserBalances s1 u
       ∧ ledger s1 = ledger s ++ [Ledger.mk u Currency.chips a
                                     (totalChips (getUserBalances s u))
                                     (totalChips (getUserBalances s u) + a)
                                     TxType.deposit None None]
       ∧ (∀ v, wonChips (getUserBalances s1 v) = wonChips (getUserBalances s v)
               ∧ freeChips (getUserBalances s1 v) = freeChips (getUserBalances s v)
               ∧ lockedChips (getUserBalances s1 v) = lockedChips (getUserBalances s v))
       ∧ (∀ v, v ≠ u → getUserBalances s1 v = getUserBalances s v)
       ∧ (0 <= a → 0 <= purchasedScan s u →
          purchasedChips (getUserBalances s1 u)
          == purchasedChips (getUserBalances s u) + a)
       ∧ totalChips (getUserBalances s1 u)
         = purchasedChips (getUserBalances s1 u) + wonChips (getUserBalances s u)
           + freeChips (getUserBalances s u)).
Proof.
  intros out. unfold out. split.
  { unfold depositUSDC. destruct (existingDeposit env u sig w).
    - simpl. split; [done|]. by intros [? _].
    - destruct (verifyTransaction env sig) as [[|]|]; simpl; split; try done;
        by intros [_ ?]. }
  intros r w1 Hd. set (s := ws_store w). set (s1 := ws_store w1).
  destruct (deposit_ok env u sig a w w1 r (or_introl Hd)) as (_ & _ & d & _ & Hw1 & Hbal).
  assert (Hchips : dp_chips r = a).
  { unfold depositUSDC in Hd. destruct (existingDeposit env u sig w); [discriminate|].
    destruct (verifyTransaction env sig) as [[|]|]; try discriminate.
    cbv zeta in Hd. by injection Hd as <- _. }
  rewrite Hchips in Hw1.
  destruct (deposit_row_balances s u a (totalChips (getUserBalances s u))
              (totalChips (getUserBalances s u) + a)) as (Hscan & Hothers & Hrest).
  cbv zeta in Hscan, Hothers, Hrest.
  assert (Hs1 : s1 = ledger_create
                       (Ledger.mk u Currency.chips a (totalChips (getUserBalances s u))
                                  (totalChips (getUserBalances s u) + a)
                                  TxType.deposit None None) s).
  { unfold s1. by rewrite Hw1. }
  split; [exact Hchips|]. split; [exact Hbal|]. rewrite Hs1.
  split; [done|]. split; [exact Hothers|]. split; [exact Hrest|]. split.
  - intros Ha Hp.
    change (Qmax 0 (purchasedScan
                      (ledger_create
                         (Ledger.mk u Currency.chips a
                                    (totalChips (getUserBalances s u))
                                    (totalChips (getUserBalances s u) + a)
                                    TxType.deposit None None) s) u)
            == Qmax 0 (purchasedScan s u) + a).
    rewrite Hscan. rewrite !Q.max_r by lra. reflexivity.
  - destruct (Hothers u) as (Hwon & Hfree & _). by rewrite <- Hwon, <- Hfree.
Qed.

Lemma depositUSDC_credits_purchased_chips_witness :
  let env := mkDepositEnv contains (λ _, Some true) PriceOracle.devnet
                          PriceOracle.FeedMissing (λ _ _, ""%string) in
  let w := mkWalletState Scenario.opened [] in
  purchasedChips (getUserBalances (ws_store (depositUSDC env Scenario.bob "3Xb7" 25 w).2)
                                  Scenario.bob)
  == 525.
Proof.
  intros env w.
  destruct (depositUSDC_credits_purchased_chips env Scenario.bob "3Xb7" 25 w) as [_ Hok].
  destruct (Hok match (depositUSDC env Scenario.bob "3Xb7" 25 w).1 with
                | inr r => r
                | inl _ => mkDepositReceipt 0 zeroBalances
                end
                (depositUSDC env Scenario.bob "3Xb7" 25 w).2)
    as (_ & _ & _ & _ & _ & Hcredit & _); [vm_compute; reflexivity|].
  rewrite Hcredit; by vm_compute.
Defined.

(** [depositSOL] credits whole chips only: the dollar value that
    [solToUSD] returns for the amount, rounded down.  When the oracle has
    no price the call fails with status 500 and writes nothing.  A deposit
    whose dollar value, as returned, is less than one goes through, credits
    0 chips and changes no balance, and still uses up its signature. *)
Theorem depositSOL_rounds_down (env : DepositEnv) (u : Id) (sig : string) (amountSOL : Q)
    (w : WalletState) :
  let out := depositSOL env u sig amountSOL w in
  (existingDeposit env u sig w = false → verifyTransaction env sig = Some true →
   PriceOracle.getSOLPrice (network env) (pyth env) = None →
   out = (inl DepositUncaughtException, w))
  ∧ (∀ r w1, out = (inr r, w1) →
       ∃ usdValue n,
         PriceOracle.solToUSD (network env) (pyth env) amountSOL = Some usdValue
         ∧ dp_chips r = inject_Z n
         ∧ n = Qfloor usdValue
         ∧ inject_Z n <= usdValue ∧ usdValue < inject_Z n + 1
         ∧ ledger (ws_store w1)
           = ledger (ws_store w)
             ++ [Ledger.mk u Currency.chips (inject_Z n)
                           (totalChips (getUserBalances (ws_store w) u))
                           (totalChips (getUserBalances (ws_store w) u) + inject_Z n)
                           TxType.deposit None None]
         ∧ (0 <= usdValue → usdValue < 1 →
            n = 0%Z
            ∧ (0 <= purchasedScan (ws_store w) u →
               totalChips (getUserBalances (ws_store w1) u)
               == totalChips (getUserBalances (ws_store w) u))
            ∧ ((∀ needle hay, contains needle hay = true →
                              matches env needle hay = true) →
               ∀ a', depositSOL env u sig a' w1
                     = (inl TransactionAlreadyProcessed, w1)))).
Proof.
  intros out. unfold out. split.
  { intros Hfresh Hverify Hprice. unfold depositSOL, PriceOracle.solToUSD.
    by rewrite Hfresh, Hverify, Hprice. }
  intros r w1 Hd.
  destruct (deposit_ok env u sig amountSOL w w1 r (or_intror Hd))
    as (_ & _ & d & Hin & Hw1 & _).
  unfold depositSOL, PriceOracle.solToUSD in Hd.
  destruct (existingDeposit env u sig w); [discriminate|].
  destruct (verifyTransaction env sig) as [[|]|]; try discriminate.
  destruct (PriceOracle.getSOLPrice (network env) (pyth env)) as [price|] eqn:Hprice;
    [|discriminate].
  cbv zeta in Hd.
  assert (Hchips : dp_chips r = inject_Z (Qfloor (amountSOL * price))).
  { injection Hd as Hr _. rewrite <- Hr. reflexivity. }
  clear Hd.
  exists (amountSOL * price), (Qfloor (amountSOL * price)).
  split; [unfold PriceOracle.solToUSD; by rewrite Hprice|].
  split; [exact Hchips|]. split; [done|].
  split; [apply Qfloor_le|].
  split.
  { pose proof (Qlt_floor (amountSOL * price)) as Hlt.
    rewrite inject_Z_plus in Hlt. change (inject_Z 1) with 1 in Hlt. exact Hlt. }
  rewrite Hchips in Hw1. split; [by rewrite Hw1|].
  intros Hnn Hsmall.
  assert (Hzero : Qfloor (amountSOL * price) = 0%Z).
  { pose proof (Qfloor_le (amountSOL * price)) as Hle.
    pose proof (Qlt_floor (amountSOL * price)) as Hlt.
    rewrite inject_Z_plus in Hlt. change (inject_Z 1) with 1 in Hlt.
    assert (H1 : (Qfloor (amountSOL * price) < 1)%Z).
    { rewrite Zlt_Qlt. change (inject_Z 1) with 1. lra. }
    assert (H2 : (-1 < Qfloor (amountSOL * price))%Z).
    { rewrite Zlt_Qlt. change (inject_Z (-1)) with (-(1)). lra. }
    lia. }
  split; [exact Hzero|]. split.
  - intros Hp. rewrite Hw1, Hzero. simpl ws_store.
    destruct (deposit_row_balances (ws_store w) u (inject_Z 0)
                (totalChips (getUserBalances (ws_store w) u))
                (totalChips (getUserBalances (ws_store w) u) + inject_Z 0))
      as (Hscan & Hothers & _).
    cbv zeta in Hscan, Hothers. destruct (Hothers u) as (Hwon & Hfree & _).
    match goal with
    | |- totalChips (getUserBalances ?st u) == _ => set (s1 := st) in *
    end.
    change (Qmax 0 (purchasedScan s1 u) + wonChips (getUserBalances s1 u)
            + freeChips (getUserBalances s1 u)
            == Qmax 0 (purchasedScan (ws_store w) u)
               + wonChips (getUserBalances (ws_store w) u)
               + freeChips (getUserBalances (ws_store w) u)).
    rewrite Hscan, Hwon, Hfree.
    assert (Hsame : Qmax 0 (purchasedScan (ws_store w) u + inject_Z 0)
                    == Qmax 0 (purchasedScan (ws_store w) u)).
    { apply Q.max_compat; [reflexivity|]. simpl. ring. }
    by rewrite Hsame.
  - intros Hmatch a'.
    assert (Hseen : existingDeposit env u sig w1 = true).
    { rewrite Hw1. destruct w as [s rows]. simpl.
      rewrite (existingDeposit_snoc env u sig s). rewrite bool_decide_eq_true_2 by done.
      rewrite (Hmatch _ _ Hin). apply orb_true_r. }
    unfold depositSOL. by rewrite Hseen.
Qed.

Lemma depositSOL_rounds_down_witness :
  let env := mkDepositEnv contains (λ _, Some true) PriceOracle.devnet
                          PriceOracle.FeedMissing
                          (λ _ _, "0.0099 SOL (~$0.99)"%string) in
  let w := mkWalletState Scenario.opened [] in
  ∃ r w1, depositSOL env Scenario.bob "3Xb7" (99 # 10000) w = (inr r, w1)
          ∧ dp_chips r = 0
          ∧ depositSOL env Scenario.bob "3Xb7" 5 w1 = (inl TransactionAlreadyProcessed, w1).
Proof.
  intros env w.
  destruct (depositSOL_rounds_down env Scenario.bob "3Xb7" (99 # 10000) w) as [_ Hok].
  assert (Hd : depositSOL env Scenario.bob "3Xb7" (99 # 10000) w
               = (inr match (depositSOL env Scenario.bob "3Xb7" (99 # 10000) w).1 with
                      | inr r => r
                      | inl _ => mkDepositReceipt 1 zeroBalances
                      end,
                  (depositSOL env Scenario.bob "3Xb7" (99 # 10000) w).2))
    by (vm_compute; reflexivity).
  destruct (Hok _ _ Hd) as (usd & n & Husd & Hchips & _ & _ & _ & _ & Hsmall).
  assert (Hp : usd = (99 # 10000) * 100) by (by injection Husd as <-).
  subst usd.
  destruct Hsmall as (Hn & _ & Hagain); [by vm_compute..|].
  eexists _, _. split; [exact Hd|]. split.
  - rewrite Hchips, Hn. reflexivity.
  - apply Hagain. auto.
Defined.

(** ** Daily free chips *)

Lemma foldl_max_acc (ts : list Z) (t0 : Z) : (t0 ≤ foldl Z.max t0 ts)%Z.
Proof.
  revert t0. induction ts as [|t ts IH]; intros t0; simpl; [lia|].
  specialize (IH (Z.max t0 t)). lia.
Qed.

Lemma foldl_max_ge (ts : list Z) (t0 x : Z) :
  x = t0 ∨ x ∈ ts → (x ≤ foldl Z.max t0 ts)%Z.
Proof.
  intros [->|Hx]; [apply foldl_max_acc|].
  revert t0. induction ts as [|t ts IH]; intros t0; [by apply elem_of_nil in Hx|].
  simpl. apply elem_of_cons in Hx as [->|Hx]; [|by apply IH].
  pose proof (foldl_max_acc ts (Z.max t0 t)). lia.
Qed.

Lemma claimTimes_snoc (like : string → string → bool) (v u : Id) (s s' : Store)
    (rows : list RewardRow) (d : string) (t : Z) :
  claimTimes like v (mkClaimState s' (rows ++ [mkRewardRow u d t]))
  = claimTimes like v (mkClaimState s rows)
    ++ (if decide (u = v ∧ like "Daily free chips" d = true) then [t] else []).
Proof.
  unfold claimTimes. simpl. rewrite filter_app, fmap_app. f_equal.
  rewrite filter_cons. simpl. by destruct (decide _).
Qed.

Lemma lastClaim_ge (like : string → string → bool) (u : Id) (c : ClaimState) (t : Z) :
  t ∈ claimTimes like u c → ∃ m, lastClaim like u c = Some m ∧ (t ≤ m)%Z.
Proof.
  unfold lastClaim. destruct (claimTimes like u c) as [|t0 ts]; intros Hin.
  - by apply elem_of_nil in Hin.
  - eexists. split; [reflexivity|]. apply foldl_max_ge.
    apply elem_of_cons in Hin as [->|Hin]; [by left|by right].
Qed.

Lemma classify_referral_free (acc : Buckets) (tx : Ledger.t) :
  Ledger.transactionType tx = TxType.referral_reward →
  b_free (classify acc tx) = b_free acc + Ledger.amount tx
  ∧ b_purchased (classify acc tx) = b_purchased acc
  ∧ b_won (classify acc tx) = b_won acc.
Proof. intros Hty. unfold classify. by rewrite Hty. Qed.

(** A claim that goes through credits exactly one free chip (one row of
    type [referral_reward] and amount 1, which leaves the purchased and the
    won chips as they are and raises non-negative free chips by 1), and
    starts the cooldown: while less than twenty-four hours have passed
    since the time stamp of its ledger row, every further claim of that
    user is refused with status 400, names a next claim time no earlier
    than that time stamp plus twenty-four hours, and writes nothing.  The
    claims of one user never affect what another user may claim. *)
Theorem free_chips_once_per_cooldown (like : string → string → bool) (now createdAt : Z)
    (u : Id) (c c1 : ClaimState) (r : Q * UserBalances) :
  (∀ needle hay, contains needle hay = true → like needle hay = true) →
  claimFreeChips like now createdAt u c = (inr r, c1) →
  let s := fc_store c in
  let s1 := fc_store c1 in
  r = (1, getUserBalances s1 u)
  ∧ (lastClaim like u c = None
     ∨ ∃ t, lastClaim like u c = Some t ∧ (t + 86400000 ≤ now)%Z)
  ∧ ledger s1 = ledger s ++ [Ledger.mk u Currency.chips 1
                                (totalChips (getUserBalances s u))
                                (totalChips (getUserBalances s u) + 1)
                                TxType.referral_reward None None]
  ∧ purchasedChips (getUserBalances s1 u) = purchasedChips (getUserBalances s u)
  ∧ wonChips (getUserBalances s1 u) = wonChips (getUserBalances s u)
  ∧ (0 <= freeScan s u →
     freeChips (getUserBalances s1 u) == freeChips (getUserBalances s u) + 1)
  ∧ (∀ now' createdAt', (now' - createdAt < 86400000)%Z →
       ∃ next, claimFreeChips like now' createdAt' u c1
               = (inl (ClaimAgainAt (Some next)), c1)
               ∧ (createdAt + 86400000 ≤ next)%Z)
  ∧ (∀ v now', v ≠ u →
       canClaimFreeChips like now' v c1 = canClaimFreeChips like now' v c).
Proof.
  intros Hlike Hclaim s s1.
  unfold claimFreeChips in Hclaim. cbv zeta in Hclaim.
  destruct (canClaim (canClaimFreeChips like now u c)) eqn:Hcan; [|discriminate].
  cbn [negb] in Hclaim.
  assert (Hc1 : c1 = mkClaimState
                       (ledger_create
                          (Ledger.mk u Currency.chips 1 (totalChips (getUserBalances s u))
                                     (totalChips (getUserBalances s u) + 1)
                                     TxType.referral_reward None None) s)
                       (fc_rewards c
                        ++ [mkRewardRow u "Daily free chips claim" createdAt]))
    by (by injection Hclaim as _ <-).
  assert (Hr : r = (1, getUserBalances s1 u)).
  { unfold s1. rewrite Hc1. by injection Hclaim as <- _. }
  clear Hclaim.
  assert (Hs1 : s1 = ledger_create
                       (Ledger.mk u Currency.chips 1 (totalChips (getUserBalances s u))
                                  (totalChips (getUserBalances s u) + 1)
                                  TxType.referral_reward None None) s)
    by (unfold s1; by rewrite Hc1).
  assert (Hscan : b_purchased (foldl classify (mkBuckets 0 0 0 0) (chipTransactions s1 u))
                  = b_purchased (foldl classify (mkBuckets 0 0 0 0) (chipTransactions s u))
                  ∧ b_won (foldl classify (mkBuckets 0 0 0 0) (chipTransactions s1 u))
                    = b_won (foldl classify (mkBuckets 0 0 0 0) (chipTransactions s u))
                  ∧ freeScan s1 u = freeScan s u + 1).
  { unfold freeScan. rewrite Hs1, chipTransactions_snoc.
    rewrite decide_True by done. rewrite foldl_snoc.
    by destruct (classify_referral_free
                   (foldl classify (mkBuckets 0 0 0 0) (chipTransactions s u))
                   (Ledger.mk u Currency.chips 1 (totalChips (getUserBalances s u))
                              (totalChips (getUserBalances s u) + 1)
                              TxType.referral_reward None None) eq_refl)
      as (-> & -> & ->). }
  destruct Hscan as (Hpurchased & Hwon & Hfree).
  assert (Hmatch : like "Daily free chips" "Daily free chips claim" = true)
    by (apply Hlike; reflexivity).
  assert (Htimes : ∀ v, claimTimes like v c1
                        = claimTimes like v c
                          ++ (if decide (u = v) then [createdAt] else [])).
  { intros v. rewrite Hc1. destruct c as [st rows]. simpl fc_rewards.
    rewrite (claimTimes_snoc like v u st). f_equal.
    destruct (decide (u = v)) as [->|Hne].
    - by rewrite decide_True.
    - by rewrite decide_False by (intros [? _]; done). }
  split; [exact Hr|]. split.
  { unfold canClaimFreeChips in Hcan.
    destruct (lastClaim like u c) as [t|]; [|by left].
    right. exists t. split; [done|]. cbv zeta in Hcan. simpl in Hcan.
    apply bool_decide_eq_true in Hcan. unfold FREE_CHIPS_COOLDOWN_HOURS in Hcan. lia. }
  split; [by rewrite Hs1|].
  split; [exact (f_equal (Qmax 0) Hpurchased)|].
  split; [exact (f_equal (Qmax 0) Hwon)|].
  split.
  { intros Hnn.
    change (Qmax 0 (freeScan s1 u) == Qmax 0 (freeScan s u) + 1).
    rewrite Hfree. rewrite !Q.max_r by lra. reflexivity. }
  split.
  - intros now' createdAt' Hsoon.
    destruct (lastClaim_ge like u c1 createdAt) as (m & Hlast & Hm).
    { rewrite Htimes, decide_True by done. apply elem_of_app. right.
      by apply list_elem_of_singleton. }
    exists (m + 86400000)%Z. split; [|lia].
    unfold claimFreeChips, canClaimFreeChips. rewrite Hlast. cbv zeta.
    cbn [canClaim nextClaimTime].
    rewrite bool_decide_eq_false_2; [done|].
    unfold FREE_CHIPS_COOLDOWN_HOURS. lia.
  - intros v now' Hne. unfold canClaimFreeChips, lastClaim.
    rewrite Htimes, decide_False by (intros Heq; by apply Hne).
    by rewrite app_nil_r.
Qed.

Lemma free_chips_once_per_cooldown_witness :
  let c1 := (claimFreeChips contains 1000 1000 Scenario.alice
               (mkClaimState Scenario.opened [])).2 in
  ∃ next, claimFreeChips contains 86400999 86400999 Scenario.alice c1
          = (inl (ClaimAgainAt (Some next)), c1)
          ∧ (86401000 ≤ next)%Z.
Proof.
  intros c1.
  assert (Hclaim : claimFreeChips contains 1000 1000 Scenario.alice
                     (mkClaimState Scenario.opened [])
                   = (inr match (claimFreeChips contains 1000 1000 Scenario.alice
                                   (mkClaimState Scenario.opened [])).1 with
                          | inr r => r
                          | inl _ => (0, zeroBalances)
                          end, c1)) by (vm_compute; reflexivity).
  destruct (free_chips_once_per_cooldown contains 1000 1000 Scenario.alice _ c1 _
              (λ _ _ H, H) Hclaim) as (_ & _ & _ & _ & _ & _ & Hcool & _).
  destruct (Hcool 86400999%Z 86400999%Z) as (next & Hnext & Hge); [lia|].
  exists next. split; [exact Hnext|]. lia.
Defined.
